(** * EVCS data scraper: the normalisation and export pipeline

    A shallow embedding of [evcs_scraper.py] (class [EVCSScraper]):
    the station aggregator of [extract_station_data], the charge-point
    extraction of [extract_chargepoints], the summary enricher and the
    flattened export of [process_and_export_data], and the orchestration
    of [run] around the notification collaborator.

    Python values are the values [json.loads] produces.  Numbers are the
    integers; a dict is an association list in insertion order; a raised
    exception is the left injection of a sum. *)

From stdpp Require Import base option list strings gmap sorting pretty.

Set Default Proof Using "Type".
Local Set Warnings "-register-all,-clear-no-such-hyp".
Local Open Scope Z_scope.

(** ** Python values *)

Inductive json : Type :=
| JNull
| JBool (b : bool)
| JNum (n : Z)
| JStr (s : string)
| JList (l : list json)
| JDict (d : list (string * json)).

Abbreviation dict := (list (string * json)).

Inductive exn : Type :=
| TypeError
| AttributeError
| KeyError (labels : list string)
| JSONDecodeError (msg : string)
| ApiException (msg : string)
| Exception (msg : string).

(** A raised exception is a left injection; [x ← m; k] stops at the first. *)
Global Instance exn_ret : MRet (sum exn) := λ A x, inr x.
Global Instance exn_bind : MBind (sum exn) := λ A B f m,
  match m with inl e => inl e | inr x => f x end.
Global Instance exn_fmap : FMap (sum exn) := λ A B f m,
  match m with inl e => inl e | inr x => inr (f x) end.

(** [bool(v)]: what [if v], [not v] and [a or b] test. *)
Definition truthy (v : json) : bool :=
  match v with
  | JNull => false
  | JBool b => b
  | JNum n => negb (n =? 0)
  | JStr s => negb (bool_decide (s = ""))
  | JList l => negb (bool_decide (l = []))
  | JDict d => negb (bool_decide (d = []))
  end.

(** [a or b] *)
Definition py_or (a b : json) : json := if truthy a then a else b.

Definition is_dict (v : json) : bool :=
  match v with JDict _ => true | _ => false end.

Module Dict.

(** [k in d] and [d[k]] *)
Fixpoint lookup (d : dict) (k : string) : option json :=
  match d with
  | [] => None
  | (k', v) :: d' => if decide (k' = k) then Some v else lookup d' k
  end.

Definition mem (d : dict) (k : string) : bool :=
  bool_decide (is_Some (lookup d k)).

(** [d.get(k)]: [None] when the key is missing. *)
Definition get (d : dict) (k : string) : json := default JNull (lookup d k).

(** [d[k] = v]: an existing key keeps its place, a new key goes last. *)
Fixpoint set (d : dict) (k : string) (v : json) : dict :=
  match d with
  | [] => [(k, v)]
  | (k', v') :: d' =>
      if decide (k' = k) then (k', v) :: d' else (k', v') :: set d' k v
  end.

(** [del d[k]] *)
Fixpoint del (d : dict) (k : string) : dict :=
  match d with
  | [] => []
  | (k', v') :: d' => if decide (k' = k) then d' else (k', v') :: del d' k
  end.

End Dict.

(** [needle in s] on two strings *)
Fixpoint str_contains (needle s : string) : bool :=
  String.prefix needle s ||
  match s with
  | EmptyString => false
  | String _ s' => str_contains needle s'
  end.

(** [for x in v]: the elements of a list, the keys of a dict, the characters
    of a string; anything else is not iterable. *)
Fixpoint chars (s : string) : list json :=
  match s with
  | EmptyString => []
  | String c s' => JStr (String c EmptyString) :: chars s'
  end.

Definition py_iter (v : json) : exn + list json :=
  match v with
  | JList l => inr l
  | JDict d => inr (JStr <$> d.*1)
  | JStr s => inr (chars s)
  | _ => inl TypeError
  end.

(** ['name' in v]: key test on a dict, element test on a list, substring test
    on a string. *)
Definition py_contains (name : string) (v : json) : exn + bool :=
  match v with
  | JDict d => inr (Dict.mem d name)
  | JList l =>
      inr (existsb (λ x, match x with JStr s => bool_decide (s = name) | _ => false end) l)
  | JStr s => inr (str_contains name s)
  | _ => inl TypeError
  end.

(** [v['name']]: only a dict can be indexed by a string. *)
Definition py_index (v : json) (name : string) : exn + json :=
  match v with
  | JDict d =>
      match Dict.lookup d name with
      | Some x => inr x
      | None => inl (KeyError [name])
      end
  | _ => inl TypeError
  end.

(** ** Dict keys

    Python hashes [True] and [1] to the same key; lists and dicts are not
    hashable. *)

Inductive key : Type :=
| KNone
| KInt (n : Z)
| KStr (s : string).

Global Instance key_eq_dec : EqDecision key.
Proof. solve_decision. Defined.

Definition hash_key (v : json) : exn + key :=
  match v with
  | JNull => inr KNone
  | JBool b => inr (KInt (if b then 1 else 0))
  | JNum n => inr (KInt n)
  | JStr s => inr (KStr s)
  | JList _ | JDict _ => inl TypeError
  end.

(** ** Station aggregator ([extract_station_data], the loop body)

    [all_stations_dict] maps a station identity to its record, in insertion
    order. *)

Abbreviation stations_dict := (list (key * dict)).

Module Stations.

Fixpoint lookup (m : stations_dict) (k : key) : option dict :=
  match m with
  | [] => None
  | (k', r) :: m' => if decide (k' = k) then Some r else lookup m' k
  end.

Fixpoint alter (f : dict → dict) (k : key) (m : stations_dict) : stations_dict :=
  match m with
  | [] => []
  | (k', r) :: m' =>
      if decide (k' = k) then (k', f r) :: m' else (k', r) :: alter f k m'
  end.

End Stations.

(** [all_stations_dict[station_id]['chargepoints'].append(cp)].  The loop
    body calls it on a key it has just looked up or stored, with a record
    whose [chargepoints] it has set to a list; the other branches are what
    Python would do on anything else. *)
Definition append_chargepoint (m : stations_dict) (k : key) (cp : json)
  : exn + stations_dict :=
  match Stations.lookup m k with
  | None => inl (KeyError [])
  | Some r =>
      match Dict.lookup r "chargepoints" with
      | Some (JList l) =>
          inr (Stations.alter (λ r, Dict.set r "chargepoints" (JList (l ++ [cp]))) k m)
      | Some _ => inl AttributeError
      | None => inl (KeyError ["chargepoints"])
      end
  end.

(** One pass of [for cp in json_data['props']['chargepoints']]: the
    [station] test, [station.get] (which needs a dict), the [continue] on an
    empty identity, the [not in] test (which hashes the identity) and the
    append. *)
Definition add_chargepoint (m : stations_dict) (cp : json) : exn + stations_dict :=
  match py_contains "station" cp with
  | inl e => inl e
  | inr false => inr m
  | inr true =>
      match py_index cp "station" with
      | inl e => inl e
      | inr (JDict station) =>
          let station_id :=
            py_or (Dict.get station "id") (Dict.get station "station_id") in
          if negb (truthy station_id) then inr m
          else
            match hash_key station_id with
            | inl e => inl e
            | inr k =>
                let m1 :=
                  match Stations.lookup m k with
                  | Some _ => m
                  | None => m ++ [(k, Dict.set station "chargepoints" (JList []))]
                  end in
                append_chargepoint m1 k cp
            end
      | inr _ => inl AttributeError
      end
  end.

(** The loop stops at the first exception; what earlier passes stored stays. *)
Fixpoint add_chargepoints (m : stations_dict) (cps : list json)
  : stations_dict * option exn :=
  match cps with
  | [] => (m, None)
  | cp :: rest =>
      match add_chargepoint m cp with
      | inl e => (m, Some e)
      | inr m' => add_chargepoints m' rest
      end
  end.

(** [list(all_stations_dict.values())] *)
Definition station_values (m : stations_dict) : list dict := m.*2.

(** The identity of a station sub-record: its [id], or else its [station_id],
    when that value is non-empty and hashable. *)
Definition station_identity (station : dict) : option key :=
  let v := py_or (Dict.get station "id") (Dict.get station "station_id") in
  if truthy v
  then match hash_key v with inr k => Some k | inl _ => None end
  else None.

(** The identity an entry references through its embedded [station]. *)
Definition entry_identity (cp : json) : option key :=
  match cp with
  | JDict d =>
      match Dict.lookup d "station" with
      | Some (JDict station) => station_identity station
      | _ => None
      end
  | _ => None
  end.

(** Identities in the order of their first appearance. *)
Fixpoint first_seen (ks : list key) : list key :=
  match ks with
  | [] => []
  | k :: ks' => k :: filter (λ k', k' ≠ k) (first_seen ks')
  end.

(** The entries of [es] that reference identity [k], in input order. *)
Definition referencing (k : key) (es : list json) : list json :=
  filter (λ e, entry_identity e = Some k) es.

(** The chargepoints list of a station record. *)
Definition chargepoints_of (r : dict) : option (list json) :=
  match Dict.lookup r "chargepoints" with
  | Some (JList l) => Some l
  | _ => None
  end.

(** ** Library functions the scraper calls

    Decompression, UTF-8 decoding, JSON parsing, URL unquoting and the [repr]
    of containers belong to Python's libraries; the scraper is modelled over
    any implementation of them.  [brotli_decompress] is [None] when the
    [brotli] import failed. *)

Class Libs := {
  gzip_decompress : list Byte.byte → exn + list Byte.byte;
  brotli_decompress : option (list Byte.byte → exn + list Byte.byte);
  utf8_decode : list Byte.byte → string;
  json_loads : string → exn + json;
  unquote : string → string;
  repr : json → string;
}.

(** [str(v)] *)
Definition py_str `{Libs} (v : json) : string :=
  match v with
  | JStr s => s
  | JNull => "None"
  | JBool true => "True"
  | JBool false => "False"
  | JNum n => pretty n
  | JList _ | JDict _ => repr v
  end.

(** ** Response decoder and the request loop of [extract_station_data] *)

Record response := Response {
  resp_content_type : option string;
  resp_body : list Byte.byte;
}.

Record request := Request {
  req_url : string;
  req_response : option response;
}.

Inductive log_entry : Type :=
| LogParseError (e : exn)     (* "Error parsing /evcs-locations JSON: {e}" *)
| LogDriverError (e : exn)    (* "Failed to initialize Edge WebDriver: {e}" *)
| LogApiError (e : exn)       (* "SendinBlue API error: {e}" *)
| LogEmailError (e : exn)     (* "Email notification error: {e}" *)
| LogText (msg : string).

Definition evcs_url : string := "https://evindustry.ph/evcs-locations".

Definition decode_body `{Libs} (raw_bytes : list Byte.byte) : string :=
  match gzip_decompress raw_bytes with
  | inr decompressed => utf8_decode decompressed
  | inl _ =>
      match brotli_decompress with
      | Some decompress =>
          match decompress raw_bytes with
          | inr decompressed => utf8_decode decompressed
          | inl _ => utf8_decode raw_bytes
          end
      | None => utf8_decode raw_bytes
      end
  end.

(** The guard of the request loop. *)
Definition json_response (req : request) : option response :=
  match req_response req with
  | Some resp =>
      if bool_decide (req_url req = evcs_url)
         && str_contains "application/json" (default "" (resp_content_type resp))
      then Some resp else None
  | None => None
  end.

(** The list the entry loop is to walk: [None] when the payload is not a
    dict with [props.chargepoints]; testing, indexing or iterating may raise. *)
Definition payload_entries (json_data : json) : exn + option (list json) :=
  match json_data with
  | JDict d =>
      match Dict.lookup d "props" with
      | None => inr None
      | Some props =>
          has ← py_contains "chargepoints" props;
          if has : bool
          then cps ← py_index props "chargepoints" ≫= py_iter; mret (Some cps)
          else mret None
      end
  | _ => inr None
  end.

(** What one parsed payload adds to the mapping, and the exception that cut
    it short, if any. *)
Definition process_payload (m : stations_dict) (json_data : json)
  : stations_dict * option exn :=
  match payload_entries json_data with
  | inl e => (m, Some e)
  | inr None => (m, None)
  | inr (Some cps) => add_chargepoints m cps
  end.

(** The body of [for request in self.driver.requests], with its
    [try ... except Exception]. *)
Definition process_request `{Libs} (st : stations_dict * list log_entry)
    (req : request) : stations_dict * list log_entry :=
  match json_response req with
  | None => st
  | Some resp =>
      match json_loads (decode_body (resp_body resp)) with
      | inl e => (st.1, st.2 ++ [LogParseError e])
      | inr json_data =>
          match process_payload st.1 json_data with
          | (m, None) => (m, st.2)
          | (m, Some e) => (m, st.2 ++ [LogParseError e])
          end
      end
  end.

Definition no_station_data : string := "No station data found!".

Definition extract_station_data `{Libs} (requests : list request)
    (error_log : list log_entry) : (exn + list dict) * list log_entry :=
  let st := foldl process_request ([], error_log) requests in
  match station_values st.1 with
  | [] => (inl (Exception no_station_data), st.2 ++ [LogText no_station_data])
  | all_stations => (inr all_stations, st.2)
  end.

(** ** [extract_chargepoints] *)

Definition direct_shape (first : json) : bool :=
  match first with
  | JDict d => Dict.mem d "mode" || Dict.mem d "id_or_serial_number"
  | _ => false
  end.

Definition nested_chargepoints (item : json) : list json :=
  match item with
  | JDict d =>
      match Dict.lookup d "chargepoints" with
      | Some (JList l) => l
      | _ => []
      end
  | _ => []
  end.

Definition extract_chargepoints (station : dict) : list json :=
  match Dict.get station "chargepoints" with
  | JList [] => []
  | JList (first :: rest) =>
      if direct_shape first then first :: rest
      else mjoin (nested_chargepoints <$> (first :: rest))
  | _ => []
  end.

(** ** Summary enricher (first loop of [process_and_export_data]) *)

Record summary := Summary {
  protocols : gset string;
  modes : gset string;
  equipments : gset string;
}.

(** [s.add(x)] *)
Definition set_add (s : gset string) (x : string) : gset string := {[ x ]} ∪ s.

(** [cp.get('id_or_serial_number') or cp.get('equipment') or cp.get('name')] *)
Definition equipment_of (cp : dict) : json :=
  py_or (py_or (Dict.get cp "id_or_serial_number") (Dict.get cp "equipment"))
        (Dict.get cp "name").

(** [cp.get('mode') or cp.get('evcs_mode')] *)
Definition mode_of (cp : dict) : json :=
  py_or (Dict.get cp "mode") (Dict.get cp "evcs_mode").

(** The body of [for cp in cps]; [cp.get] needs a dict. *)
Definition scan_chargepoint `{Libs} (acc : summary) (cp : json) : exn + summary :=
  match cp with
  | JDict d =>
      let protocol := Dict.get d "charging_protocol" in
      let protocols' :=
        match protocol with
        | JList ps => foldl (λ s p, set_add s (py_str p)) (protocols acc) ps
        | _ => if truthy protocol then set_add (protocols acc) (py_str protocol)
               else protocols acc
        end in
      let equipment := equipment_of d in
      let equipments' :=
        if truthy equipment then set_add (equipments acc) (py_str equipment)
        else equipments acc in
      let mode := mode_of d in
      let modes' :=
        if truthy mode then set_add (modes acc) (py_str mode) else modes acc in
      inr (Summary protocols' modes' equipments')
  | _ => inl AttributeError
  end.

Fixpoint scan_chargepoints `{Libs} (acc : summary) (cps : list json) : exn + summary :=
  match cps with
  | [] => inr acc
  | cp :: rest => acc' ← scan_chargepoint acc cp; scan_chargepoints acc' rest
  end.

(** [sorted(s)] on a set of strings: ascending code-point order, which on
    UTF-8 text is the byte order of [String.le]. *)
Definition sorted (s : gset string) : list string :=
  merge_sort String.le (elements s).

(** [sep.join(l)] *)
Fixpoint join (sep : string) (l : list string) : string :=
  match l with
  | [] => ""
  | [x] => x
  | x :: l' => x +:+ sep +:+ join sep l'
  end.

Definition comma_joined (s : gset string) : string := join ", " (sorted s).

Definition write_summary (station : dict) (acc : summary) : dict :=
  let station := Dict.set station "Charging Protocols" (JStr (comma_joined (protocols acc))) in
  let station := Dict.set station "EVCS Modes" (JStr (comma_joined (modes acc))) in
  let station := Dict.set station "Charging Equipments" (JStr (comma_joined (equipments acc))) in
  if Dict.mem station "chargepoints_summary" then Dict.del station "chargepoints_summary"
  else station.

Definition enrich_station `{Libs} (station : dict) : exn + dict :=
  acc ← scan_chargepoints (Summary ∅ ∅ ∅) (extract_chargepoints station);
  mret (write_summary station acc).

Definition enrich `{Libs} (stations_data : list dict) : exn + list dict :=
  mapM enrich_station stations_data.

(** ** Flattened projection (second half of [process_and_export_data]) *)

Definition flat_row (base : dict) (cp : json) : exn + dict :=
  match cp with
  | JDict d =>
      let row := Dict.set base "Charging Equipment" (equipment_of d) in
      let row := Dict.set row "Charging Protocol" (Dict.get d "charging_protocol") in
      let row := Dict.set row "EVCS mode" (mode_of d) in
      inr row
  | _ => inl AttributeError
  end.

Definition placeholder_row (base : dict) : dict :=
  let row := Dict.set base "Charging Equipment" (JStr "") in
  let row := Dict.set row "Charging Protocol" (JStr "") in
  Dict.set row "EVCS mode" (JStr "").

Definition station_rows (station : dict) : exn + list dict :=
  match extract_chargepoints station with
  | [] => inr [placeholder_row station]
  | cps => mapM (flat_row station) cps
  end.

Definition flat_rows (stations_data : list dict) : exn + list dict :=
  mjoin <$> mapM station_rows stations_data.

(** A pandas frame: its column labels and, per row, one cell per column.
    [None] is the missing cell (NaN).  [frame_of_rows] is [pd.DataFrame] on a
    list of dicts: the columns are the keys in the order they are first met.
    [select] is [df[labels]], which raises [KeyError] when a label is not a
    column. *)
Record DataFrame := Frame {
  columns : list string;
  records : list (list (string * option json));
}.

Definition discover (cols : list string) (row : dict) : list string :=
  foldl (λ cs k, if decide (k ∈ cs) then cs else cs ++ [k]) cols row.*1.

Definition frame_of_rows (rows : list dict) : DataFrame :=
  let cols := foldl discover [] rows in
  Frame cols ((λ row, (λ c, (c, Dict.lookup row c)) <$> cols) <$> rows).

Fixpoint cell (record : list (string * option json)) (c : string) : option json :=
  match record with
  | [] => None
  | (c', v) :: record' => if decide (c' = c) then v else cell record' c
  end.

Definition select (df : DataFrame) (labels : list string) : exn + DataFrame :=
  match filter (λ c, c ∉ columns df) labels with
  | [] => inr (Frame labels ((λ record, (λ c, (c, cell record c)) <$> labels) <$> records df))
  | missing => inl (KeyError missing)
  end.

Definition priority_cols : list string :=
  ["station_id"; "company_id"; "evcs_establishment_name";
   "Charging Protocol"; "Charging Equipment"; "EVCS mode"; "region"].

Definition reorder_columns (flat_df : DataFrame) : exn + DataFrame :=
  let other_cols := filter (λ col, col ∉ priority_cols) (columns flat_df) in
  select flat_df (priority_cols ++ other_cols).

(** [flat_df] as exported, from the enriched stations. *)
Definition flat_export (stations_data : list dict) : exn + DataFrame :=
  rows ← flat_rows stations_data; reorder_columns (frame_of_rows rows).

(** ** Run orchestrator

    [world] collects what the collaborators answer during one run: the
    browser session, the file system and the e-mail API. *)

Record email := Email {
  email_success : bool;
  email_stations_count : nat;
  email_chargepoints_count : nat;
  email_error_details : option exn;
  email_error_log : list log_entry;
  email_attachments : list string;
}.

Record world := World {
  driver_init : option exn;            (* [webdriver.Edge(...)] raising *)
  csrf_meta : option string;           (* the token read by [execute_script] *)
  cookies : list (string * string);
  requests : list request;             (* [self.driver.requests] *)
  clock : string;                      (* [now.strftime("%B_%d_%Y_%H_%M")] *)
  fs_write : string → option exn;      (* writing that file raising *)
  email_api_key : option string;       (* [os.getenv('EMAIL_API_KEY')] *)
  sendinblue_available : bool;
  email_dispatch : email → option exn; (* raised inside the [try] of
                                          [send_email_notification] *)
}.

(** The fields of [self], then what reached the collaborators. *)
Record scraper := Scraper {
  driver : bool;
  error_log : list log_entry;
  output_files : list string;
  outbox : list email;
  driver_quit : bool;
}.

Definition log (entry : log_entry) (s : scraper) : scraper :=
  Scraper (driver s) (error_log s ++ [entry]) (output_files s) (outbox s) (driver_quit s).

Definition add_output_files (files : list string) (s : scraper) : scraper :=
  Scraper (driver s) (error_log s) (output_files s ++ files) (outbox s) (driver_quit s).

(** Methods: a state transformer that returns or raises. *)
Definition method (A : Type) : Type := scraper → (exn + A) * scraper.

Global Instance method_ret : MRet method := λ A x s, (inr x, s).
Global Instance method_bind : MBind method := λ A B f m s,
  match m s with
  | (inl e, s') => (inl e, s')
  | (inr x, s') => f x s'
  end.

Definition raise {A} (e : exn) : method A := λ s, (inl e, s).
Definition lift {A} (r : exn + A) : method A := λ s, (r, s).
Definition modify (f : scraper → scraper) : method unit := λ s, (inr (), f s).

Definition write_file (w : world) (name : string) : method unit :=
  match fs_write w name with
  | Some e => raise e
  | None => mret ()
  end.

Definition setup_driver (w : world) : method unit :=
  match driver_init w with
  | Some e => modify (log (LogDriverError e));; raise e
  | None =>
      modify (λ s, Scraper true (error_log s) (output_files s) (outbox s) (driver_quit s))
  end.

Definition nonempty (token : option string) : bool :=
  match token with
  | Some t => negb (bool_decide (t = ""))
  | None => false
  end.

Definition find_csrf_token `{Libs} (w : world) : option string :=
  if nonempty (csrf_meta w) then csrf_meta w
  else
    match list_find (λ cookie, cookie.1 = "XSRF-TOKEN") (cookies w) with
    | Some (_, cookie) => Some (unquote cookie.2)
    | None => csrf_meta w
    end.

Definition csrf_not_found : string := "CSRF token not found!".

Definition extract_station_data_m `{Libs} (w : world) : method (list dict) := λ s,
  let r := extract_station_data (requests w) (error_log s) in
  (r.1, Scraper (driver s) r.2 (output_files s) (outbox s) (driver_quit s)).

Definition scrape_evcs_data `{Libs} (w : world) : method (list dict) :=
  if nonempty (find_csrf_token w) then extract_station_data_m w
  else modify (log (LogText csrf_not_found));; raise (Exception csrf_not_found).

Definition save_json_data (w : world) (stations_data : list dict)
  : method (string * string) :=
  let dt_str := clock w in
  let json_filename := "evcs_data_" +:+ dt_str +:+ ".json" in
  write_file w json_filename;;
  modify (add_output_files [json_filename]);;
  mret (json_filename, dt_str).

(** The enrichment loop, the aggregated export, the flattening loop and the
    flattened export.  Of the aggregated frame only the writing of its two
    files is kept: no property below reads its cells. *)
Definition process_and_export_data `{Libs} (w : world) (stations_data : list dict)
    (base_name : string) : method (nat * nat) :=
  stations_data ← lift (enrich stations_data);
  let excel_filename := base_name +:+ ".xlsx" in
  let csv_filename := base_name +:+ ".csv" in
  write_file w excel_filename;;
  write_file w csv_filename;;
  modify (add_output_files [excel_filename; csv_filename]);;
  flat_rows ← lift (flat_rows stations_data);
  flat_df ← lift (reorder_columns (frame_of_rows flat_rows));
  let flat_excel := base_name +:+ "_flat.xlsx" in
  let flat_csv := base_name +:+ "_flat.csv" in
  write_file w flat_excel;;
  write_file w flat_csv;;
  modify (add_output_files [flat_excel; flat_csv]);;
  mret (length stations_data, length flat_rows).

Definition email_configured (w : world) : bool :=
  nonempty (email_api_key w) && sendinblue_available w.

(** Everything after the guard sits in [try ... except ApiException ...
    except Exception]: the method returns in every case. *)
Definition send_email_notification (w : world) (success : bool)
    (stations_count chargepoints_count : nat) (error_details : option exn)
    (s : scraper) : scraper :=
  if negb (email_configured w) then s
  else
    let message :=
      Email success stations_count chargepoints_count error_details
            (error_log s) (output_files s) in
    match email_dispatch w message with
    | None =>
        Scraper (driver s) (error_log s) (output_files s) (outbox s ++ [message])
                (driver_quit s)
    | Some (ApiException msg) => log (LogApiError (ApiException msg)) s
    | Some e => log (LogEmailError e) s
    end.

Definition cleanup (s : scraper) : scraper :=
  if driver s
  then Scraper (driver s) (error_log s) (output_files s) (outbox s) true
  else s.

(** The [try] block of [run] up to the success notification. *)
Definition scrape_and_export `{Libs} (w : world) : method (nat * nat) :=
  setup_driver w;;
  stations_data ← scrape_evcs_data w;
  saved ← save_json_data w stations_data;
  process_and_export_data w stations_data ("evcs_data_" +:+ saved.2).

Definition new_scraper : scraper := Scraper false [] [] [] false.

(** [run]: the exit code and the final state. *)
Definition run `{Libs} (w : world) : Z * scraper :=
  match scrape_and_export w new_scraper with
  | (inr (stations_count, chargepoints_count), s) =>
      (0, cleanup (send_email_notification w true stations_count chargepoints_count None s))
  | (inl e, s) =>
      (1, cleanup (send_email_notification w false 0 0 (Some e) s))
  end.

(** ** Notions used to state the properties *)

(** What the mapping holds once the entries [es] have been processed. *)
Definition aggregated (es : list json) (m : stations_dict) : Prop :=
  m.*1 = first_seen (omap entry_identity es) ∧
  ∀ k r, Stations.lookup m k = Some r →
    station_identity r = Some k ∧ chargepoints_of r = Some (referencing k es).

(** What a request contributes: nothing when it does not pass the guard of
    the loop; the list [entries] when it passes and its body parses to a
    payload whose [props.chargepoints] is that list. *)
Definition delivers `{Libs} (req : request) (entries : list json) : Prop :=
  (json_response req = None ∧ entries = []) ∨
  ∃ resp d props,
    json_response req = Some resp ∧
    json_loads (decode_body (resp_body resp)) = inr (JDict d) ∧
    Dict.lookup d "props" = Some (JDict props) ∧
    Dict.lookup props "chargepoints" = Some (JList entries).

(** An instance of the libraries for examples: no body is compressed, bytes
    are read as they are, and the parser knows the texts of [parsed]. *)
Definition table_libs (parsed : list (string * json)) : Libs := {|
  gzip_decompress := λ _, inl (Exception "Not a gzipped file");
  brotli_decompress := None;
  utf8_decode := String.string_of_list_byte;
  json_loads := λ data,
    match list_find (λ p, p.1 = data) parsed with
    | Some (_, p) => inr p.2
    | None => inl (JSONDecodeError "Expecting value")
    end;
  unquote := λ s, s;
  repr := λ _, "[...]";
|}.

Definition json_request (body : string) : request :=
  Request evcs_url (Some (Response (Some "application/json; charset=utf-8")
                                   (String.list_byte_of_string body))).

(** The enricher in the words of its contract.  A protocol field is a list,
    of which every element counts, or a scalar, which counts when non-empty;
    equipment and mode are the first non-empty field of a fallback list.
    [gathered] collects the stringified values over the charge-points, and
    [sorted_set_of l values] says that [l] is [values] sorted and without
    duplicates. *)
Definition protocol_values `{Libs} (cp : dict) : list string :=
  match Dict.get cp "charging_protocol" with
  | JList ps => py_str <$> ps
  | p => if truthy p then [py_str p] else []
  end.

Definition first_non_empty `{Libs} (names : list string) (cp : dict) : list string :=
  match list_find (λ v, truthy v = true) (Dict.get cp <$> names) with
  | Some (_, v) => [py_str v]
  | None => []
  end.

Definition gathered (values : dict → list string) (cps : list json) : list string :=
  cps ≫= λ cp, match cp with JDict d => values d | _ => [] end.

Definition sorted_set_of (l values : list string) : Prop :=
  Sorted String.le l ∧ NoDup l ∧ ∀ s, s ∈ l ↔ s ∈ values.

(** The three derived strings of a station, as the enricher writes them. *)
Definition derived_strings `{Libs} (station : dict) : exn + (json * json * json) :=
  station' ← enrich_station station;
  mret (Dict.get station' "Charging Protocols", Dict.get station' "EVCS Modes",
        Dict.get station' "Charging Equipments").

(** The rows of one station: a placeholder when nothing is extracted, one row
    per extracted charge-point otherwise. *)
Definition rows_of_station (station : dict) (rows : list dict) : Prop :=
  length rows = Nat.max 1 (length (extract_chargepoints station)) ∧
  (extract_chargepoints station = [] → rows = [placeholder_row station]) ∧
  (extract_chargepoints station ≠ [] →
   Forall2 (λ cp row, flat_row station cp = inr row) (extract_chargepoints station) rows).

(** Decoding one response up to the entry loop: the body is decompressed and
    parsed and the payload's entry list is fetched. *)
Definition decode_response `{Libs} (resp : response) : exn + option (list json) :=
  json_loads (decode_body (resp_body resp)) ≫= payload_entries.

(** The same world with another e-mail collaborator. *)
Definition with_email (w : world) (api_key : option string) (available : bool)
    (dispatch : email → option exn) : world :=
  World (driver_init w) (csrf_meta w) (cookies w) (requests w) (clock w) (fs_write w)
        api_key available dispatch.

(** The three columns a flattened row adds to its station's fields, and the
    four priority columns that come from the station. *)
Definition chargepoint_cols : list string :=
  ["Charging Equipment"; "Charging Protocol"; "EVCS mode"].

Definition station_priority_cols : list string :=
  ["station_id"; "company_id"; "evcs_establishment_name"; "region"].

(** Sample data: two stations, one of them met on two pages. *)
Module Samples.

Definition station_S1 : dict :=
  [("id", JStr "S1"); ("evcs_establishment_name", JStr "Mall North")].

(** The same identity with another name, as a later entry may carry it. *)
Definition station_S1_renamed : dict :=
  [("id", JStr "S1"); ("evcs_establishment_name", JStr "Mall North Annex")].

Definition station_S2 : dict :=
  [("station_id", JNum 2); ("evcs_establishment_name", JStr "Depot")].

Definition cp_a : json :=
  JDict [("station", JDict station_S1); ("id_or_serial_number", JStr "EQ-1");
         ("charging_protocol", JStr "CCS"); ("mode", JStr "DC")].

Definition cp_b : json :=
  JDict [("station", JDict station_S2); ("id_or_serial_number", JStr "EQ-7");
         ("charging_protocol", JStr "Type2"); ("mode", JStr "AC")].

Definition cp_c : json :=
  JDict [("station", JDict station_S1_renamed); ("id_or_serial_number", JStr "EQ-2");
         ("charging_protocol", JList [JStr "CCS"; JStr "Type2"]); ("mode", JStr "DC")].

Definition station_S5 : dict :=
  [("region", JStr "NCR"); ("id", JNum 5); ("company_id", JNum 12);
   ("station_id", JNum 5); ("evcs_establishment_name", JStr "Harbour")].

Definition cp_f : json :=
  JDict [("station", JDict station_S5); ("mode", JStr "AC"); ("name", JStr "Unit 1")].

Definition payload (entries : list json) : json :=
  JDict [("props", JDict [("chargepoints", JList entries)])].

Definition libs : Libs :=
  table_libs [("page-1", payload [cp_a; cp_b]); ("page-2", payload [cp_c]);
              ("page-3", payload [cp_f])].

Definition pages : list request := [json_request "page-1"; json_request "page-2"].

(** A response whose body is not JSON. *)
Definition garbled : request := json_request "<html>502</html>".

(** A station whose two direct charge-point records name their equipment
    only under [equipment] and [name]. *)
Definition station_S3 : dict :=
  [("id", JStr "S3"); ("region", JStr "NCR");
   ("chargepoints",
    JList [JDict [("station", JDict [("id", JStr "S3")]); ("equipment", JStr "EQ-9");
                  ("charging_protocol", JStr "CCS")];
           JDict [("station", JDict [("id", JStr "S3")]); ("name", JStr "Unit 2");
                  ("evcs_mode", JStr "AC")]])].

(** The record of [S1] once both pages are aggregated. *)
Definition record_S1 : dict :=
  Dict.set station_S1 "chargepoints" (JList [cp_a; cp_c]).

(** Two entries for [S1] that carry a station and a protocol and nothing
    else, and the record the aggregator builds from them. *)
Definition bare_1 : json :=
  JDict [("station", JDict [("id", JStr "S1")]); ("charging_protocol", JStr "CCS")].

Definition bare_2 : json :=
  JDict [("station", JDict [("id", JStr "S1")]);
         ("charging_protocol", JList [JStr "CCS"; JStr "Type2"])].

Definition record_bare : dict :=
  [("id", JStr "S1"); ("chargepoints", JList [bare_1; bare_2])].

(** A station with two direct charge-point records, and the same station
    with the two records swapped. *)
Definition swap_1 : json :=
  JDict [("station", JDict [("id", JStr "S4")]); ("mode", JStr "AC");
         ("charging_protocol", JStr "CCS")].

Definition swap_2 : json :=
  JDict [("station", JDict [("id", JStr "S4")]); ("equipment", JStr "EQ-5");
         ("charging_protocol", JStr "Type2")].

Definition record_S4 : dict :=
  [("id", JStr "S4"); ("chargepoints", JList [swap_1; swap_2])].

Definition record_S4_swapped : dict :=
  [("id", JStr "S4"); ("chargepoints", JList [swap_2; swap_1])].

(** The record of a station with the four station-level priority fields,
    met in another order. *)
Definition record_S5 : dict :=
  Dict.set station_S5 "chargepoints" (JList [cp_f]).

Definition enriched (stations_raw : list dict) : list dict :=
  match enrich (H := libs) stations_raw with
  | inr stations_data => stations_data
  | inl _ => []
  end.

(** A run in which the page answers with nothing but a garbled response. *)
Definition quiet_world : world :=
  World None (Some "token") [] [garbled] "July_27_2025_08_00" (λ _, None)
        (Some "api-key") true (λ _, None).

(** A run that extracts station [S5], with an e-mail API that refuses
    every message. *)
Definition refusing_world : world :=
  World None (Some "token") [] [json_request "page-3"] "July_27_2025_08_00"
        (λ _, None) (Some "api-key") true (λ _, Some (ApiException "401")).

(** The mapping after the first page. *)
Definition mapping_1 : stations_dict := (add_chargepoints [] [cp_a; cp_b]).1.

End Samples.

(** ** Notions used to state further properties *)

(** An entry the loop passes over without storing it: it has no [station]
    (a dict without the key, a list without that element, a string without
    that substring), or its station has no non-empty [id] or [station_id]. *)
Definition unattributed (cp : json) : Prop :=
  py_contains "station" cp = inr false ∨
  ∃ d station,
    cp = JDict d ∧ Dict.lookup d "station" = Some (JDict station) ∧
    truthy (py_or (Dict.get station "id") (Dict.get station "station_id")) = false.

(** A mapping the aggregator can have built: the aggregation of some
    entries that all reference an identity. *)
Definition reachable (m : stations_dict) : Prop :=
  ∃ es, Forall (λ e, is_Some (entry_identity e)) es ∧ aggregated es m.

Definition parse_warning (entry : log_entry) : Prop :=
  ∃ e, entry = LogParseError e.

(** The three fields the enricher writes. *)
Definition summary_fields : list string :=
  ["Charging Protocols"; "EVCS Modes"; "Charging Equipments"].

(** The five files of a run, in the order in which they are written. *)
Definition manifest (w : world) : list string :=
  let base_name := "evcs_data_" +:+ clock w in
  ["evcs_data_" +:+ clock w +:+ ".json";
   base_name +:+ ".xlsx"; base_name +:+ ".csv";
   base_name +:+ "_flat.xlsx"; base_name +:+ "_flat.csv"].

(** A station one of whose extracted charge-points is not a dict. *)
Definition has_non_dict_chargepoint (station : dict) : Prop :=
  ¬ Forall (λ cp, is_dict cp = true) (extract_chargepoints station).

(** Further sample data. *)
Module MoreSamples.

Definition libs : Libs := Samples.libs.

(** Two pages of entries with a garbled response between them. *)
Definition three_responses : list request :=
  [json_request "page-1"; Samples.garbled; json_request "page-2"].

Definition enriched_S1 : dict :=
  match enrich_station (H := libs) Samples.record_S1 with
  | inr station => station
  | inl _ => []
  end.

(** A frame whose columns come in no particular order. *)
Definition shuffled_frame : DataFrame :=
  Frame ["region"; "EVCS mode"; "id"; "Charging Equipment"; "Charging Protocol";
         "evcs_establishment_name"; "company_id"; "station_id"]
        [[("region", Some (JStr "NCR")); ("EVCS mode", Some (JStr "AC")); ("id", Some (JNum 5));
          ("Charging Equipment", Some (JStr "Unit 1")); ("Charging Protocol", None);
          ("evcs_establishment_name", Some (JStr "Harbour")); ("company_id", Some (JNum 12));
          ("station_id", Some (JNum 5))]].

(** A run whose page carries no CSRF token at all. *)
Definition tokenless_world : world :=
  World None None [("session", "abc")] [json_request "page-3"] "July_27_2025_08_00"
        (λ _, None) None false (λ _, None).

Definition stations_of (reqs : list request) : list dict :=
  match (extract_station_data (H := libs) reqs []).1 with
  | inr all_stations => all_stations
  | inl _ => []
  end.

End MoreSamples.

(** ** The scroll loop of [scrape_evcs_data]

    [heights i] is [document.body.scrollHeight] as read after [i] scrolls;
    the loop is [for i in range(10)] with its [break].  The result is the
    number of scrolls done. *)
Fixpoint scroll_loop (heights : nat → Z) (budget i : nat) (last_height : Z) : nat :=
  match budget with
  | O => i
  | S budget' =>
      let new_height := heights (S i) in
      if bool_decide (new_height = last_height) then S i
      else scroll_loop heights budget' (S i) new_height
  end.

Definition scrolls (heights : nat → Z) : nat :=
  scroll_loop heights 10 0 (heights 0%nat).

(** * The scraper without request capture ([evcs_scraper_simple.py])

    This variant reads the stations from a [script] element of the page and
    exports sample stations when it finds none. *)

Module Simple.

(** [process_json_data]: the entry loop of the main scraper over
    [json_data["chargepoints"]], on a mapping of its own; an exception
    leaves the method. *)
Definition process_json_data (json_data : json) : exn + list dict :=
  has ← py_contains "chargepoints" json_data;
  if has : bool
  then
    cps ← py_index json_data "chargepoints" ≫= py_iter;
    match add_chargepoints [] cps with
    | (m, None) => inr (station_values m)
    | (_, Some e) => inl e
    end
  else inr (station_values []).

(** ** Text operations of [extract_data_from_page]

    Indices are integers as in Python, [-1] for a text that is not found;
    a character of the text is a character of the string. *)

Fixpoint str_drop (n : nat) (s : string) : string :=
  match n, s with
  | S n', String _ s' => str_drop n' s'
  | _, _ => s
  end.

Fixpoint str_take (n : nat) (s : string) : string :=
  match n, s with
  | S n', String c s' => String c (str_take n' s')
  | _, _ => EmptyString
  end.

(** The lowest position at which [sub] starts in [s]. *)
Fixpoint first_index (sub s : string) : option nat :=
  if String.prefix sub s then Some 0%nat
  else match s with
       | EmptyString => None
       | String _ s' => S <$> first_index sub s'
       end.

(** How a slice or a search reads an index of a text of length [len]. *)
Definition clamp (len i : Z) : Z :=
  if i <? 0 then Z.max 0 (len + i) else Z.min len i.

(** [s.find(sub, start)] *)
Definition find (s sub : string) (start : Z) : Z :=
  let len := Z.of_nat (String.length s) in
  if len <? start then -1
  else
    let a := clamp len start in
    match first_index sub (str_drop (Z.to_nat a) s) with
    | Some i => a + Z.of_nat i
    | None => -1
    end.

(** [s[start:stop]] *)
Definition slice (s : string) (start stop : Z) : string :=
  let len := Z.of_nat (String.length s) in
  let a := clamp len start in
  let b := clamp len stop in
  str_take (Z.to_nat (b - a)) (str_drop (Z.to_nat a) s).

Definition start_marker : string := "window.evcs_data = ".

(** The text handed to [json.loads]. *)
Definition json_str (script_content : string) : string :=
  let start_idx :=
    find script_content start_marker 0 + Z.of_nat (String.length start_marker) in
  let end_idx := find script_content ";" start_idx in
  slice script_content start_idx end_idx.

(** The inner [try] of the loop over the scripts: [Some stations] when it
    returns them, [None] when the loop goes on, be it for a missing marker,
    an exception or a payload that is no dict with [chargepoints]. *)
Definition script_data `{Libs} (script_content : string) : option (list dict) :=
  if str_contains start_marker script_content
  then
    match json_loads (json_str script_content) with
    | inr (JDict data) =>
        if Dict.mem data "chargepoints"
        then match process_json_data (JDict data) with
             | inr stations => Some stations
             | inl _ => None
             end
        else None
    | _ => None
    end
  else None.

(** The guard [script_content and "chargepoints" in script_content] on what
    [get_attribute] returned. *)
Definition mentions_chargepoints (script_content : option string) : bool :=
  nonempty script_content && str_contains "chargepoints" (default "" script_content).

(** The loop over the scripts.  An element is what [get_attribute] gives
    for it: an exception, [None] or the text.  An exception of the driver
    ends the method with no station. *)
Fixpoint scan_scripts `{Libs} (scripts : list (exn + option string)) : list dict :=
  match scripts with
  | [] => []
  | inl _ :: _ => []
  | inr script_content :: rest =>
      if mentions_chargepoints script_content
      then match script_data (default "" script_content) with
           | Some stations => stations
           | None => scan_scripts rest
           end
      else scan_scripts rest
  end.

(** [create_mock_data] *)
Definition create_mock_data : list dict :=
  [[("id", JStr "test_001"); ("station_id", JStr "test_001");
    ("evcs_establishment_name", JStr "Test EVCS Station 1");
    ("region", JStr "Test Region"); ("company_id", JStr "test_company");
    ("chargepoints",
     JList [JDict [("id_or_serial_number", JStr "TEST_CP_001");
                   ("charging_protocol", JStr "CCS"); ("mode", JStr "DC Fast")]])];
   [("id", JStr "test_002"); ("station_id", JStr "test_002");
    ("evcs_establishment_name", JStr "Test EVCS Station 2");
    ("region", JStr "Test Region"); ("company_id", JStr "test_company");
    ("chargepoints",
     JList [JDict [("id_or_serial_number", JStr "TEST_CP_002");
                   ("charging_protocol", JStr "Type 2"); ("mode", JStr "AC")]])]].

(** ** The run *)

Inductive browser : Type := Chrome | Edge.

Record email := Email {
  email_success : bool;
  email_stations_count : nat;
  email_error_details : option exn;
  email_attachments : list string;
}.

(** What the collaborators do in one run. *)
Record world := World {
  chrome_init : option exn;            (* [webdriver.Chrome(...)] raising *)
  edge_init : option exn;              (* [webdriver.Edge(...)] raising *)
  page_get : option exn;               (* [self.driver.get(url)] raising *)
  scroll : option exn;                 (* a scroll script raising *)
  scripts : exn + list (exn + option string);   (* [find_elements], then
                                          [get_attribute] on each element *)
  clock : string;
  fs_write : string → option exn;      (* writing that file raising *)
  file_exists : string → bool;         (* [os.path.exists] when the message is built *)
  email_api_key : option string;
  sendinblue_available : bool;
  email_dispatch : email → option exn; (* raised inside the [try] of
                                          [send_email_notification] *)
}.

(** The fields of [self], then what reached the collaborators: [disk] holds
    the files written, each with the stations it was written from. *)
Record scraper := Scraper {
  driver : option browser;
  error_log : list exn;                (* "Both Chrome and Edge WebDriver failed: {e}" *)
  output_files : list string;
  disk : list (string * list dict);
  outbox : list email;
  driver_quit : bool;
}.

Definition new_scraper : scraper := Scraper None [] [] [] [] false.

Definition setup_driver (w : world) (s : scraper) : option exn * scraper :=
  match chrome_init w with
  | None =>
      (None, Scraper (Some Chrome) (error_log s) (output_files s) (disk s) (outbox s)
                     (driver_quit s))
  | Some _ =>
      match edge_init w with
      | None =>
          (None, Scraper (Some Edge) (error_log s) (output_files s) (disk s) (outbox s)
                         (driver_quit s))
      | Some e =>
          (Some e, Scraper (driver s) (error_log s ++ [e]) (output_files s) (disk s)
                           (outbox s) (driver_quit s))
      end
  end.

Definition extract_data_from_page `{Libs} (w : world) : list dict :=
  match scripts w with
  | inl _ => []
  | inr elements => scan_scripts elements
  end.

(** The token is read and printed, an exception is printed: no station
    either way. *)
Definition try_api_call (w : world) : list dict := [].

Definition scrape_evcs_data `{Libs} (w : world) : exn + list dict :=
  match page_get w with
  | Some e => inl e
  | None =>
      match scroll w with
      | Some e => inl e
      | None =>
          let stations_data := extract_data_from_page w in
          let stations_data :=
            match stations_data with
            | [] => try_api_call w
            | _ => stations_data
            end in
          match stations_data with
          | [] => inl (Exception no_station_data)
          | _ => inr stations_data
          end
      end
  end.

Definition write_file (w : world) (name : string) (stations_data : list dict)
    (s : scraper) : option exn * scraper :=
  match fs_write w name with
  | Some e => (Some e, s)
  | None =>
      (None, Scraper (driver s) (error_log s) (output_files s)
                     (disk s ++ [(name, stations_data)]) (outbox s) (driver_quit s))
  end.

Definition add_output_files (files : list string) (s : scraper) : scraper :=
  Scraper (driver s) (error_log s) (output_files s ++ files) (disk s) (outbox s)
          (driver_quit s).

Definition save_json_data (w : world) (stations_data : list dict) (s : scraper)
  : (exn + string * string) * scraper :=
  let dt_str := clock w in
  let json_filename := "evcs_data_" +:+ dt_str +:+ ".json" in
  match write_file w json_filename stations_data s with
  | (Some e, s') => (inl e, s')
  | (None, s') => (inr (json_filename, dt_str), add_output_files [json_filename] s')
  end.

(** Both counts are [len(stations_data)].  Of the frame only the writing of
    its two files is kept. *)
Definition process_and_export_data (w : world) (stations_data : list dict)
    (base_name : string) (s : scraper) : (exn + nat * nat) * scraper :=
  let excel_filename := base_name +:+ ".xlsx" in
  let csv_filename := base_name +:+ ".csv" in
  match write_file w excel_filename stations_data s with
  | (Some e, s') => (inl e, s')
  | (None, s') =>
      match write_file w csv_filename stations_data s' with
      | (Some e, s'') => (inl e, s'')
      | (None, s'') =>
          (inr (length stations_data, length stations_data),
           add_output_files [excel_filename; csv_filename] s'')
      end
  end.

(** Everything after the guard sits in [try ... except Exception], whose
    handler only prints. *)
Definition send_email_notification (w : world) (success : bool)
    (stations_count chargepoints_count : nat) (error_details : option exn)
    (s : scraper) : scraper :=
  if negb (nonempty (email_api_key w)) || negb (sendinblue_available w) then s
  else
    let message :=
      Email success stations_count error_details
            (filter (λ file_path, file_exists w file_path = true) (output_files s)) in
    match email_dispatch w message with
    | None =>
        Scraper (driver s) (error_log s) (output_files s) (disk s)
                (outbox s ++ [message]) (driver_quit s)
    | Some _ => s
    end.

Definition cleanup (s : scraper) : scraper :=
  match driver s with
  | Some _ =>
      Scraper (driver s) (error_log s) (output_files s) (disk s) (outbox s) true
  | None => s
  end.

(** The stations the run goes on with: those of the page, or the sample
    stations when scraping raised. *)
Definition scraped_or_mock `{Libs} (w : world) : list dict :=
  match scrape_evcs_data w with
  | inr stations_data => stations_data
  | inl _ => create_mock_data
  end.

(** The [try] block of [run] up to the success notification. *)
Definition scrape_and_export `{Libs} (w : world) (s : scraper)
  : (exn + nat * nat) * scraper :=
  match setup_driver w s with
  | (Some e, s1) => (inl e, s1)
  | (None, s1) =>
      let stations_data := scraped_or_mock w in
      match save_json_data w stations_data s1 with
      | (inl e, s2) => (inl e, s2)
      | (inr (json_filename, dt_str), s2) =>
          process_and_export_data w stations_data ("evcs_data_" +:+ dt_str) s2
      end
  end.

(** [run]: the exit code and the final state. *)
Definition run `{Libs} (w : world) : Z * scraper :=
  match scrape_and_export w new_scraper with
  | (inr (stations_count, chargepoints_count), s) =>
      (0, cleanup (send_email_notification w true stations_count chargepoints_count None s))
  | (inl e, s) =>
      (1, cleanup (send_email_notification w false 0 0 (Some e) s))
  end.

(** The three files of a run, in the order in which they are written. *)
Definition manifest (w : world) : list string :=
  let base_name := "evcs_data_" +:+ clock w in
  ["evcs_data_" +:+ clock w +:+ ".json"; base_name +:+ ".xlsx"; base_name +:+ ".csv"].

(** A script the loop passes over. *)
Definition passed_over `{Libs} (element : exn + option string) : Prop :=
  ∃ script_content,
    element = inr script_content ∧
    (mentions_chargepoints script_content = false ∨
     script_data (default "" script_content) = None).

(** Sample data: a script that carries two entries, one whose statement is
    not closed by a semicolon, and a run in which Chrome does not start. *)
Definition sample_script : string :=
  "var map; window.evcs_data = {chargepoints: [a, b]}; boot();".

Definition bare_script : string :=
  "window.evcs_data = {chargepoints: []}".

Definition sample_libs : Libs :=
  table_libs [("{chargepoints: [a, b]}",
               JDict [("chargepoints", JList [Samples.cp_a; Samples.cp_b])])].

Definition sample_world (elements : list (exn + option string)) : world :=
  World (Some (Exception "chrome not reachable")) None None None (inr elements)
        "July_27_2025_08_00" (λ _, None) (λ _, true) (Some "api-key") true (λ _, None).

End Simple.

(** * Properties *)

(** ** Dicts and the station mapping *)

Module DictFacts.

Lemma lookup_set_eq d k v : Dict.lookup (Dict.set d k v) k = Some v.
Proof.
  induction d as [|[k' v'] d IH]; simpl.
  - by rewrite decide_True.
  - destruct (decide (k' = k)) as [->|Hne]; simpl.
    + by rewrite decide_True.
    + by rewrite decide_False.
Qed.

Lemma lookup_set_ne d k k' v :
  k ≠ k' → Dict.lookup (Dict.set d k v) k' = Dict.lookup d k'.
Proof.
  intros Hne. induction d as [|[k0 v0] d IH]; simpl.
  - by rewrite decide_False.
  - destruct (decide (k0 = k)) as [->|Hne0]; simpl.
    + by rewrite !decide_False.
    + destruct (decide (k0 = k')); [done|apply IH].
Qed.

Lemma get_set_ne d k k' v : k ≠ k' → Dict.get (Dict.set d k v) k' = Dict.get d k'.
Proof. intros. unfold Dict.get. by rewrite lookup_set_ne. Qed.

Lemma lookup_Some_keys d k v : Dict.lookup d k = Some v → k ∈ d.*1.
Proof.
  induction d as [|[k' v'] d IH]; simpl; [done|].
  destruct (decide (k' = k)) as [->|]; set_solver.
Qed.

Lemma lookup_None_keys d k : Dict.lookup d k = None ↔ k ∉ d.*1.
Proof.
  induction d as [|[k' v'] d IH]; simpl; [set_solver|].
  destruct (decide (k' = k)) as [->|]; set_solver.
Qed.

Lemma keys_set_present d k v : k ∈ d.*1 → (Dict.set d k v).*1 = d.*1.
Proof.
  induction d as [|[k' v'] d IH]; simpl; [set_solver|].
  destruct (decide (k' = k)) as [->|Hne]; simpl; [done|].
  intros Hin. f_equal. apply IH. set_solver.
Qed.

Lemma keys_set_absent d k v : k ∉ d.*1 → (Dict.set d k v).*1 = d.*1 ++ [k].
Proof.
  induction d as [|[k' v'] d IH]; simpl; [done|].
  destruct (decide (k' = k)) as [->|Hne]; simpl; [set_solver|].
  intros Hin. f_equal. apply IH. set_solver.
Qed.

Lemma mem_true d k : Dict.mem d k = true ↔ is_Some (Dict.lookup d k).
Proof. unfold Dict.mem. by rewrite bool_decide_eq_true. Qed.

Lemma mem_false d k : Dict.mem d k = false ↔ Dict.lookup d k = None.
Proof.
  unfold Dict.mem. rewrite bool_decide_eq_false, <- eq_None_not_Some. done.
Qed.

End DictFacts.

Module StationsFacts.

Lemma lookup_alter_eq f k m :
  Stations.lookup (Stations.alter f k m) k = f <$> Stations.lookup m k.
Proof.
  induction m as [|[k' r] m IH]; simpl; [done|].
  destruct (decide (k' = k)) as [->|Hne]; simpl.
  - by rewrite decide_True.
  - by rewrite decide_False.
Qed.

Lemma lookup_alter_ne f k k' m :
  k ≠ k' → Stations.lookup (Stations.alter f k m) k' = Stations.lookup m k'.
Proof.
  intros Hne. induction m as [|[k0 r] m IH]; simpl; [done|].
  destruct (decide (k0 = k)) as [->|Hne0]; simpl.
  - by rewrite !decide_False.
  - destruct (decide (k0 = k')); [done|apply IH].
Qed.

Lemma keys_alter f k m : (Stations.alter f k m).*1 = m.*1.
Proof.
  induction m as [|[k' r] m IH]; simpl; [done|].
  destruct (decide (k' = k)); simpl; by f_equal.
Qed.

Lemma lookup_None m k : Stations.lookup m k = None ↔ k ∉ m.*1.
Proof.
  induction m as [|[k' r] m IH]; simpl; [set_solver|].
  destruct (decide (k' = k)) as [->|]; set_solver.
Qed.

Lemma lookup_snoc m k k' r :
  Stations.lookup (m ++ [(k', r)]) k =
  match Stations.lookup m k with
  | Some r0 => Some r0
  | None => if decide (k' = k) then Some r else None
  end.
Proof.
  induction m as [|[k0 r0] m IH]; simpl; [done|].
  destruct (decide (k0 = k)); [done|apply IH].
Qed.

Lemma elem_of_lookup m k r :
  NoDup m.*1 → (k, r) ∈ m → Stations.lookup m k = Some r.
Proof.
  induction m as [|[k0 r0] m IH]; simpl; [set_solver|].
  rewrite NoDup_cons. intros [Hk0 Hnd] Hin.
  apply elem_of_cons in Hin as [[= -> ->]|Hin].
  - by rewrite decide_True.
  - rewrite decide_False; [by apply IH|].
    intros ->. apply Hk0. apply list_elem_of_fmap. by exists (k, r).
Qed.

End StationsFacts.

(** ** First-seen order *)

Lemma elem_of_first_seen k ks : k ∈ first_seen ks ↔ k ∈ ks.
Proof.
  induction ks as [|k0 ks IH]; simpl; [done|].
  rewrite !elem_of_cons, list_elem_of_filter, IH.
  destruct (decide (k = k0)); naive_solver.
Qed.

Lemma NoDup_first_seen ks : NoDup (first_seen ks).
Proof.
  induction ks as [|k0 ks IH]; simpl; [constructor|].
  apply NoDup_cons. split.
  - rewrite list_elem_of_filter. naive_solver.
  - by apply NoDup_filter.
Qed.

Lemma first_seen_snoc ks k :
  first_seen (ks ++ [k]) =
  if decide (k ∈ ks) then first_seen ks else first_seen ks ++ [k].
Proof.
  induction ks as [|k0 ks IH]; simpl; [done|].
  rewrite IH. destruct (decide (k ∈ ks)) as [Hin|Hnin].
  - rewrite decide_True by set_solver. done.
  - rewrite filter_app. simpl.
    destruct (decide (k = k0)) as [->|Hne].
    + rewrite decide_True by set_solver.
      rewrite filter_cons_False by naive_solver. simpl. by rewrite app_nil_r.
    + rewrite decide_False by set_solver.
      by rewrite filter_cons_True.
Qed.

Lemma omap_snoc {A B} (f : A → option B) l x :
  omap f (l ++ [x]) = omap f l ++ match f x with Some y => [y] | None => [] end.
Proof. rewrite omap_app. simpl. by destruct (f x). Qed.

(** ** Station aggregator *)

Section aggregator.

Lemma aggregated_nil : aggregated [] [].
Proof. split; [done|]. intros k r. done. Qed.

Lemma station_identity_set_chargepoints station v :
  station_identity (Dict.set station "chargepoints" v) = station_identity station.
Proof.
  unfold station_identity. by rewrite !DictFacts.get_set_ne.
Qed.

Lemma chargepoints_of_set r l :
  chargepoints_of (Dict.set r "chargepoints" (JList l)) = Some l.
Proof. unfold chargepoints_of. by rewrite DictFacts.lookup_set_eq. Qed.

Lemma referencing_snoc k es cp :
  referencing k (es ++ [cp]) =
  if decide (entry_identity cp = Some k) then referencing k es ++ [cp]
  else referencing k es.
Proof.
  unfold referencing. rewrite filter_app. simpl.
  destruct (decide (entry_identity cp = Some k)).
  - by rewrite filter_cons_True.
  - rewrite filter_cons_False by done. simpl. by rewrite app_nil_r.
Qed.

(** An entry with an identity passes every test of the loop body. *)
Lemma add_chargepoint_identified m cp k :
  entry_identity cp = Some k →
  ∃ d station,
    cp = JDict d ∧ Dict.lookup d "station" = Some (JDict station) ∧
    station_identity station = Some k ∧
    add_chargepoint m cp =
      append_chargepoint
        (match Stations.lookup m k with
         | Some _ => m
         | None => m ++ [(k, Dict.set station "chargepoints" (JList []))]
         end) k cp.
Proof.
  destruct cp as [| | | | |d]; simpl; try done.
  destruct (Dict.lookup d "station") as [[| | | | |station]|] eqn:Hst; try done.
  intros Hid. exists d, station. split_and!; try done.
  unfold add_chargepoint. simpl.
  assert (Dict.mem d "station" = true) as ->.
  { apply DictFacts.mem_true. by rewrite Hst. }
  rewrite Hst. revert Hid. unfold station_identity.
  destruct (truthy _); simpl; [|done].
  destruct (hash_key _); [done|]. by intros [= ->].
Qed.

Lemma referencing_unknown k es :
  k ∉ omap entry_identity es → referencing k es = [].
Proof.
  unfold referencing. induction es as [|e es IH]; simpl; [done|].
  destruct (entry_identity e) as [k'|] eqn:He; simpl.
  - rewrite not_elem_of_cons. intros [Hne Hnin].
    rewrite filter_cons_False by congruence. by apply IH.
  - intros Hnin. rewrite filter_cons_False by congruence. by apply IH.
Qed.

Lemma add_chargepoint_aggregated es m cp k :
  aggregated es m → entry_identity cp = Some k →
  ∃ m', add_chargepoint m cp = inr m' ∧ aggregated (es ++ [cp]) m'.
Proof.
  intros [Hkeys Hrec] Hid.
  destruct (add_chargepoint_identified m cp k Hid)
    as (d & station & -> & Hst & Hsid & ->).
  unfold append_chargepoint.
  destruct (Stations.lookup m k) as [r|] eqn:Hk.
  - (* the identity is known *)
    rewrite Hk. destruct (Hrec k r Hk) as [Hrid Hcps].
    unfold chargepoints_of in Hcps.
    destruct (Dict.lookup r "chargepoints") as [[| | | |l|]|]; try done.
    injection Hcps as ->. eexists; split; [done|]. split.
    + rewrite StationsFacts.keys_alter, Hkeys, omap_snoc, Hid.
      rewrite first_seen_snoc, decide_True; [done|].
      apply elem_of_first_seen. rewrite <- Hkeys.
      apply dec_stable. intros Hn. apply StationsFacts.lookup_None in Hn. congruence.
    + intros k' r'. destruct (decide (k = k')) as [<-|Hne].
      * rewrite StationsFacts.lookup_alter_eq, Hk. simpl. intros [= <-].
        rewrite station_identity_set_chargepoints, chargepoints_of_set.
        rewrite referencing_snoc, decide_True by done. done.
      * rewrite StationsFacts.lookup_alter_ne by done. intros Hk'.
        rewrite referencing_snoc, decide_False by congruence. by apply Hrec.
  - (* first appearance *)
    assert (k ∉ omap entry_identity es) as Hnew.
    { rewrite <- elem_of_first_seen, <- Hkeys. by apply StationsFacts.lookup_None. }
    rewrite StationsFacts.lookup_snoc, Hk, decide_True by done.
    rewrite DictFacts.lookup_set_eq. simpl.
    eexists; split; [done|]. split.
    + rewrite StationsFacts.keys_alter, fmap_app, Hkeys, omap_snoc, Hid.
      by rewrite first_seen_snoc, decide_False.
    + intros k' r'. destruct (decide (k = k')) as [<-|Hne].
      * rewrite StationsFacts.lookup_alter_eq, StationsFacts.lookup_snoc, Hk.
        rewrite decide_True by done. simpl. intros [= <-].
        rewrite station_identity_set_chargepoints, chargepoints_of_set.
        rewrite station_identity_set_chargepoints.
        rewrite referencing_snoc, decide_True by done.
        by rewrite referencing_unknown.
      * rewrite StationsFacts.lookup_alter_ne, StationsFacts.lookup_snoc by done.
        rewrite decide_False by done. intros Hk'.
        rewrite referencing_snoc, decide_False by congruence.
        destruct (Stations.lookup m k') eqn:Hm; [|done]. apply Hrec. congruence.
Qed.

Lemma add_chargepoints_aggregated es m cps :
  aggregated es m → Forall (λ e, is_Some (entry_identity e)) cps →
  ∃ m', add_chargepoints m cps = (m', None) ∧ aggregated (es ++ cps) m'.
Proof.
  intros Hagg Hall. revert es m Hagg.
  induction Hall as [|cp cps [k Hid] _ IH]; intros es m Hagg; simpl.
  - exists m. by rewrite app_nil_r.
  - destruct (add_chargepoint_aggregated es m cp k Hagg Hid) as (m' & -> & Hagg').
    destruct (IH _ _ Hagg') as (m'' & -> & Hagg'').
    exists m''. by rewrite <- app_assoc in Hagg''.
Qed.

End aggregator.

Section extraction.
Context `{Libs}.

Lemma process_payload_delivered m d props entries :
  Dict.lookup d "props" = Some (JDict props) →
  Dict.lookup props "chargepoints" = Some (JList entries) →
  process_payload m (JDict d) = add_chargepoints m entries.
Proof.
  intros Hp Hc. unfold process_payload, payload_entries. rewrite Hp. simpl.
  assert (Dict.mem props "chargepoints" = true) as ->.
  { apply DictFacts.mem_true. by rewrite Hc. }
  by rewrite Hc.
Qed.

Lemma process_request_aggregated es m log0 req entries :
  aggregated es m → delivers req entries →
  Forall (λ e, is_Some (entry_identity e)) entries →
  ∃ m', process_request (m, log0) req = (m', log0) ∧ aggregated (es ++ entries) m'.
Proof.
  intros Hagg [[Hreq ->]|(resp & d & props & Hreq & Hjson & Hp & Hc)] Hall.
  { exists m. unfold process_request. by rewrite Hreq, app_nil_r. }
  destruct (add_chargepoints_aggregated es m entries Hagg Hall) as (m' & Hm' & Hagg').
  exists m'. split; [|done].
  unfold process_request. rewrite Hreq, Hjson. cbn [fst snd].
  by rewrite (process_payload_delivered _ _ _ _ Hp Hc), Hm'.
Qed.

Lemma extract_loop_aggregated es m log0 reqs ess :
  aggregated es m → Forall2 delivers reqs ess →
  Forall (λ e, is_Some (entry_identity e)) (mjoin ess) →
  ∃ m', foldl process_request (m, log0) reqs = (m', log0) ∧
        aggregated (es ++ mjoin ess) m'.
Proof.
  intros Hagg Hdel. revert es m Hagg.
  induction Hdel as [|req entries reqs ess Hreq _ IH]; intros es m Hagg; simpl.
  - intros _. exists m. by rewrite app_nil_r.
  - rewrite Forall_app. intros [Hall1 Hall2].
    destruct (process_request_aggregated es m log0 req entries Hagg Hreq Hall1)
      as (m' & -> & Hagg').
    destruct (IH _ _ Hagg' Hall2) as (m'' & -> & Hagg'').
    exists m''. by rewrite <- app_assoc in Hagg''.
Qed.

Lemma aggregated_values es m :
  aggregated es m →
  Forall2 (λ k station, station_identity station = Some k ∧
                        chargepoints_of station = Some (referencing k es))
          (first_seen (omap entry_identity es)) (station_values m).
Proof.
  intros [Hkeys Hrec]. rewrite <- Hkeys. unfold station_values.
  apply Forall2_fmap, Forall_Forall2_diag, Forall_forall.
  intros [k r] Hin. apply Hrec. apply StationsFacts.elem_of_lookup; [|done].
  rewrite Hkeys. apply NoDup_first_seen.
Qed.

End extraction.

(** C1. For requests that the loop ignores or whose payloads carry entries
    that all reference a station identity, and that carry at least one entry
    together, [extract_station_data] returns one station record per
    distinct identity, in the order in which the identities are first seen;
    the record carries that identity and its [chargepoints] list is exactly
    the entries that reference the identity, in input order (so its length is
    their number). *)
Theorem aggregator_one_record_per_identity `{Libs}
    (reqs : list request) (ess : list (list json)) (log0 : list log_entry) :
  Forall2 delivers reqs ess →
  Forall (λ e, is_Some (entry_identity e)) (mjoin ess) →
  mjoin ess ≠ [] →
  ∃ all_stations,
    extract_station_data reqs log0 = (inr all_stations, log0) ∧
    NoDup (first_seen (omap entry_identity (mjoin ess))) ∧
    (∀ e, e ∈ mjoin ess →
       ∃ k, entry_identity e = Some k ∧
            k ∈ first_seen (omap entry_identity (mjoin ess))) ∧
    Forall2 (λ k station,
               station_identity station = Some k ∧
               chargepoints_of station = Some (referencing k (mjoin ess)) ∧
               ∀ l, chargepoints_of station = Some l →
                    length l = length (referencing k (mjoin ess)))
            (first_seen (omap entry_identity (mjoin ess))) all_stations.
Proof.
  intros Hdel Hall Hne.
  destruct (extract_loop_aggregated [] [] log0 reqs ess aggregated_nil Hdel Hall)
    as (m & Hloop & Hagg).
  simpl in Hagg. pose proof (aggregated_values _ _ Hagg) as Hvals.
  assert (∀ e, e ∈ mjoin ess →
            ∃ k, entry_identity e = Some k ∧
                 k ∈ first_seen (omap entry_identity (mjoin ess))) as Hcover.
  { intros e He. rewrite Forall_forall in Hall. destruct (Hall e He) as [k Hk].
    exists k. split; [done|]. apply elem_of_first_seen, list_elem_of_omap. eauto. }
  exists (station_values m). split_and!.
  - unfold extract_station_data. rewrite Hloop. cbn [fst snd].
    destruct (station_values m) eqn:Hm; [|done].
    destruct (mjoin ess) as [|e es] eqn:Hes; [done|].
    destruct (Hcover e) as (k & _ & Hk); [set_solver|].
    apply Forall2_nil_inv_r in Hvals. rewrite Hvals in Hk. set_solver.
  - apply NoDup_first_seen.
  - done.
  - eapply Forall2_impl; [done|]. intros k station [Hid Hcps].
    split_and!; [done..|]. intros l. rewrite Hcps. by intros [= <-].
Qed.

Lemma aggregator_one_record_per_identity_witness :
  ∃ all_stations,
    extract_station_data (H := Samples.libs) Samples.pages [] = (inr all_stations, []) ∧
    length all_stations = 2%nat.
Proof.
  destruct (aggregator_one_record_per_identity (H := Samples.libs) Samples.pages
              [[Samples.cp_a; Samples.cp_b]; [Samples.cp_c]] [])
    as (all_stations & Hrun & _ & _ & Hall).
  - unfold Samples.pages.
    repeat (apply List.Forall2_cons;
            [right; do 3 eexists; split_and!; reflexivity|]).
    apply Forall2_nil_2.
  - repeat constructor; by eexists.
  - done.
  - exists all_stations. split; [done|].
    apply Forall2_length in Hall. by rewrite <- Hall.
Defined.

(** C10. When the identity of an entry is already in the mapping, processing
    the entry appends it to the stored record's [chargepoints] list and
    changes nothing else: the mapping keeps its keys and its other records,
    the stored record keeps its keys and the value of every other field,
    whatever the entry's own [station] sub-record says. *)
Theorem known_identity_only_appends
    (m : stations_dict) (cp : json) (k : key) (r : dict) (l : list json) :
  entry_identity cp = Some k →
  Stations.lookup m k = Some r →
  chargepoints_of r = Some l →
  ∃ m' r',
    add_chargepoint m cp = inr m' ∧
    m'.*1 = m.*1 ∧
    Stations.lookup m' k = Some r' ∧
    (∀ k', k' ≠ k → Stations.lookup m' k' = Stations.lookup m k') ∧
    chargepoints_of r' = Some (l ++ [cp]) ∧
    r'.*1 = r.*1 ∧
    (∀ field, field ≠ "chargepoints" → Dict.lookup r' field = Dict.lookup r field).
Proof.
  intros Hid Hk Hcps.
  destruct (add_chargepoint_identified m cp k Hid) as (d & station & -> & _ & _ & ->).
  rewrite Hk. unfold append_chargepoint. rewrite Hk.
  unfold chargepoints_of in Hcps.
  destruct (Dict.lookup r "chargepoints") as [[| | | |l'|]|] eqn:Hl; try done.
  injection Hcps as ->.
  eexists _, (Dict.set r "chargepoints" (JList (l ++ [JDict d]))). split_and!.
  - done.
  - apply StationsFacts.keys_alter.
  - by rewrite StationsFacts.lookup_alter_eq, Hk.
  - intros k' Hne. by apply StationsFacts.lookup_alter_ne.
  - apply chargepoints_of_set.
  - apply DictFacts.keys_set_present. by eapply DictFacts.lookup_Some_keys.
  - intros field Hne. by apply DictFacts.lookup_set_ne.
Qed.

Lemma known_identity_only_appends_witness :
  ∃ m' r',
    add_chargepoint Samples.mapping_1 Samples.cp_c = inr m' ∧
    Stations.lookup m' (KStr "S1") = Some r' ∧
    Dict.lookup r' "evcs_establishment_name" = Some (JStr "Mall North") ∧
    chargepoints_of r' = Some [Samples.cp_a; Samples.cp_c].
Proof.
  destruct (known_identity_only_appends Samples.mapping_1 Samples.cp_c (KStr "S1")
              (Dict.set Samples.station_S1 "chargepoints" (JList [Samples.cp_a]))
              [Samples.cp_a])
    as (m' & r' & Hstep & _ & Hk & _ & Hcps & _ & Hframe); [reflexivity..|].
  exists m', r'. split_and!; [done..| |done].
  by rewrite Hframe.
Defined.

(** ** Charge-point extraction and the enricher *)

Lemma lookup_del_ne d k k' :
  k ≠ k' → Dict.lookup (Dict.del d k) k' = Dict.lookup d k'.
Proof.
  intros Hne. induction d as [|[k0 v0] d IH]; simpl; [done|].
  destruct (decide (k0 = k)) as [->|Hne0]; simpl.
  - by rewrite decide_False.
  - destruct (decide (k0 = k')); [done|apply IH].
Qed.

Lemma comma_joined_empty : comma_joined ∅ = "".
Proof. unfold comma_joined, sorted. by rewrite elements_empty. Qed.

Section enricher.
Context `{Libs}.

(** The summary leaves every field but its own three and
    [chargepoints_summary] as it was. *)
Lemma lookup_write_summary_other station acc field :
  field ∉ ["Charging Protocols"; "EVCS Modes"; "Charging Equipments";
           "chargepoints_summary"] →
  Dict.lookup (write_summary station acc) field = Dict.lookup station field.
Proof.
  intros Hf. unfold write_summary.
  assert (∀ d, Dict.lookup
            (if Dict.mem d "chargepoints_summary"
             then Dict.del d "chargepoints_summary" else d) field
          = Dict.lookup d field) as ->.
  { intros d. destruct (Dict.mem d _); [|done]. apply lookup_del_ne. set_solver. }
  rewrite !DictFacts.lookup_set_ne; [done|set_solver..].
Qed.

Lemma lookup_write_summary station acc :
  Dict.lookup (write_summary station acc) "Charging Protocols"
    = Some (JStr (comma_joined (protocols acc))) ∧
  Dict.lookup (write_summary station acc) "EVCS Modes"
    = Some (JStr (comma_joined (modes acc))) ∧
  Dict.lookup (write_summary station acc) "Charging Equipments"
    = Some (JStr (comma_joined (equipments acc))).
Proof.
  unfold write_summary.
  assert (∀ d field, field ≠ "chargepoints_summary" →
            Dict.lookup
              (if Dict.mem d "chargepoints_summary"
               then Dict.del d "chargepoints_summary" else d) field
            = Dict.lookup d field) as Hdel.
  { intros d field Hne. destruct (Dict.mem d _); [|done]. by apply lookup_del_ne. }
  rewrite !Hdel by done. split_and!.
  - by rewrite 2!DictFacts.lookup_set_ne, DictFacts.lookup_set_eq by done.
  - by rewrite DictFacts.lookup_set_ne, DictFacts.lookup_set_eq by done.
  - by rewrite DictFacts.lookup_set_eq.
Qed.

Lemma extract_chargepoints_write_summary station acc :
  extract_chargepoints (write_summary station acc) = extract_chargepoints station.
Proof.
  unfold extract_chargepoints, Dict.get.
  rewrite lookup_write_summary_other; [done|set_solver].
Qed.

End enricher.

Lemma elem_of_nested_chargepoints x items :
  x ∈ mjoin (nested_chargepoints <$> items) ↔
  ∃ d l, JDict d ∈ items ∧ Dict.lookup d "chargepoints" = Some (JList l) ∧ x ∈ l.
Proof.
  rewrite list_elem_of_join. split.
  - intros (l & Hx & Hl). apply list_elem_of_fmap in Hl as (item & -> & Hitem).
    destruct item as [| | | | |d]; simpl in Hx; try by apply elem_of_nil in Hx.
    destruct (Dict.lookup d "chargepoints") as [[| | | |l|]|] eqn:Hd;
      try by apply elem_of_nil in Hx.
    eauto.
  - intros (d & l & Hd & Hl & Hx). exists l. split; [done|].
    apply list_elem_of_fmap. exists (JDict d). simpl. by rewrite Hl.
Qed.

Lemma direct_shape_true first :
  direct_shape first = true ↔
  ∃ d, first = JDict d ∧
       (is_Some (Dict.lookup d "mode") ∨ is_Some (Dict.lookup d "id_or_serial_number")).
Proof.
  destruct first as [| | | | |d]; simpl;
    try (split; [done|by intros (d & [=] & _)]).
  rewrite orb_true_iff, !DictFacts.mem_true. split.
  - intros Hd. by exists d.
  - by intros (d' & [= <-] & Hd).
Qed.

(** C9. [extract_chargepoints] looks at the first element only.  A missing,
    empty or non-list [chargepoints] value gives the empty list.  When the
    first element is a dict with a [mode] or [id_or_serial_number] key the
    whole list is returned.  Otherwise the result is what the nested
    [chargepoints] lists of the elements hold; for direct records (dicts
    without a nested [chargepoints]) that is nothing, the three summary
    fields are empty and the station gets the single placeholder row. *)
Theorem extract_chargepoints_first_element `{Libs} (station : dict) :
  ((∀ cps, Dict.get station "chargepoints" ≠ JList cps) ∨
   Dict.get station "chargepoints" = JList [] →
   extract_chargepoints station = []) ∧
  (∀ first rest,
     Dict.get station "chargepoints" = JList (first :: rest) →
     ((∃ d, first = JDict d ∧
            (is_Some (Dict.lookup d "mode") ∨
             is_Some (Dict.lookup d "id_or_serial_number"))) →
      extract_chargepoints station = first :: rest) ∧
     (¬ (∃ d, first = JDict d ∧
              (is_Some (Dict.lookup d "mode") ∨
               is_Some (Dict.lookup d "id_or_serial_number"))) →
      (∀ x, x ∈ extract_chargepoints station ↔
            ∃ d l, JDict d ∈ first :: rest ∧
                   Dict.lookup d "chargepoints" = Some (JList l) ∧ x ∈ l) ∧
      (Forall (λ cp, ∃ d, cp = JDict d ∧ Dict.lookup d "chargepoints" = None)
              (first :: rest) →
       extract_chargepoints station = [] ∧
       ∃ station',
         enrich_station station = inr station' ∧
         Dict.lookup station' "Charging Protocols" = Some (JStr "") ∧
         Dict.lookup station' "EVCS Modes" = Some (JStr "") ∧
         Dict.lookup station' "Charging Equipments" = Some (JStr "") ∧
         station_rows station' = inr [placeholder_row station']))).
Proof.
  split.
  - unfold extract_chargepoints. intros [Hnl| ->]; [|done].
    destruct (Dict.get station "chargepoints") as [| | | |cps|]; try done.
    by destruct (Hnl cps).
  - intros first rest Hcps. split.
    + intros Hd. apply direct_shape_true in Hd.
      unfold extract_chargepoints. by rewrite Hcps, Hd.
    + intros Hd. rewrite <- direct_shape_true, not_true_iff_false in Hd.
      assert (extract_chargepoints station
              = mjoin (nested_chargepoints <$> first :: rest)) as Hex.
      { unfold extract_chargepoints. by rewrite Hcps, Hd. }
      split.
      * intros x. rewrite Hex. apply elem_of_nested_chargepoints.
      * intros Hbare.
        assert (extract_chargepoints station = []) as Hnil.
        { rewrite Hex. apply elem_of_nil_inv. intros x.
          rewrite elem_of_nested_chargepoints. intros (d & l & Hin & Hl & _).
          rewrite Forall_forall in Hbare.
          destruct (Hbare _ Hin) as (d' & [= <-] & Hnone). congruence. }
        split; [done|].
        exists (write_summary station (Summary ∅ ∅ ∅)).
        destruct (lookup_write_summary station (Summary ∅ ∅ ∅)) as (Hp & Hm & He).
        simpl in Hp, Hm, He. rewrite comma_joined_empty in Hp, Hm, He.
        split_and!; try done.
        -- unfold enrich_station. by rewrite Hnil.
        -- unfold station_rows.
           by rewrite extract_chargepoints_write_summary, Hnil.
Qed.

Lemma extract_chargepoints_first_element_witness :
  extract_chargepoints Samples.station_S3 = [] ∧
  ∃ station',
    enrich_station (H := Samples.libs) Samples.station_S3 = inr station' ∧
    Dict.lookup station' "Charging Equipments" = Some (JStr "") ∧
    station_rows station' = inr [placeholder_row station'].
Proof.
  destruct (extract_chargepoints_first_element (H := Samples.libs) Samples.station_S3)
    as [_ Hlist].
  destruct (Hlist _ _ eq_refl) as [_ Hwrapped].
  destruct Hwrapped as [_ Hbare].
  - intros (d & [= <-] & [[v Hv]|[v Hv]]); discriminate Hv.
  - destruct Hbare as (Hnil & station' & Hen & _ & _ & Heq & Hrows).
    + repeat constructor; by eexists.
    + split; [done|]. by exists station'.
Defined.

Lemma sorted_set_of_sorted (S : gset string) (values : list string) :
  S = list_to_set values → sorted_set_of (sorted S) values.
Proof.
  intros ->. unfold sorted, sorted_set_of. split_and!.
  - apply Sorted_merge_sort. apply _.
  - rewrite merge_sort_Permutation. apply NoDup_elements.
  - intros s. rewrite merge_sort_Permutation, elem_of_elements. set_solver.
Qed.

Section enricher_sets.
Context `{Libs}.

Lemma add_protocols (S : gset string) ps :
  foldl (λ s p, set_add s (py_str p)) S ps = S ∪ list_to_set (py_str <$> ps).
Proof.
  revert S. induction ps as [|p ps IH]; intros S; simpl.
  - set_solver.
  - rewrite IH. unfold set_add. set_solver.
Qed.

Lemma equipment_first_non_empty d :
  (if truthy (equipment_of d) then [py_str (equipment_of d)] else [])
  = first_non_empty ["id_or_serial_number"; "equipment"; "name"] d.
Proof.
  unfold equipment_of, first_non_empty, py_or. simpl.
  repeat match goal with
         | |- context [truthy (Dict.get d ?k)] =>
             let E := fresh "E" in
             destruct (truthy (Dict.get d k)) eqn:E; simpl; rewrite ?E; simpl
         end; done.
Qed.

Lemma mode_first_non_empty d :
  (if truthy (mode_of d) then [py_str (mode_of d)] else [])
  = first_non_empty ["mode"; "evcs_mode"] d.
Proof.
  unfold mode_of, first_non_empty, py_or. simpl.
  repeat match goal with
         | |- context [truthy (Dict.get d ?k)] =>
             let E := fresh "E" in
             destruct (truthy (Dict.get d k)) eqn:E; simpl; rewrite ?E; simpl
         end; done.
Qed.

(** One pass of the loop adds the charge-point's values to the three sets. *)
Lemma scan_chargepoint_dict acc d :
  scan_chargepoint acc (JDict d) =
  inr (Summary
         (protocols acc ∪ list_to_set (protocol_values d))
         (modes acc ∪ list_to_set (first_non_empty ["mode"; "evcs_mode"] d))
         (equipments acc ∪
            list_to_set (first_non_empty ["id_or_serial_number"; "equipment"; "name"] d))).
Proof.
  unfold scan_chargepoint.
  rewrite <- equipment_first_non_empty, <- mode_first_non_empty.
  f_equal. f_equal.
  - unfold protocol_values.
    destruct (Dict.get d "charging_protocol") as [|b|n|s|ps|dd] eqn:Hp;
      rewrite ?add_protocols; try done;
      (destruct (truthy _); unfold set_add; set_solver).
  - destruct (truthy (mode_of d)); unfold set_add; set_solver.
  - destruct (truthy (equipment_of d)); unfold set_add; set_solver.
Qed.

Lemma scan_chargepoints_dicts acc cps :
  Forall (λ cp, is_dict cp = true) cps →
  scan_chargepoints acc cps =
  inr (Summary
         (protocols acc ∪ list_to_set (gathered protocol_values cps))
         (modes acc ∪ list_to_set (gathered (first_non_empty ["mode"; "evcs_mode"]) cps))
         (equipments acc ∪
            list_to_set
              (gathered (first_non_empty ["id_or_serial_number"; "equipment"; "name"]) cps))).
Proof.
  intros Hall. revert acc.
  induction Hall as [|cp cps Hcp _ IH]; intros acc.
  - simpl. destruct acc. f_equal. f_equal; set_solver.
  - destruct cp as [| | | | |d]; try done.
    cbn [scan_chargepoints]. rewrite scan_chargepoint_dict. simpl.
    rewrite IH. simpl. unfold gathered. simpl.
    f_equal. f_equal; rewrite list_to_set_app_L; set_solver.
Qed.

Lemma scan_chargepoints_not_dicts acc cps :
  ¬ Forall (λ cp, is_dict cp = true) cps →
  scan_chargepoints acc cps = inl AttributeError.
Proof.
  revert acc. induction cps as [|cp cps IH]; intros acc Hn.
  - destruct Hn. constructor.
  - destruct cp as [| | | | |d]; try done.
    cbn [scan_chargepoints]. rewrite scan_chargepoint_dict. simpl.
    apply IH. intros Hall. apply Hn. by constructor.
Qed.

End enricher_sets.

Section enricher_fields.
Context `{Libs}.

Lemma enrich_station_dicts station :
  Forall (λ cp, is_dict cp = true) (extract_chargepoints station) →
  enrich_station station =
  inr (write_summary station
         (Summary
            (list_to_set (gathered protocol_values (extract_chargepoints station)))
            (list_to_set (gathered (first_non_empty ["mode"; "evcs_mode"])
                                   (extract_chargepoints station)))
            (list_to_set
               (gathered (first_non_empty ["id_or_serial_number"; "equipment"; "name"])
                         (extract_chargepoints station))))).
Proof.
  intros Hall. unfold enrich_station.
  rewrite scan_chargepoints_dicts by done. simpl.
  do 3 f_equal; set_solver.
Qed.

Lemma enrich_station_not_dicts station :
  ¬ Forall (λ cp, is_dict cp = true) (extract_chargepoints station) →
  enrich_station station = inl AttributeError.
Proof.
  intros Hn. unfold enrich_station. by rewrite scan_chargepoints_not_dicts.
Qed.

End enricher_fields.

(** C5, amended.  The values are gathered from the charge-points that
    [extract_chargepoints] returns.  When these are all dicts the enricher
    writes three fields, each the comma-join of the sorted, duplicate-free
    list of the stringified values: every element of a list-valued protocol,
    a non-empty scalar protocol, the first non-empty equipment and mode field.
    Otherwise it raises.  For a station whose first charge-point has a [mode]
    or [id_or_serial_number] key and protocol ["CCS"], and whose second has
    protocol [["CCS","Type2"]], [Charging Protocols] is ["CCS, Type2"]. *)
Theorem enricher_sorted_joined_sets `{Libs} :
  (∀ station,
     Forall (λ cp, is_dict cp = true) (extract_chargepoints station) →
     ∃ station' ps ms es,
       enrich_station station = inr station' ∧
       Dict.lookup station' "Charging Protocols" = Some (JStr (join ", " ps)) ∧
       Dict.lookup station' "EVCS Modes" = Some (JStr (join ", " ms)) ∧
       Dict.lookup station' "Charging Equipments" = Some (JStr (join ", " es)) ∧
       sorted_set_of ps (gathered protocol_values (extract_chargepoints station)) ∧
       sorted_set_of ms (gathered (first_non_empty ["mode"; "evcs_mode"])
                                  (extract_chargepoints station)) ∧
       sorted_set_of es
         (gathered (first_non_empty ["id_or_serial_number"; "equipment"; "name"])
                   (extract_chargepoints station))) ∧
  (∀ station,
     ¬ Forall (λ cp, is_dict cp = true) (extract_chargepoints station) →
     enrich_station station = inl AttributeError) ∧
  (∀ station d1 d2,
     Dict.get station "chargepoints" = JList [JDict d1; JDict d2] →
     is_Some (Dict.lookup d1 "mode") ∨ is_Some (Dict.lookup d1 "id_or_serial_number") →
     Dict.get d1 "charging_protocol" = JStr "CCS" →
     Dict.get d2 "charging_protocol" = JList [JStr "CCS"; JStr "Type2"] →
     ∃ station',
       enrich_station station = inr station' ∧
       Dict.lookup station' "Charging Protocols" = Some (JStr "CCS, Type2")).
Proof.
  split_and!.
  - intros station Hall. rewrite (enrich_station_dicts station Hall).
    eexists _, _, _, _. split; [done|].
    destruct (lookup_write_summary station
      (Summary
         (list_to_set (gathered protocol_values (extract_chargepoints station)))
         (list_to_set (gathered (first_non_empty ["mode"; "evcs_mode"])
                                (extract_chargepoints station)))
         (list_to_set
            (gathered (first_non_empty ["id_or_serial_number"; "equipment"; "name"])
                      (extract_chargepoints station))))) as (Hp & Hm & He).
    split_and!; [exact Hp|exact Hm|exact He|..]; by apply sorted_set_of_sorted.
  - apply @enrich_station_not_dicts.
  - intros station d1 d2 Hcps Hd1 Hp1 Hp2.
    assert (extract_chargepoints station = [JDict d1; JDict d2]) as Hex.
    { unfold extract_chargepoints. rewrite Hcps.
      assert (direct_shape (JDict d1) = true) as ->; [|done].
      apply direct_shape_true. eauto. }
    rewrite enrich_station_dicts by (rewrite Hex; by repeat constructor).
    eexists. split; [done|].
    match goal with |- Dict.lookup (write_summary _ ?acc) _ = _ =>
      destruct (lookup_write_summary station acc) as (-> & _ & _) end.
    rewrite Hex. cbn [protocols gathered mbind list_bind foldr app].
    unfold protocol_values. rewrite Hp1, Hp2. by vm_compute.
Qed.

Lemma enricher_sorted_joined_sets_witness :
  ∃ station',
    enrich_station (H := Samples.libs) Samples.record_S1 = inr station' ∧
    Dict.lookup station' "Charging Protocols" = Some (JStr "CCS, Type2").
Proof.
  destruct (enricher_sorted_joined_sets (H := Samples.libs)) as (_ & _ & Hexample).
  apply (Hexample Samples.record_S1 _ _ eq_refl).
  - right. by eexists.
  - reflexivity.
  - reflexivity.
Defined.

Lemma enricher_scenario_counterexample :
  add_chargepoints [] [Samples.bare_1; Samples.bare_2]
    = ([(KStr "S1", Samples.record_bare)], None) ∧
  derived_strings (H := Samples.libs) Samples.record_bare
    = inr (JStr "", JStr "", JStr "") ∧
  derived_strings (H := Samples.libs) Samples.record_bare
    ≠ inr (JStr "CCS, Type2", JStr "", JStr "").
Proof. split_and!; [by vm_compute..|]. by vm_compute. Qed.

Section enricher_order.
Context `{Libs}.

Lemma derived_strings_dicts station :
  Forall (λ cp, is_dict cp = true) (extract_chargepoints station) →
  derived_strings station =
  inr (JStr (comma_joined
               (list_to_set (gathered protocol_values (extract_chargepoints station)))),
       JStr (comma_joined
               (list_to_set (gathered (first_non_empty ["mode"; "evcs_mode"])
                                      (extract_chargepoints station)))),
       JStr (comma_joined
               (list_to_set
                  (gathered (first_non_empty ["id_or_serial_number"; "equipment"; "name"])
                            (extract_chargepoints station))))).
Proof.
  intros Hall. unfold derived_strings. rewrite enrich_station_dicts by done.
  simpl. unfold Dict.get.
  match goal with |- context [write_summary _ ?acc] =>
    destruct (lookup_write_summary station acc) as (-> & -> & ->) end.
  done.
Qed.

(** The derived strings depend on the extracted charge-points only, and
    not on their order. *)
Lemma derived_strings_extracted station1 station2 :
  extract_chargepoints station1 ≡ₚ extract_chargepoints station2 →
  derived_strings station1 = derived_strings station2.
Proof.
  intros Hperm.
  destruct (decide (Forall (λ cp, is_dict cp = true) (extract_chargepoints station1)))
    as [Hall|Hn].
  - assert (∀ values,
              list_to_set (C := gset string)
                (gathered values (extract_chargepoints station1))
              = list_to_set (gathered values (extract_chargepoints station2)))
      as Hsets.
    { intros values. apply list_to_set_perm_L. by apply bind_Permutation. }
    rewrite !derived_strings_dicts by (by rewrite <- ?Hperm).
    by rewrite !Hsets.
  - unfold derived_strings.
    rewrite !enrich_station_not_dicts by (by rewrite <- ?Hperm). done.
Qed.

Lemma extract_chargepoints_permuted station1 station2 l1 l2 :
  Dict.get station1 "chargepoints" = JList l1 →
  Dict.get station2 "chargepoints" = JList l2 →
  l1 ≡ₚ l2 →
  direct_shape <$> head l1 = direct_shape <$> head l2 →
  extract_chargepoints station1 ≡ₚ extract_chargepoints station2.
Proof.
  intros H1 H2 Hperm Hhead. unfold extract_chargepoints. rewrite H1, H2.
  destruct l1 as [|f1 r1], l2 as [|f2 r2]; try done.
  simpl in Hhead. injection Hhead as ->.
  destruct (direct_shape f2); [done|]. by rewrite Hperm.
Qed.

End enricher_order.

(** C3, amended.  Enriching an enriched record again gives the same three
    derived strings.  Two records whose [chargepoints] lists are permutations
    of each other get the same three strings (or both raise) when the shape
    test of [extract_chargepoints] answers the same on the first element of
    both lists. *)
Theorem enricher_idempotent_and_order_independent `{Libs} :
  (∀ station station',
     enrich_station station = inr station' →
     derived_strings station' = derived_strings station) ∧
  (∀ station1 station2 l1 l2,
     Dict.get station1 "chargepoints" = JList l1 →
     Dict.get station2 "chargepoints" = JList l2 →
     l1 ≡ₚ l2 →
     direct_shape <$> head l1 = direct_shape <$> head l2 →
     derived_strings station1 = derived_strings station2).
Proof.
  split.
  - intros station station'. unfold enrich_station.
    destruct (scan_chargepoints _ _) as [e|acc]; simpl; [done|].
    intros [= <-]. apply derived_strings_extracted.
    by rewrite extract_chargepoints_write_summary.
  - intros station1 station2 l1 l2 H1 H2 Hperm Hhead.
    by eapply derived_strings_extracted, extract_chargepoints_permuted.
Qed.

Lemma enricher_idempotent_and_order_independent_witness :
  derived_strings (H := Samples.libs)
    (Dict.set Samples.station_S1 "chargepoints" (JList [Samples.cp_c; Samples.cp_a]))
  = derived_strings (H := Samples.libs) Samples.record_S1.
Proof.
  destruct (enricher_idempotent_and_order_independent (H := Samples.libs)) as [_ Horder].
  apply (Horder
           (Dict.set Samples.station_S1 "chargepoints" (JList [Samples.cp_c; Samples.cp_a]))
           Samples.record_S1 [Samples.cp_c; Samples.cp_a] [Samples.cp_a; Samples.cp_c]).
  - reflexivity.
  - reflexivity.
  - apply perm_swap.
  - reflexivity.
Defined.

Lemma enricher_order_counterexample :
  [Samples.swap_1; Samples.swap_2] ≡ₚ [Samples.swap_2; Samples.swap_1] ∧
  derived_strings (H := Samples.libs) Samples.record_S4
    = inr (JStr "CCS, Type2", JStr "AC", JStr "EQ-5") ∧
  derived_strings (H := Samples.libs) Samples.record_S4_swapped
    = inr (JStr "", JStr "", JStr "").
Proof. split_and!; [apply perm_swap|by vm_compute..]. Qed.

(** ** Flattened projection *)

Lemma mapM_inr {A B} (f : A → exn + B) (l : list A) :
  Forall (λ x, ∃ y, f x = inr y) l →
  ∃ k, mapM f l = inr k ∧ Forall2 (λ x y, f x = inr y) l k.
Proof.
  induction 1 as [|x l [y Hy] _ (k & Hk & Hall)]; simpl.
  - by exists [].
  - exists (y :: k). rewrite Hy, Hk. split; [done|]. by constructor.
Qed.

Lemma placeholder_row_fields base :
  Dict.lookup (placeholder_row base) "Charging Equipment" = Some (JStr "") ∧
  Dict.lookup (placeholder_row base) "Charging Protocol" = Some (JStr "") ∧
  Dict.lookup (placeholder_row base) "EVCS mode" = Some (JStr "").
Proof.
  unfold placeholder_row. split_and!.
  - by rewrite 2!DictFacts.lookup_set_ne, DictFacts.lookup_set_eq by done.
  - by rewrite DictFacts.lookup_set_ne, DictFacts.lookup_set_eq by done.
  - by rewrite DictFacts.lookup_set_eq.
Qed.

Lemma station_rows_dicts station :
  Forall (λ cp, is_dict cp = true) (extract_chargepoints station) →
  ∃ rows, station_rows station = inr rows ∧ rows_of_station station rows.
Proof.
  intros Hall. unfold station_rows, rows_of_station.
  destruct (extract_chargepoints station) as [|cp cps] eqn:Hex.
  - exists [placeholder_row station]. by split_and!.
  - destruct (mapM_inr (flat_row station) (cp :: cps)) as (rows & Hrows & Hall2).
    { eapply Forall_impl; [done|]. intros [| | | | |d] Hd; try done.
      by eexists. }
    exists rows. split; [done|]. split_and!; [|done..].
    apply Forall2_length in Hall2. rewrite <- Hall2. simpl. lia.
Qed.

Lemma flat_rows_dicts stations_data :
  Forall (λ station, Forall (λ cp, is_dict cp = true) (extract_chargepoints station))
         stations_data →
  ∃ per_station,
    flat_rows stations_data = inr (mjoin per_station) ∧
    Forall2 rows_of_station stations_data per_station.
Proof.
  intros Hall.
  assert (∃ per_station, mapM station_rows stations_data = inr per_station ∧
                         Forall2 rows_of_station stations_data per_station)
    as (per_station & Hmap & Hrows).
  { induction Hall as [|station rest Hst _ (per_station & Hmap & Hrows)]; simpl.
    - by exists [].
    - destruct (station_rows_dicts station Hst) as (rows & -> & Hr).
      exists (rows :: per_station). rewrite Hmap. split; [done|]. by constructor. }
  exists per_station. unfold flat_rows. by rewrite Hmap.
Qed.

Lemma length_rows_of_stations stations_data per_station :
  Forall2 rows_of_station stations_data per_station →
  length (mjoin per_station) =
  sum_list ((λ station, Nat.max 1 (length (extract_chargepoints station)))
              <$> stations_data).
Proof.
  induction 1 as [|station rows stations_data per_station [Hlen _] _ IH]; simpl.
  - done.
  - by rewrite length_app, Hlen, IH.
Qed.

Section enriched.
Context `{Libs}.

(** What is extracted from an enriched station is a list of dicts. *)
Lemma enrich_station_extracted station station' :
  enrich_station station = inr station' →
  Forall (λ cp, is_dict cp = true) (extract_chargepoints station').
Proof.
  intros Hen.
  destruct (decide (Forall (λ cp, is_dict cp = true) (extract_chargepoints station)))
    as [Hall|Hn].
  - rewrite enrich_station_dicts in Hen by done. injection Hen as <-.
    by rewrite extract_chargepoints_write_summary.
  - by rewrite enrich_station_not_dicts in Hen.
Qed.

Lemma enrich_extracted stations_raw stations_data :
  enrich stations_raw = inr stations_data →
  Forall (λ station, Forall (λ cp, is_dict cp = true) (extract_chargepoints station))
         stations_data.
Proof.
  unfold enrich. revert stations_data.
  induction stations_raw as [|station rest IH]; intros stations_data; simpl.
  - intros [= <-]. constructor.
  - destruct (enrich_station station) as [e|station'] eqn:Hst; simpl; [done|].
    destruct (mapM enrich_station rest) as [e|rest'] eqn:Hrest; simpl; [done|].
    intros [= <-]. constructor; [by eapply enrich_station_extracted|by apply IH].
Qed.

End enriched.

Lemma length_records_select df labels df' :
  select df labels = inr df' → length (records df') = length (records df).
Proof.
  unfold select. destruct (filter _ labels); [|done].
  intros [= <-]. simpl. by rewrite length_fmap.
Qed.

(** C4. From the enriched stations the flattened projection is built for
    every station in turn: one row per charge-point that
    [extract_chargepoints] returns for it, and one placeholder row, whose
    three charge-point fields are empty strings, when it returns none.  The
    number of rows is the sum over the stations of [max 1] of that number, and
    so is the number of records of the exported frame. *)
Theorem flat_rows_one_per_chargepoint `{Libs} (stations_raw stations_data : list dict) :
  enrich stations_raw = inr stations_data →
  ∃ per_station,
    flat_rows stations_data = inr (mjoin per_station) ∧
    length (mjoin per_station) =
      sum_list ((λ station, Nat.max 1 (length (extract_chargepoints station)))
                  <$> stations_data) ∧
    Forall2 (λ station rows,
               length rows = Nat.max 1 (length (extract_chargepoints station)) ∧
               (extract_chargepoints station = [] →
                ∃ row, rows = [row] ∧
                       Dict.lookup row "Charging Equipment" = Some (JStr "") ∧
                       Dict.lookup row "Charging Protocol" = Some (JStr "") ∧
                       Dict.lookup row "EVCS mode" = Some (JStr "")) ∧
               (extract_chargepoints station ≠ [] →
                Forall2 (λ cp row, flat_row station cp = inr row)
                        (extract_chargepoints station) rows))
            stations_data per_station ∧
    (∀ flat_df, flat_export stations_data = inr flat_df →
                length (records flat_df) = length (mjoin per_station)).
Proof.
  intros Hen. apply enrich_extracted in Hen.
  destruct (flat_rows_dicts stations_data Hen) as (per_station & Hflat & Hrows).
  exists per_station. split_and!.
  - done.
  - by apply length_rows_of_stations.
  - eapply Forall2_impl; [done|]. intros station rows (Hlen & Hnone & Hsome).
    split_and!; [done| |done].
    intros Hnil. exists (placeholder_row station). split; [by apply Hnone|].
    apply placeholder_row_fields.
  - intros flat_df. unfold flat_export. rewrite Hflat. simpl.
    unfold reorder_columns. intros Hsel.
    apply length_records_select in Hsel. rewrite Hsel. simpl.
    by rewrite length_fmap.
Qed.

Lemma flat_rows_one_per_chargepoint_witness :
  ∃ per_station,
    flat_rows (Samples.enriched [Samples.record_S1; Samples.station_S3])
      = inr (mjoin per_station) ∧
    length (mjoin per_station) = 3%nat.
Proof.
  destruct (flat_rows_one_per_chargepoint (H := Samples.libs)
              [Samples.record_S1; Samples.station_S3]
              (Samples.enriched [Samples.record_S1; Samples.station_S3]))
    as (per_station & Hflat & Hlen & _).
  - by vm_compute.
  - exists per_station. split; [done|]. by rewrite Hlen.
Defined.

(** ** Column order of the flattened export *)

Lemma keys_set d k v c : c ∈ (Dict.set d k v).*1 ↔ c = k ∨ c ∈ d.*1.
Proof.
  destruct (decide (k ∈ d.*1)) as [Hin|Hnin].
  - rewrite DictFacts.keys_set_present by done. naive_solver.
  - rewrite DictFacts.keys_set_absent by done. set_solver.
Qed.

Lemma placeholder_row_keys base c :
  c ∈ (placeholder_row base).*1 ↔ c ∈ base.*1 ∨ c ∈ chargepoint_cols.
Proof. unfold placeholder_row, chargepoint_cols. rewrite !keys_set. set_solver. Qed.

Lemma flat_row_keys base cp row c :
  flat_row base cp = inr row → c ∈ row.*1 ↔ c ∈ base.*1 ∨ c ∈ chargepoint_cols.
Proof.
  destruct cp as [| | | | |d]; try done. simpl. intros [= <-].
  unfold chargepoint_cols. rewrite !keys_set. set_solver.
Qed.

Lemma rows_of_station_keys station rows row c :
  rows_of_station station rows → row ∈ rows →
  c ∈ row.*1 ↔ c ∈ station.*1 ∨ c ∈ chargepoint_cols.
Proof.
  intros (_ & Hnone & Hsome) Hrow.
  destruct (extract_chargepoints station) as [|cp cps] eqn:Hex.
  - rewrite Hnone in Hrow by done. apply list_elem_of_singleton in Hrow as ->.
    apply placeholder_row_keys.
  - apply list_elem_of_lookup in Hrow as [i Hi].
    destruct (Forall2_lookup_r _ _ _ _ _ (Hsome ltac:(done)) Hi) as (cp' & _ & Hcp).
    by eapply flat_row_keys.
Qed.

Lemma rows_of_station_nonempty station rows :
  rows_of_station station rows → ∃ row, row ∈ rows.
Proof.
  intros (Hlen & _). destruct rows as [|row rows]; simpl in Hlen; [lia|].
  exists row. set_solver.
Qed.

Lemma elem_of_discover cols row c :
  c ∈ discover cols row ↔ c ∈ cols ∨ c ∈ row.*1.
Proof.
  unfold discover. generalize (row.*1). intros ks. revert cols.
  induction ks as [|k ks IH]; intros cols; simpl; [set_solver|].
  rewrite IH. case_decide; set_solver.
Qed.

Lemma elem_of_discovered cols rows c :
  c ∈ foldl discover cols rows ↔ c ∈ cols ∨ ∃ row, row ∈ rows ∧ c ∈ row.*1.
Proof.
  revert cols. induction rows as [|row rows IH]; intros cols; simpl.
  - set_solver.
  - rewrite IH, elem_of_discover. set_solver.
Qed.

Lemma cell_fmap (f : string → option json) cols c :
  c ∈ cols → cell ((λ c, (c, f c)) <$> cols) c = f c.
Proof.
  induction cols as [|c0 cols IH]; simpl; [set_solver|].
  intros Hin. destruct (decide (c0 = c)) as [->|Hne]; [done|].
  apply IH. set_solver.
Qed.

Lemma select_present df labels :
  (∀ c, c ∈ labels → c ∈ columns df) →
  select df labels =
  inr (Frame labels ((λ record, (λ c, (c, cell record c)) <$> labels) <$> records df)).
Proof.
  intros Hall. unfold select.
  assert (filter (λ c, c ∉ columns df) labels = []) as ->; [|done].
  apply elem_of_nil_inv. intros c. rewrite list_elem_of_filter. naive_solver.
Qed.

Lemma fst_labelled {A} (f : string → A) (labels : list string) :
  ((λ c, (c, f c)) <$> labels).*1 = labels.
Proof. induction labels as [|c labels IH]; simpl; by f_equal. Qed.

Lemma elem_of_priority_cols c :
  c ∈ priority_cols ↔ c ∈ station_priority_cols ∨ c ∈ chargepoint_cols.
Proof.
  unfold priority_cols, station_priority_cols, chargepoint_cols.
  rewrite !elem_of_cons, !elem_of_nil. naive_solver.
Qed.

(** C2, amended.  When each of [station_id], [company_id],
    [evcs_establishment_name] and [region] is a key of at least one enriched
    station, the flattened export succeeds; its columns are the seven
    priority columns in their fixed order, whatever the order of the keys in
    the stations, followed by the other columns in the order in which the
    frame discovered them; the columns are exactly the keys met in the rows,
    and a row without a column has the missing cell there. *)
Theorem flat_export_priority_columns `{Libs} (stations_raw stations_data : list dict) :
  enrich stations_raw = inr stations_data →
  (∀ c, c ∈ station_priority_cols → ∃ station, station ∈ stations_data ∧ c ∈ station.*1) →
  ∃ rows flat_df,
    flat_rows stations_data = inr rows ∧
    flat_export stations_data = inr flat_df ∧
    columns flat_df =
      priority_cols ++ filter (λ col, col ∉ priority_cols) (columns (frame_of_rows rows)) ∧
    take 7 (columns flat_df) =
      ["station_id"; "company_id"; "evcs_establishment_name";
       "Charging Protocol"; "Charging Equipment"; "EVCS mode"; "region"] ∧
    (∀ c, c ∈ columns flat_df ↔ ∃ row, row ∈ rows ∧ c ∈ row.*1) ∧
    Forall2 (λ row record,
               record.*1 = columns flat_df ∧
               ∀ c, c ∈ columns flat_df → cell record c = Dict.lookup row c)
            rows (records flat_df).
Proof.
  intros Hen Hcols. apply enrich_extracted in Hen.
  destruct (flat_rows_dicts stations_data Hen) as (per_station & Hflat & Hrows).
  set (rows := mjoin per_station) in *.
  set (cols := columns (frame_of_rows rows)).
  set (labels := priority_cols ++ filter (λ col, col ∉ priority_cols) cols).
  assert (∀ c, c ∈ cols ↔ ∃ row, row ∈ rows ∧ c ∈ row.*1) as Hdisc.
  { intros c. unfold cols. simpl. rewrite elem_of_discovered. set_solver. }
  assert (∀ station, station ∈ stations_data →
            ∃ row, row ∈ rows ∧
                   ∀ c, c ∈ row.*1 ↔ c ∈ station.*1 ∨ c ∈ chargepoint_cols) as Hrow.
  { intros station [i Hi]%list_elem_of_lookup.
    destruct (Forall2_lookup_l _ _ _ _ _ Hrows Hi) as (rs & Hrs & Hst).
    destruct (rows_of_station_nonempty _ _ Hst) as [row Hin].
    exists row. split.
    - apply list_elem_of_join. exists rs. split; [done|].
      apply list_elem_of_lookup. eauto.
    - intros c. by eapply rows_of_station_keys. }
  assert (∀ c, c ∈ priority_cols → c ∈ cols) as Hpri.
  { intros c [Hc|Hc]%elem_of_priority_cols; apply Hdisc.
    - destruct (Hcols c Hc) as (station & Hst & Hkey).
      destruct (Hrow station Hst) as (row & Hin & Hkeys).
      exists row. split; [done|]. apply Hkeys. by left.
    - destruct (Hcols "region") as (station & Hst & _).
      { unfold station_priority_cols. set_solver. }
      destruct (Hrow station Hst) as (row & Hin & Hkeys).
      exists row. split; [done|]. apply Hkeys. by right. }
  assert (∀ c, c ∈ labels ↔ c ∈ cols) as Hlabels.
  { intros c. unfold labels. rewrite elem_of_app, list_elem_of_filter.
    destruct (decide (c ∈ priority_cols)); naive_solver. }
  assert (reorder_columns (frame_of_rows rows) =
          inr (Frame labels ((λ record, (λ c, (c, cell record c)) <$> labels)
                               <$> records (frame_of_rows rows)))) as Hsel.
  { unfold reorder_columns. apply select_present. intros c Hc. by apply Hlabels. }
  eexists rows, _. split_and!.
  - done.
  - unfold flat_export. rewrite Hflat. simpl. exact Hsel.
  - done.
  - done.
  - intros c. simpl. by rewrite Hlabels.
  - cbn [columns records]. unfold frame_of_rows. cbn [columns records].
    rewrite <- list_fmap_compose. apply Forall2_fmap_r, Forall_Forall2_diag.
    apply Forall_forall. intros row _. unfold compose.
    split; [apply fst_labelled|].
    intros c Hc. rewrite cell_fmap by done. apply cell_fmap. by apply Hlabels.
Qed.

Lemma flat_export_priority_columns_witness :
  ∃ flat_df,
    flat_export (Samples.enriched [Samples.record_S5]) = inr flat_df ∧
    columns flat_df =
      ["station_id"; "company_id"; "evcs_establishment_name";
       "Charging Protocol"; "Charging Equipment"; "EVCS mode"; "region";
       "id"; "chargepoints"; "Charging Protocols"; "EVCS Modes"; "Charging Equipments"].
Proof.
  destruct (flat_export_priority_columns (H := Samples.libs)
              [Samples.record_S5] (Samples.enriched [Samples.record_S5]))
    as (rows & flat_df & Hrows & Hexport & Hcols & _).
  - by vm_compute.
  - intros c Hc. eexists. split; [by vm_compute; left|].
    unfold station_priority_cols in Hc.
    rewrite !elem_of_cons, elem_of_nil in Hc.
    destruct Hc as [->|[->|[->|[->|[]]]]]; vm_compute; repeat constructor.
  - exists flat_df. split; [done|].
    rewrite Hcols. vm_compute in Hrows. injection Hrows as <-.
    by vm_compute.
Defined.

Lemma flat_export_missing_priority_counterexample :
  enrich (H := Samples.libs) [Samples.record_S1]
    = inr (Samples.enriched [Samples.record_S1]) ∧
  flat_export (Samples.enriched [Samples.record_S1])
    = inl (KeyError ["station_id"; "company_id"; "region"]).
Proof. split; by vm_compute. Qed.

(** ** Failures *)

Section request_loop.
Context `{Libs}.

(** The mapping after a request does not depend on the log, and the log
    only grows. *)
Lemma process_request_mapping m log1 log2 req :
  (process_request (m, log1) req).1 = (process_request (m, log2) req).1.
Proof.
  unfold process_request. destruct (json_response req); [|done].
  destruct (json_loads _); [done|]. cbn [fst snd].
  by destruct (process_payload m _) as [m' [e|]].
Qed.

Lemma extract_loop_mapping st1 st2 reqs :
  st1.1 = st2.1 →
  (foldl process_request st1 reqs).1 = (foldl process_request st2 reqs).1.
Proof.
  revert st1 st2. induction reqs as [|req reqs IH]; intros [m1 l1] [m2 l2]; simpl.
  - done.
  - intros ->. apply IH. apply process_request_mapping.
Qed.

Lemma process_request_log st req :
  ∃ new, (process_request st req).2 = st.2 ++ new.
Proof.
  unfold process_request. destruct (json_response req).
  - destruct (json_loads _); [by eexists|].
    destruct (process_payload _ _) as [m' [e|]]; simpl; [by eexists|].
    exists []. by rewrite app_nil_r.
  - exists []. by rewrite app_nil_r.
Qed.

Lemma extract_loop_log st reqs :
  ∃ new, (foldl process_request st reqs).2 = st.2 ++ new.
Proof.
  revert st. induction reqs as [|req reqs IH]; intros st; simpl.
  - exists []. by rewrite app_nil_r.
  - destruct (IH (process_request st req)) as [new2 ->].
    destruct (process_request_log st req) as [new1 ->].
    exists (new1 ++ new2). by rewrite app_assoc.
Qed.

Lemma process_request_bad st req resp e :
  json_response req = Some resp → decode_response resp = inl e →
  process_request st req = (st.1, st.2 ++ [LogParseError e]).
Proof.
  intros Hreq. unfold decode_response, process_request. rewrite Hreq.
  destruct (json_loads _) as [e'|json_data]; simpl.
  - by intros [= ->].
  - intros He. unfold process_payload. by rewrite He.
Qed.

Lemma extract_station_data_mapping reqs1 reqs2 log0 :
  (foldl process_request ([], log0) reqs1).1 = (foldl process_request ([], log0) reqs2).1 →
  (extract_station_data reqs1 log0).1 = (extract_station_data reqs2 log0).1.
Proof.
  unfold extract_station_data. intros ->.
  by destruct (station_values _).
Qed.

End request_loop.

(** C6. A response whose body fails to decode or parse, or whose payload
    raises while its entry list is fetched, is caught inside the loop: the
    mapping is left as it was, a warning is appended to the error log, and
    the loop goes on with the remaining responses, so that the stations
    extracted are those of the run without that response.  An exception
    raised later, while the entries are walked, is caught and logged in the
    same way. *)
Theorem bad_response_is_skipped `{Libs}
    (before after : list request) (bad : request) (resp : response) (e : exn)
    (log0 : list log_entry) :
  json_response bad = Some resp →
  decode_response resp = inl e →
  ∃ m log1,
    foldl process_request ([], log0) before = (m, log1) ∧
    process_request (m, log1) bad = (m, log1 ++ [LogParseError e]) ∧
    foldl process_request ([], log0) (before ++ bad :: after)
      = foldl process_request (m, log1 ++ [LogParseError e]) after ∧
    (foldl process_request ([], log0) (before ++ bad :: after)).1
      = (foldl process_request ([], log0) (before ++ after)).1 ∧
    (extract_station_data (before ++ bad :: after) log0).1
      = (extract_station_data (before ++ after) log0).1 ∧
    LogParseError e ∈ (extract_station_data (before ++ bad :: after) log0).2 ∧
    (∀ st req resp' json_data m' e',
       json_response req = Some resp' →
       json_loads (decode_body (resp_body resp')) = inr json_data →
       process_payload st.1 json_data = (m', Some e') →
       process_request st req = (m', st.2 ++ [LogParseError e'])).
Proof.
  intros Hreq Hbad.
  destruct (foldl process_request ([], log0) before) as [m log1] eqn:Hbefore.
  pose proof (process_request_bad (m, log1) bad resp e Hreq Hbad) as Hstep.
  assert (foldl process_request ([], log0) (before ++ bad :: after)
          = foldl process_request (m, log1 ++ [LogParseError e]) after) as Hloop.
  { by rewrite foldl_app, Hbefore; simpl; rewrite Hstep. }
  assert ((foldl process_request ([], log0) (before ++ bad :: after)).1
          = (foldl process_request ([], log0) (before ++ after)).1) as Hmap.
  { rewrite Hloop, foldl_app, Hbefore. by apply extract_loop_mapping. }
  exists m, log1. split_and!; try done.
  - by apply extract_station_data_mapping.
  - unfold extract_station_data. rewrite Hloop.
    destruct (extract_loop_log (m, log1 ++ [LogParseError e]) after) as [new Hnew].
    assert (LogParseError e ∈
              (foldl process_request (m, log1 ++ [LogParseError e]) after).2) as Hin.
    { rewrite Hnew. simpl. set_solver. }
    destruct (station_values _); simpl; set_solver.
  - intros st req resp' json_data m' e' Hreq' Hjson Hpay.
    unfold process_request. by rewrite Hreq', Hjson, Hpay.
Qed.

Lemma bad_response_is_skipped_witness :
  (extract_station_data (H := Samples.libs)
     (json_request "page-1" :: Samples.garbled :: [json_request "page-2"]) []).1
  = (extract_station_data (H := Samples.libs)
       (json_request "page-1" :: [json_request "page-2"]) []).1.
Proof.
  destruct (bad_response_is_skipped (H := Samples.libs)
              [json_request "page-1"] [json_request "page-2"] Samples.garbled
              (Response (Some "application/json; charset=utf-8")
                        (String.list_byte_of_string "<html>502</html>"))
              (JSONDecodeError "Expecting value") [])
    as (m & log1 & _ & _ & _ & _ & Hsame & _ & _).
  - reflexivity.
  - reflexivity.
  - exact Hsame.
Defined.

Section orchestrator.
Context `{Libs}.

Lemma bind_returns {A B} (m : method A) (f : A → method B) s x s' :
  m s = (inr x, s') → (m ≫= f) s = f x s'.
Proof. unfold mbind, method_bind. by intros ->. Qed.

Lemma bind_raises {A B} (m : method A) (f : A → method B) s e s' :
  m s = (inl e, s') → (m ≫= f) s = (inl e, s').
Proof. unfold mbind, method_bind. by intros ->. Qed.

Lemma outbox_cleanup s : outbox (cleanup s) = outbox s.
Proof. unfold cleanup. by destruct (driver s). Qed.

Lemma outbox_send_email_notification w success n1 n2 details s :
  outbox (send_email_notification w success n1 n2 details s) = outbox s ∨
  outbox (send_email_notification w success n1 n2 details s)
    = outbox s ++ [Email success n1 n2 details (error_log s) (output_files s)].
Proof.
  unfold send_email_notification.
  destruct (negb (email_configured w)); [by left|].
  destruct (email_dispatch w _) as [[]|]; simpl; auto.
Qed.

(** A failure notification never puts a success message in the outbox. *)
Lemma failure_notification_outbox w e s msg :
  msg ∈ outbox (cleanup (send_email_notification w false 0 0 (Some e) s)) →
  msg ∈ outbox s ∨ email_success msg = false.
Proof.
  rewrite outbox_cleanup.
  destruct (outbox_send_email_notification w false 0 0 (Some e) s) as [-> | ->].
  - auto.
  - rewrite elem_of_app, list_elem_of_singleton. intros [?| ->]; auto.
Qed.

(** The outcomes of the [try] block when nothing was extracted. *)
Lemma scrape_and_export_no_stations w :
  (foldl process_request ([], []) (requests w)).1 = [] →
  ∃ e s, scrape_and_export w new_scraper = (inl e, s) ∧ outbox s = [] ∧
    (driver_init w = None → nonempty (find_csrf_token w) = true →
     e = Exception no_station_data ∧
     ∃ log1,
       extract_station_data (requests w) []
         = (inl (Exception no_station_data), log1 ++ [LogText no_station_data]) ∧
       s = Scraper true (log1 ++ [LogText no_station_data]) [] [] false).
Proof.
  intros Hempty. unfold scrape_and_export, setup_driver.
  destruct (driver_init w) as [e|] eqn:Hdrv.
  { exists e, (Scraper false [LogDriverError e] [] [] false). by split_and!. }
  unfold scrape_evcs_data.
  destruct (nonempty (find_csrf_token w)) eqn:Hcsrf.
  2:{ exists (Exception csrf_not_found),
             (Scraper true [LogText csrf_not_found] [] [] false).
      by split_and!. }
  assert (extract_station_data (requests w) []
          = (inl (Exception no_station_data),
             (foldl process_request ([], []) (requests w)).2
               ++ [LogText no_station_data])) as Hex.
  { unfold extract_station_data, station_values. by rewrite Hempty. }
  eexists (Exception no_station_data), _. split_and!.
  - unfold mbind, method_bind, modify, extract_station_data_m, new_scraper.
    cbn [driver error_log output_files outbox driver_quit]. by rewrite Hex.
  - done.
  - intros _ _. split; [done|]. by eexists.
Qed.

End orchestrator.

(** C7. When the mapping is empty after all responses, [run] returns 1 and
    no success message is sent.  If the driver started and the CSRF token was
    found, the failure is the one raised by [extract_station_data]: the
    message is logged, the exception reaches [run], which composes the failure
    notification with it and cleans up; with a configured and working e-mail
    API that failure message is the only one sent. *)
Theorem no_stations_is_fatal `{Libs} (w : world) :
  (foldl process_request ([], []) (requests w)).1 = [] →
  (run w).1 = 1 ∧
  (∀ msg, msg ∈ outbox (run w).2 → email_success msg = false) ∧
  (driver_init w = None → nonempty (find_csrf_token w) = true →
   ∃ log1,
     extract_station_data (requests w) []
       = (inl (Exception no_station_data), log1 ++ [LogText no_station_data]) ∧
     run w = (1, cleanup (send_email_notification w false 0 0
                            (Some (Exception no_station_data))
                            (Scraper true (log1 ++ [LogText no_station_data]) [] [] false))) ∧
     driver_quit (run w).2 = true ∧
     (email_configured w = true →
      email_dispatch w (Email false 0 0 (Some (Exception no_station_data))
                              (log1 ++ [LogText no_station_data]) []) = None →
      outbox (run w).2 = [Email false 0 0 (Some (Exception no_station_data))
                                (log1 ++ [LogText no_station_data]) []])).
Proof.
  intros Hempty.
  destruct (scrape_and_export_no_stations w Hempty) as (e & s & Hrun & Hout & Hreached).
  unfold run. rewrite Hrun. split_and!.
  - done.
  - intros msg Hmsg. cbn [snd] in Hmsg.
    apply failure_notification_outbox in Hmsg as [Hin|?]; [|done].
    rewrite Hout in Hin. by apply elem_of_nil in Hin.
  - intros Hdrv Hcsrf. destruct (Hreached Hdrv Hcsrf) as (-> & log1 & Hex & ->).
    exists log1. split_and!; [done..| |].
    + cbn [snd]. unfold send_email_notification, cleanup.
      destruct (negb (email_configured w)); [done|].
      by destruct (email_dispatch w _) as [[]|].
    + intros Hconf Hsend. cbn [snd]. unfold send_email_notification.
      rewrite Hconf. cbn [negb error_log output_files]. by rewrite Hsend.
Qed.

Lemma no_stations_is_fatal_witness :
  (run (H := Samples.libs) Samples.quiet_world).1 = 1 ∧
  ∃ msg, outbox (run (H := Samples.libs) Samples.quiet_world).2 = [msg] ∧
         email_success msg = false ∧
         email_error_details msg = Some (Exception "No station data found!").
Proof.
  destruct (no_stations_is_fatal (H := Samples.libs) Samples.quiet_world)
    as (Hcode & _ & Hpath).
  - reflexivity.
  - split; [exact Hcode|].
    destruct Hpath as (log1 & Hex & _ & _ & Hsent); [reflexivity..|].
    eexists. split; [apply Hsent; reflexivity|]. done.
Defined.

(** C8. [send_email_notification] catches what the dispatch raises: the
    error is appended to the error log, nothing is sent and the method
    returns.  [run] returns 0 exactly when the [try] block of scraping and
    export returned, and 1 exactly when it raised; neither the block nor the
    exit code depends on the e-mail collaborator. *)
Theorem notification_never_changes_exit_code `{Libs} (w : world) :
  ((run w).1 = 0 ↔ ∃ counts s, scrape_and_export w new_scraper = (inr counts, s)) ∧
  ((run w).1 = 1 ↔ ∃ e s, scrape_and_export w new_scraper = (inl e, s)) ∧
  (∀ api_key available dispatch,
     scrape_and_export (with_email w api_key available dispatch) new_scraper
       = scrape_and_export w new_scraper ∧
     (run (with_email w api_key available dispatch)).1 = (run w).1) ∧
  (∀ success n1 n2 details s e,
     email_configured w = true →
     email_dispatch w (Email success n1 n2 details (error_log s) (output_files s)) = Some e →
     outbox (send_email_notification w success n1 n2 details s) = outbox s ∧
     output_files (send_email_notification w success n1 n2 details s) = output_files s ∧
     error_log (send_email_notification w success n1 n2 details s)
       = error_log s ++ [match e with
                         | ApiException _ => LogApiError e
                         | _ => LogEmailError e
                         end]).
Proof.
  assert (∀ api_key available dispatch,
            scrape_and_export (with_email w api_key available dispatch) new_scraper
            = scrape_and_export w new_scraper) as Hsame.
  { intros. by destruct w. }
  split_and!.
  - unfold run. destruct (scrape_and_export w new_scraper) as [[e|[n1 n2]] s]; simpl.
    + split; [done|]. by intros (? & ? & ?).
    + split; [eauto|done].
  - unfold run. destruct (scrape_and_export w new_scraper) as [[e|[n1 n2]] s]; simpl.
    + split; [eauto|done].
    + split; [done|]. by intros (? & ? & ?).
  - intros api_key available dispatch. split; [apply Hsame|].
    unfold run. rewrite Hsame.
    by destruct (scrape_and_export w new_scraper) as [[e|[n1 n2]] s].
  - intros success n1 n2 details s e Hconf Hsend.
    unfold send_email_notification. rewrite Hconf. cbn [negb]. rewrite Hsend.
    by destruct e.
Qed.

Lemma notification_never_changes_exit_code_witness :
  (run (H := Samples.libs) Samples.refusing_world).1 = 0 ∧
  error_log (send_email_notification Samples.refusing_world true 1 1 None new_scraper)
    = [LogApiError (ApiException "401")].
Proof.
  destruct (notification_never_changes_exit_code (H := Samples.libs) Samples.refusing_world)
    as (Hzero & _ & _ & Hlogged).
  split.
  - apply Hzero. vm_compute. by eexists _, _.
  - by destruct (Hlogged true 1%nat 1%nat None new_scraper (ApiException "401"))
      as (_ & _ & ->).
Defined.


(** * Further properties *)

(** ** The entry loop on arbitrary entries *)

Lemma unattributed_no_identity cp : unattributed cp → entry_identity cp = None.
Proof.
  intros [Hno|(d & station & -> & Hst & Hid)].
  - destruct cp as [| | | | |d]; try done. simpl in Hno.
    injection Hno as Hno. apply DictFacts.mem_false in Hno.
    simpl. by rewrite Hno.
  - simpl. rewrite Hst. unfold station_identity. by rewrite Hid.
Qed.

Lemma add_chargepoint_unattributed m cp :
  unattributed cp → add_chargepoint m cp = inr m.
Proof.
  intros [Hno|(d & station & -> & Hst & Hid)]; unfold add_chargepoint.
  - by rewrite Hno.
  - simpl. assert (Dict.mem d "station" = true) as ->.
    { apply DictFacts.mem_true. by rewrite Hst. }
    by rewrite Hst, Hid.
Qed.

(** Without an identity an entry is passed over or raises; it is never
    stored. *)
Lemma add_chargepoint_no_identity m cp :
  entry_identity cp = None →
  add_chargepoint m cp = inr m ∨ ∃ e, add_chargepoint m cp = inl e.
Proof.
  intros Hid. unfold add_chargepoint.
  destruct cp as [| | |s|l|d]; simpl; eauto.
  - destruct (str_contains "station" s); eauto.
  - destruct (existsb _ l); eauto.
  - simpl in Hid.
    destruct (Dict.mem d "station") eqn:Hmem; [|by left].
    apply DictFacts.mem_true in Hmem as [x Hx]. rewrite Hx in Hid |- *.
    destruct x as [| | | | |station]; eauto.
    unfold station_identity in Hid.
    destruct (truthy _); simpl; [|by left].
    destruct (hash_key _); [eauto|done].
Qed.

Lemma add_chargepoint_reachable m cp m' :
  reachable m → add_chargepoint m cp = inr m' → reachable m'.
Proof.
  intros (es & Hes & Hagg) Hstep.
  destruct (entry_identity cp) as [k|] eqn:Hid.
  - destruct (add_chargepoint_aggregated es m cp k Hagg Hid) as (m2 & Hm2 & Hagg2).
    rewrite Hm2 in Hstep. injection Hstep as <-.
    exists (es ++ [cp]). split; [|done].
    apply Forall_app. split; [done|]. repeat constructor. by rewrite Hid.
  - destruct (add_chargepoint_no_identity m cp Hid) as [Hskip|[e He]].
    + rewrite Hskip in Hstep. injection Hstep as <-. by exists es.
    + by rewrite He in Hstep.
Qed.

Lemma add_chargepoints_reachable m cps :
  reachable m → reachable (add_chargepoints m cps).1.
Proof.
  revert m. induction cps as [|cp cps IH]; intros m Hm; simpl; [done|].
  destruct (add_chargepoint m cp) as [e|m'] eqn:Hstep; [done|].
  apply IH. by eapply add_chargepoint_reachable.
Qed.

(** X1. Entries that the loop passes over leave no trace: walking a list in
    which every entry either references an identity or is passed over gives
    the mapping of the referencing entries alone, and raises nothing. *)
Theorem unattributed_entries_are_dropped (cps : list json) :
  Forall (λ cp, is_Some (entry_identity cp) ∨ unattributed cp) cps →
  (∀ m, add_chargepoints m cps
        = add_chargepoints m (filter (λ cp, is_Some (entry_identity cp)) cps)) ∧
  ∃ m', add_chargepoints [] cps = (m', None) ∧
        aggregated (filter (λ cp, is_Some (entry_identity cp)) cps) m'.
Proof.
  intros Hall.
  assert (∀ m, add_chargepoints m cps
               = add_chargepoints m (filter (λ cp, is_Some (entry_identity cp)) cps))
    as Heq.
  { induction Hall as [|cp cps [Hid|Hun] _ IH]; intros m; [done|..].
    - rewrite filter_cons_True by done. simpl.
      destruct (add_chargepoint m cp); [done|apply IH].
    - rewrite filter_cons_False.
      + simpl. rewrite add_chargepoint_unattributed by done. apply IH.
      + rewrite (unattributed_no_identity cp Hun). by intros [? ?]. }
  split; [done|]. rewrite Heq.
  destruct (add_chargepoints_aggregated [] []
              (filter (λ cp, is_Some (entry_identity cp)) cps) aggregated_nil)
    as (m' & Hm' & Hagg).
  - apply Forall_forall. intros cp Hcp. by apply list_elem_of_filter in Hcp as [? _].
  - by exists m'.
Qed.

Lemma unattributed_entries_are_dropped_witness :
  add_chargepoints []
    [Samples.cp_a; JDict [("mode", JStr "AC")];
     JDict [("station", JDict [("id", JStr EmptyString)])]; Samples.cp_c]
  = add_chargepoints [] [Samples.cp_a; Samples.cp_c].
Proof.
  destruct (unattributed_entries_are_dropped
              [Samples.cp_a; JDict [("mode", JStr "AC")];
               JDict [("station", JDict [("id", JStr EmptyString)])]; Samples.cp_c])
    as [Heq _].
  - repeat apply List.Forall_cons; try apply List.Forall_nil.
    + left. by eexists.
    + right. by left.
    + right. right. by eexists _, _.
    + left. by eexists.
  - exact (Heq []).
Defined.

(** X2. An entry that raises ends the walk of its payload: the entries
    before it stay stored, the entry and those after it are not, and the
    request logs one warning with the mapping as the earlier entries left
    it. *)
Theorem raising_entry_keeps_earlier_entries `{Libs}
    (m m' : stations_dict) (good rest : list json) (bad : json) (e : exn) :
  add_chargepoints m good = (m', None) →
  add_chargepoint m' bad = inl e →
  add_chargepoints m (good ++ bad :: rest) = (m', Some e) ∧
  ∀ req resp json_data log0,
    json_response req = Some resp →
    json_loads (decode_body (resp_body resp)) = inr json_data →
    payload_entries json_data = inr (Some (good ++ bad :: rest)) →
    process_request (m, log0) req = (m', log0 ++ [LogParseError e]).
Proof.
  intros Hgood Hbad.
  assert (add_chargepoints m (good ++ bad :: rest) = (m', Some e)) as Hwalk.
  { revert m Hgood. induction good as [|cp good IH]; intros m; simpl.
    - intros [= ->]. by rewrite Hbad.
    - destruct (add_chargepoint m cp); [done|]. apply IH. }
  split; [done|].
  intros req resp json_data log0 Hreq Hjson Hpay.
  unfold process_request. rewrite Hreq, Hjson. cbn [fst snd].
  unfold process_payload. by rewrite Hpay, Hwalk.
Qed.

Lemma raising_entry_keeps_earlier_entries_witness :
  add_chargepoints [] [Samples.cp_a; JNum 7; Samples.cp_b]
  = ((add_chargepoints [] [Samples.cp_a]).1, Some TypeError).
Proof.
  apply (raising_entry_keeps_earlier_entries (H := Samples.libs)
           [] (add_chargepoints [] [Samples.cp_a]).1 [Samples.cp_a] [Samples.cp_b]
           (JNum 7) TypeError); reflexivity.
Defined.

(** ** The request loop on arbitrary requests *)

Section arbitrary_requests.
Context `{Libs}.

Lemma process_payload_reachable m json_data :
  reachable m → reachable (process_payload m json_data).1.
Proof.
  intros Hm. unfold process_payload.
  destruct (payload_entries json_data) as [e|[cps|]]; try done.
  by apply add_chargepoints_reachable.
Qed.

Lemma process_request_reachable st req :
  reachable st.1 → reachable (process_request st req).1.
Proof.
  intros Hm. unfold process_request.
  destruct (json_response req); [|done].
  destruct (json_loads _); [done|].
  pose proof (process_payload_reachable st.1 j Hm) as Hm'.
  by destruct (process_payload st.1 j) as [m' [e|]].
Qed.

Lemma extract_loop_reachable st reqs :
  reachable st.1 → reachable (foldl process_request st reqs).1.
Proof.
  revert st. induction reqs as [|req reqs IH]; intros st Hm; simpl; [done|].
  apply IH. by apply process_request_reachable.
Qed.

Lemma referencing_known k es :
  k ∈ omap entry_identity es →
  referencing k es ≠ [] ∧ Forall (λ e, entry_identity e = Some k) (referencing k es).
Proof.
  intros (e & He & Hid)%list_elem_of_omap. split.
  - intros Hnil. assert (e ∈ referencing k es) as Hin.
    { by apply list_elem_of_filter. }
    rewrite Hnil in Hin. by apply elem_of_nil in Hin.
  - apply Forall_forall. intros e' He'. by apply list_elem_of_filter in He' as [? _].
Qed.

End arbitrary_requests.

(** X3. Whatever the responses hold, the stations [extract_station_data]
    returns are well formed: there is at least one, their identities are
    pairwise distinct, and each owns a non-empty [chargepoints] list all of
    whose entries reference that station's identity. *)
Theorem extracted_stations_well_formed `{Libs}
    (reqs : list request) (log0 log1 : list log_entry) (all_stations : list dict) :
  extract_station_data reqs log0 = (inr all_stations, log1) →
  all_stations ≠ [] ∧
  ∃ ks,
    NoDup ks ∧
    Forall2 (λ k station,
               station_identity station = Some k ∧
               ∃ l, chargepoints_of station = Some l ∧ l ≠ [] ∧
                    Forall (λ e, entry_identity e = Some k) l)
            ks all_stations.
Proof.
  unfold extract_station_data.
  destruct (extract_loop_reachable ([], log0) reqs) as (es & Hes & Hagg).
  { exists []. split; [constructor|apply aggregated_nil]. }
  pose proof (aggregated_values _ _ Hagg) as Hvals.
  destruct (station_values _) as [|station stations] eqn:Hst; [done|].
  intros [= <- <-]. split; [done|].
  exists (first_seen (omap entry_identity es)). split; [apply NoDup_first_seen|].
  apply Forall2_same_length_lookup. split; [by eapply Forall2_length|].
  intros i k st Hk Hi.
  destruct (Forall2_lookup_lr _ _ _ _ _ _ Hvals Hk Hi) as [Hid Hcps].
  split; [done|]. exists (referencing k es). split; [done|].
  apply referencing_known, elem_of_first_seen, list_elem_of_lookup. eauto.
Qed.

Lemma extracted_stations_well_formed_witness :
  ∃ ks : list key, NoDup ks ∧ length ks = 2%nat.
Proof.
  destruct (extracted_stations_well_formed (H := MoreSamples.libs)
              MoreSamples.three_responses []
              (extract_station_data (H := MoreSamples.libs)
                 MoreSamples.three_responses []).2
              (MoreSamples.stations_of MoreSamples.three_responses))
    as (_ & ks & Hnd & Hall).
  - reflexivity.
  - exists ks. split; [done|]. by apply Forall2_length in Hall.
Defined.

Section request_filter.
Context `{Libs}.

Lemma json_response_None req :
  json_response req = None ↔
  req_response req = None ∨ req_url req ≠ evcs_url ∨
  ∃ resp, req_response req = Some resp ∧
          str_contains "application/json" (default EmptyString (resp_content_type resp))
            = false.
Proof.
  unfold json_response. destruct (req_response req) as [resp|]; [|naive_solver].
  destruct (bool_decide (req_url req = evcs_url)) eqn:Hurl.
  - apply bool_decide_eq_true in Hurl.
    destruct (str_contains _ _) eqn:Hct; simpl.
    + split; [done|]. intros [?|[?|(resp' & [= <-] & Hf)]]; try done. congruence.
    + split; [|done]. intros _. right. right. by exists resp.
  - apply bool_decide_eq_false in Hurl. simpl. naive_solver.
Qed.

Lemma extract_loop_filter st reqs :
  foldl process_request st reqs
  = foldl process_request st (filter (λ req, is_Some (json_response req)) reqs).
Proof.
  revert st. induction reqs as [|req reqs IH]; intros st; [done|].
  destruct (json_response req) as [resp|] eqn:Hreq.
  - rewrite filter_cons_True by (by rewrite Hreq). simpl. apply IH.
  - rewrite filter_cons_False by (rewrite Hreq; by intros [? ?]). simpl.
    unfold process_request at 2. rewrite Hreq. apply IH.
Qed.

End request_filter.

(** X4. Requests without a response, to another URL, or whose content type
    does not mention [application/json] are passed over unread: dropping them
    from the captured traffic changes neither the stations nor the error
    log, whatever their bodies hold. *)
Theorem other_requests_are_ignored `{Libs} (reqs : list request) (log0 : list log_entry) :
  extract_station_data reqs log0
  = extract_station_data (filter (λ req, is_Some (json_response req)) reqs) log0 ∧
  ∀ req,
    json_response req = None ↔
    req_response req = None ∨ req_url req ≠ evcs_url ∨
    ∃ resp, req_response req = Some resp ∧
            str_contains "application/json" (default EmptyString (resp_content_type resp))
              = false.
Proof.
  split; [|apply json_response_None].
  unfold extract_station_data. by rewrite (extract_loop_filter _ reqs).
Qed.

(** ** Payloads of another shape *)

Lemma add_chargepoint_string m s :
  add_chargepoint m (JStr s)
  = if str_contains "station" s then inl TypeError else inr m.
Proof. unfold add_chargepoint. simpl. by destruct (str_contains "station" s). Qed.

Lemma add_chargepoints_strings m ks :
  (add_chargepoints m (JStr <$> ks)).1 = m ∧
  ((add_chargepoints m (JStr <$> ks)).2 = None ↔
   Forall (λ k, str_contains "station" k = false) ks).
Proof.
  induction ks as [|k ks [IH1 IH2]]; simpl; [by split|].
  rewrite add_chargepoint_string. destruct (str_contains "station" k) eqn:Hk; simpl.
  - split; [done|]. split; [done|]. intros Hall. apply Forall_cons in Hall as [? _].
    congruence.
  - split; [done|]. rewrite IH2, Forall_cons. naive_solver.
Qed.

Lemma add_chargepoints_chars m s : add_chargepoints m (chars s) = (m, None).
Proof.
  induction s as [|c s IH]; simpl; [done|].
  rewrite add_chargepoint_string.
  assert (str_contains "station" (String c EmptyString) = false) as ->; [|done].
  cbn [str_contains String.prefix].
  match goal with
  | |- context [Ascii.ascii_dec ?a c] => by destruct (Ascii.ascii_dec a c)
  end.
Qed.

(** X5. A payload whose [props.chargepoints] is not a list never changes the
    mapping.  It does so silently when the value is a string (whose
    characters are walked) or a dict none of whose keys contains ["station"];
    a number, a boolean, [None], or a dict with such a key raise, which the
    request loop logs. *)
Theorem non_list_chargepoints_add_nothing
    (m : stations_dict) (d props : dict) (v : json) :
  Dict.lookup d "props" = Some (JDict props) →
  Dict.lookup props "chargepoints" = Some v →
  (∀ l, v ≠ JList l) →
  (process_payload m (JDict d)).1 = m ∧
  ((process_payload m (JDict d)).2 = None ↔
   (∃ s, v = JStr s) ∨
   (∃ kv, v = JDict kv ∧ Forall (λ k, str_contains "station" k = false) kv.*1)).
Proof.
  intros Hp Hv Hnl. unfold process_payload, payload_entries. rewrite Hp. simpl.
  assert (Dict.mem props "chargepoints" = true) as ->.
  { apply DictFacts.mem_true. by rewrite Hv. }
  rewrite Hv. simpl.
  destruct v as [|b|n|s|l|kv]; simpl.
  - split; [done|]. split; [done|]. by intros [[? ?]|(? & ? & _)].
  - split; [done|]. split; [done|]. by intros [[? ?]|(? & ? & _)].
  - split; [done|]. split; [done|]. by intros [[? ?]|(? & ? & _)].
  - rewrite add_chargepoints_chars. split; [done|]. split; [eauto|done].
  - by destruct (Hnl l).
  - destruct (add_chargepoints_strings m kv.*1) as [H1 H2].
    split; [done|]. rewrite H2. split; [eauto|].
    intros [[? ?]|(kv' & [= <-] & ?)]; done.
Qed.

Lemma non_list_chargepoints_add_nothing_witness :
  process_payload Samples.mapping_1
    (JDict [("props", JDict [("chargepoints", JStr "station 7")])])
  = (Samples.mapping_1, None).
Proof.
  destruct (non_list_chargepoints_add_nothing Samples.mapping_1
              [("props", JDict [("chargepoints", JStr "station 7")])]
              [("chargepoints", JStr "station 7")] (JStr "station 7"))
    as [Hm Hnone]; [reflexivity|reflexivity|done|].
  destruct (process_payload _ _) as [m' o]. simpl in *. f_equal; [done|].
  apply Hnone. left. by eexists.
Defined.

(** ** The error log of the extraction *)

Section extraction_log.
Context `{Libs}.

Lemma process_request_warning st req :
  (process_request st req).2 = st.2 ∨
  is_Some (json_response req) ∧ ∃ e, (process_request st req).2 = st.2 ++ [LogParseError e].
Proof.
  unfold process_request. destruct (json_response req) as [resp|]; [|by left].
  destruct (json_loads _) as [e|json_data]; simpl; [right; eauto|].
  destruct (process_payload _ _) as [m' [e|]]; simpl; [right; eauto|by left].
Qed.

Lemma extract_loop_warnings st reqs :
  ∃ new,
    (foldl process_request st reqs).2 = st.2 ++ new ∧
    Forall parse_warning new ∧
    (length new ≤ length (filter (λ req, is_Some (json_response req)) reqs))%nat.
Proof.
  revert st. induction reqs as [|req reqs IH]; intros st; simpl.
  - exists []. rewrite app_nil_r. split_and!; [done|constructor|done].
  - destruct (IH (process_request st req)) as (new & -> & Hnew & Hlen).
    destruct (process_request_warning st req) as [-> | [Hreq [e ->]]].
    + exists new. split_and!; [done..|].
      destruct (decide (is_Some (json_response req))).
      * rewrite filter_cons_True by done. simpl. lia.
      * by rewrite filter_cons_False.
    + exists (LogParseError e :: new). rewrite <- app_assoc. split_and!; [done| |].
      * constructor; [by eexists|done].
      * rewrite filter_cons_True by done. simpl. lia.
Qed.

End extraction_log.

(** X6. The extraction never drops or rewrites what the error log already
    holds.  It appends at most one parse warning per JSON response it reads,
    and after them the "No station data found!" message exactly when it
    raises. *)
Theorem extraction_log_only_grows `{Libs} (reqs : list request) (log0 : list log_entry) :
  ∃ new,
    (extract_station_data reqs log0).2
      = log0 ++ new ++ match (extract_station_data reqs log0).1 with
                       | inl _ => [LogText no_station_data]
                       | inr _ => []
                       end ∧
    Forall parse_warning new ∧
    (length new ≤ length (filter (λ req, is_Some (json_response req)) reqs))%nat.
Proof.
  destruct (extract_loop_warnings ([], log0) reqs) as (new & Hlog & Hnew & Hlen).
  exists new. split; [|done].
  unfold extract_station_data. rewrite Hlog. simpl.
  destruct (station_values _); simpl.
  - by rewrite app_assoc.
  - by rewrite app_nil_r.
Qed.

(** ** Dicts without repeated keys *)

Lemma NoDup_keys_set d k v : NoDup d.*1 → NoDup (Dict.set d k v).*1.
Proof.
  intros Hnd. destruct (decide (k ∈ d.*1)) as [Hin|Hnin].
  - by rewrite DictFacts.keys_set_present.
  - rewrite DictFacts.keys_set_absent by done.
    apply NoDup_app. split_and!; [done|set_solver|apply NoDup_singleton].
Qed.

Lemma keys_del d k c : NoDup d.*1 → c ∈ (Dict.del d k).*1 ↔ c ∈ d.*1 ∧ c ≠ k.
Proof.
  induction d as [|[k0 v0] d IH]; simpl; [set_solver|].
  rewrite NoDup_cons. intros [Hk0 Hnd].
  destruct (decide (k0 = k)) as [->|Hne]; simpl.
  - rewrite elem_of_cons. split.
    + intros Hc. split; [by right|]. by intros ->.
    + by intros [[?|?] ?].
  - rewrite !elem_of_cons, IH by done. naive_solver.
Qed.

Lemma NoDup_keys_del d k : NoDup d.*1 → NoDup (Dict.del d k).*1.
Proof.
  induction d as [|[k0 v0] d IH]; simpl; [done|].
  rewrite NoDup_cons. intros [Hk0 Hnd].
  destruct (decide (k0 = k)) as [->|Hne]; simpl; [done|].
  apply NoDup_cons. split; [|by apply IH].
  rewrite keys_del by done. naive_solver.
Qed.

Lemma lookup_del_eq d k : NoDup d.*1 → Dict.lookup (Dict.del d k) k = None.
Proof.
  intros Hnd. apply DictFacts.lookup_None_keys. rewrite keys_del by done. naive_solver.
Qed.

Lemma set_same d k v : Dict.lookup d k = Some v → Dict.set d k v = d.
Proof.
  induction d as [|[k0 v0] d IH]; simpl; [done|].
  destruct (decide (k0 = k)) as [->|Hne].
  - by intros [= ->].
  - intros Hd. f_equal. by apply IH.
Qed.

(** ** The enricher as a whole *)

Lemma write_summary_shape station acc :
  NoDup station.*1 →
  NoDup (write_summary station acc).*1 ∧
  Dict.lookup (write_summary station acc) "chargepoints_summary" = None ∧
  ∀ c, c ∈ (write_summary station acc).*1 ↔
       c ≠ "chargepoints_summary" ∧ (c ∈ station.*1 ∨ c ∈ summary_fields).
Proof.
  intros Hnd. unfold write_summary, summary_fields.
  set (D := Dict.set (Dict.set (Dict.set station _ _) _ _) _ _).
  assert (NoDup D.*1) as HD by (by do 3 apply NoDup_keys_set).
  assert (∀ c, c ∈ D.*1 ↔ c ∈ station.*1 ∨ c ∈ summary_fields) as Hkeys.
  { intros c. unfold D, summary_fields. rewrite !keys_set. set_solver. }
  destruct (Dict.mem D "chargepoints_summary") eqn:Hmem.
  - split_and!.
    + by apply NoDup_keys_del.
    + by apply lookup_del_eq.
    + intros c. rewrite keys_del, Hkeys by done. naive_solver.
  - apply DictFacts.mem_false in Hmem. split_and!; [done..|].
    intros c. rewrite Hkeys. split; [|naive_solver].
    intros Hc. split; [|done]. intros ->.
    apply DictFacts.lookup_None_keys in Hmem. by apply Hmem, Hkeys.
Qed.

Lemma write_summary_again station acc :
  NoDup station.*1 →
  write_summary (write_summary station acc) acc = write_summary station acc.
Proof.
  intros Hnd.
  destruct (write_summary_shape station acc Hnd) as (_ & Hgone & _).
  destruct (lookup_write_summary station acc) as (Hp & Hm & He).
  unfold write_summary at 1.
  rewrite (set_same _ _ _ Hp), (set_same _ _ _ Hm), (set_same _ _ _ He).
  apply DictFacts.mem_false in Hgone. by rewrite Hgone.
Qed.

(** X7. Enriching a station (a dict, so without repeated keys) leaves every
    field other than the three summary fields and [chargepoints_summary] as
    it was, in particular [chargepoints]; afterwards the three summary fields
    are present, [chargepoints_summary] is absent, and no other key was added
    or removed. *)
Theorem enrich_station_touches_only_its_fields `{Libs} (station station' : dict) :
  NoDup station.*1 →
  enrich_station station = inr station' →
  NoDup station'.*1 ∧
  Dict.lookup station' "chargepoints_summary" = None ∧
  (∀ field, field ∉ "chargepoints_summary" :: summary_fields →
            Dict.lookup station' field = Dict.lookup station field) ∧
  (∀ c, c ∈ station'.*1 ↔
        c ≠ "chargepoints_summary" ∧ (c ∈ station.*1 ∨ c ∈ summary_fields)).
Proof.
  intros Hnd. unfold enrich_station.
  destruct (scan_chargepoints _ _) as [e|acc]; simpl; [done|]. intros [= <-].
  destruct (write_summary_shape station acc Hnd) as (Hnd' & Hgone & Hkeys).
  split_and!; [done..| |done].
  intros field Hf. apply lookup_write_summary_other.
  unfold summary_fields in Hf. set_solver.
Qed.

Lemma enrich_station_touches_only_its_fields_witness :
  enrich_station (H := MoreSamples.libs) Samples.record_S1 = inr MoreSamples.enriched_S1 ∧
  Dict.lookup MoreSamples.enriched_S1 "evcs_establishment_name" = Some (JStr "Mall North").
Proof.
  assert (enrich_station (H := MoreSamples.libs) Samples.record_S1
          = inr MoreSamples.enriched_S1) as Hen by (by vm_compute).
  assert (NoDup Samples.record_S1.*1) as Hnd.
  { apply (bool_decide_unpack _). by vm_compute. }
  split; [done|].
  destruct (enrich_station_touches_only_its_fields (H := MoreSamples.libs)
              Samples.record_S1 MoreSamples.enriched_S1 Hnd Hen)
    as (_ & _ & Hframe & _).
  rewrite Hframe; [done|]. apply (bool_decide_unpack _). by vm_compute.
Defined.

(** X8. An enriched station is a fixed point of the enricher: enriching it
    again returns the very same record. *)
Theorem enrich_station_fixed_point `{Libs} (station station' : dict) :
  NoDup station.*1 →
  enrich_station station = inr station' →
  enrich_station station' = inr station'.
Proof.
  intros Hnd. unfold enrich_station.
  destruct (scan_chargepoints _ (extract_chargepoints station)) as [e|acc] eqn:Hscan;
    simpl; [done|].
  intros [= <-]. rewrite extract_chargepoints_write_summary, Hscan. simpl.
  by rewrite write_summary_again.
Qed.

Lemma enrich_station_fixed_point_witness :
  enrich_station (H := MoreSamples.libs) MoreSamples.enriched_S1
  = inr MoreSamples.enriched_S1.
Proof.
  apply (enrich_station_fixed_point (H := MoreSamples.libs) Samples.record_S1).
  - apply (bool_decide_unpack _). by vm_compute.
  - by vm_compute.
Defined.

(** Loops that collect results, read backwards. *)
Lemma mapM_inr_inv {A B} (f : A → exn + B) (l : list A) (k : list B) :
  mapM f l = inr k → Forall2 (λ x y, f x = inr y) l k.
Proof.
  revert k. induction l as [|x l IH]; intros k; simpl.
  - intros [= <-]. constructor.
  - destruct (f x) as [e|y] eqn:Hx; simpl; [done|].
    destruct (mapM f l) as [e|k'] eqn:Hl; simpl; [done|].
    intros [= <-]. constructor; [done|by apply IH].
Qed.

Lemma mapM_inl_iff {A B} (f : A → exn + B) (l : list A) (e0 e : exn) :
  (∀ x e', f x = inl e' → e' = e0) →
  mapM f l = inl e ↔ e = e0 ∧ Exists (λ x, f x = inl e0) l.
Proof.
  intros Hf. revert e. induction l as [|x l IH]; intros e; simpl.
  - split; [done|]. intros [_ Hex]. by apply Exists_nil in Hex.
  - rewrite Exists_cons. destruct (f x) as [e'|y] eqn:Hx; simpl.
    + rewrite (Hf x e' Hx). split; [intros [= <-]|intros [-> _]]; auto.
    + destruct (mapM f l) as [e'|k'] eqn:Hl; simpl.
      * destruct (IH e') as [IH' _]. destruct (IH' eq_refl) as [-> Hex].
        split; [intros [= <-]|intros [-> _]]; auto.
      * split; [done|]. intros [-> [?|Hex]]; [done|].
        destruct (IH e0) as [_ IH']. by specialize (IH' (conj eq_refl Hex)).
Qed.

Section enrich_list.
Context `{Libs}.

Lemma enrich_station_raises station e :
  enrich_station station = inl e ↔ e = AttributeError ∧ has_non_dict_chargepoint station.
Proof.
  unfold has_non_dict_chargepoint.
  destruct (decide (Forall (λ cp, is_dict cp = true) (extract_chargepoints station)))
    as [Hall|Hn].
  - rewrite enrich_station_dicts by done. naive_solver.
  - rewrite enrich_station_not_dicts by done. naive_solver.
Qed.

Lemma flat_row_raises base cp e :
  flat_row base cp = inl e ↔ e = AttributeError ∧ is_dict cp = false.
Proof. destruct cp; simpl; naive_solver. Qed.

Lemma station_rows_raises station e :
  station_rows station = inl e ↔ e = AttributeError ∧ has_non_dict_chargepoint station.
Proof.
  unfold station_rows, has_non_dict_chargepoint.
  destruct (extract_chargepoints station) as [|cp cps].
  - split; [done|]. intros [_ Hn]. destruct Hn. constructor.
  - rewrite (mapM_inl_iff _ _ AttributeError)
      by (intros x e'; rewrite flat_row_raises; naive_solver).
    split; intros [-> Hex]; (split; [done|]).
    + intros Hall. apply Exists_exists in Hex as (x & Hin & Hx).
      rewrite Forall_forall in Hall. specialize (Hall x Hin).
      apply flat_row_raises in Hx as [_ Hx]. congruence.
    + apply not_Forall_Exists in Hex; [|apply _].
      eapply Exists_impl; [done|]. intros x Hx. apply flat_row_raises.
      split; [done|]. by apply not_true_is_false.
Qed.

End enrich_list.

(** X9. The enricher keeps the stations as they come: as many, in the same
    order, each with the identity, the [chargepoints] list and the extracted
    charge-points it had. *)
Theorem enrich_keeps_stations `{Libs} (stations_data enriched : list dict) :
  enrich stations_data = inr enriched →
  length enriched = length stations_data ∧
  Forall2 (λ station station',
             enrich_station station = inr station' ∧
             station_identity station' = station_identity station ∧
             Dict.lookup station' "chargepoints" = Dict.lookup station "chargepoints" ∧
             extract_chargepoints station' = extract_chargepoints station)
          stations_data enriched.
Proof.
  intros Hen. apply mapM_inr_inv in Hen.
  split; [symmetry; by eapply Forall2_length|].
  eapply Forall2_impl; [done|]. intros station station' Hst.
  split; [done|]. unfold enrich_station in Hst.
  destruct (scan_chargepoints _ _) as [e|acc]; simpl in Hst; [done|].
  injection Hst as <-. split_and!.
  - unfold station_identity, Dict.get.
    rewrite !lookup_write_summary_other; [done|set_solver..].
  - apply lookup_write_summary_other. set_solver.
  - apply extract_chargepoints_write_summary.
Qed.

Lemma enrich_keeps_stations_witness :
  length (Samples.enriched [Samples.record_S1; Samples.station_S3]) = 2%nat.
Proof.
  destruct (enrich_keeps_stations (H := Samples.libs)
              [Samples.record_S1; Samples.station_S3]
              (Samples.enriched [Samples.record_S1; Samples.station_S3]))
    as [Hlen _]; [by vm_compute|exact Hlen].
Defined.

(** X10. Enrichment and flattening raise on the same stations, and only
    [AttributeError]: exactly when [extract_chargepoints] returns, for some
    station, an element that is not a dict. *)
Theorem export_raises_on_non_dict_chargepoints `{Libs} (stations_data : list dict) (e : exn) :
  (enrich stations_data = inl e ↔
   e = AttributeError ∧ Exists has_non_dict_chargepoint stations_data) ∧
  (flat_rows stations_data = inl e ↔
   e = AttributeError ∧ Exists has_non_dict_chargepoint stations_data).
Proof.
  split.
  - unfold enrich. rewrite (mapM_inl_iff _ _ AttributeError)
      by (intros station e'; rewrite enrich_station_raises; naive_solver).
    split; intros [-> Hex]; (split; [done|]);
      (eapply Exists_impl; [done|]); intros station Hst.
    + by apply enrich_station_raises in Hst as [_ ?].
    + by apply enrich_station_raises.
  - unfold flat_rows.
    assert (mjoin <$> mapM station_rows stations_data = inl e
            ↔ mapM station_rows stations_data = inl e) as ->.
    { destruct (mapM station_rows stations_data); simpl; naive_solver. }
    rewrite (mapM_inl_iff _ _ AttributeError)
      by (intros station e'; rewrite station_rows_raises; naive_solver).
    split; intros [-> Hex]; (split; [done|]);
      (eapply Exists_impl; [done|]); intros station Hst.
    + by apply station_rows_raises in Hst as [_ ?].
    + by apply station_rows_raises.
Qed.

(** X11. A flattened row is its station with the three charge-point columns
    set: every other field of the station, the [chargepoints] list and the
    summary fields among them, is carried over unchanged, and no other key
    appears. *)
Theorem flat_rows_carry_station_fields (stations_data rows : list dict) :
  flat_rows stations_data = inr rows →
  Forall (λ row,
            ∃ station,
              station ∈ stations_data ∧
              (∀ field, field ∉ chargepoint_cols →
                        Dict.lookup row field = Dict.lookup station field) ∧
              (∀ c, c ∈ row.*1 ↔ c ∈ station.*1 ∨ c ∈ chargepoint_cols))
         rows.
Proof.
  unfold flat_rows.
  destruct (mapM station_rows stations_data) as [e|per_station] eqn:Hmap; simpl; [done|].
  intros [= <-]. apply mapM_inr_inv in Hmap.
  apply Forall_forall. intros row (rs & Hrow & Hrs)%list_elem_of_join.
  apply list_elem_of_lookup in Hrs as [i Hi].
  destruct (Forall2_lookup_r _ _ _ _ _ Hmap Hi) as (station & Hst & Hrows).
  exists station. split; [apply list_elem_of_lookup; eauto|].
  unfold station_rows in Hrows.
  assert (row = placeholder_row station ∨
          ∃ cp, flat_row station cp = inr row) as Hcase.
  { destruct (extract_chargepoints station) as [|cp cps].
    - injection Hrows as <-. apply list_elem_of_singleton in Hrow. by left.
    - apply mapM_inr_inv in Hrows. apply list_elem_of_lookup in Hrow as [j Hj].
      destruct (Forall2_lookup_r _ _ _ _ _ Hrows Hj) as (cp' & _ & Hcp). eauto. }
  destruct Hcase as [->|[cp Hcp]].
  - split; [|intros c; apply placeholder_row_keys].
    intros field Hf. unfold placeholder_row, chargepoint_cols in *.
    rewrite !DictFacts.lookup_set_ne; [done|set_solver..].
  - split; [|intros c; by eapply flat_row_keys].
    destruct cp as [| | | | |d]; try done. injection Hcp as <-.
    intros field Hf. unfold chargepoint_cols in *.
    rewrite !DictFacts.lookup_set_ne; [done|set_solver..].
Qed.

Lemma flat_rows_carry_station_fields_witness :
  ∃ rows,
    flat_rows (Samples.enriched [Samples.record_S1]) = inr rows ∧
    Forall (λ row, Dict.lookup row "id" = Some (JStr "S1")) rows.
Proof.
  destruct (flat_rows (Samples.enriched [Samples.record_S1])) as [e|rows] eqn:Hrows.
  { by vm_compute in Hrows. }
  exists rows. split; [done|].
  eapply Forall_impl; [by apply (flat_rows_carry_station_fields _ _ Hrows)|].
  intros row (station & Hst & Hframe & _). simpl.
  rewrite Hframe by (apply (bool_decide_unpack _); by vm_compute).
  vm_compute in Hst. apply list_elem_of_singleton in Hst as ->. by vm_compute.
Defined.

(** ** Frames *)

Lemma discover_keys (cols ks : list string) :
  NoDup (cols ++ ks) →
  foldl (λ cs k, if decide (k ∈ cs) then cs else cs ++ [k]) cols ks = cols ++ ks.
Proof.
  revert cols. induction ks as [|k ks IH]; intros cols Hnd; simpl.
  - by rewrite app_nil_r.
  - rewrite decide_False.
    + rewrite IH; rewrite <- app_assoc; done.
    + apply NoDup_app in Hnd as (_ & Hdis & _). intros Hin.
      apply (Hdis k Hin). by left.
Qed.

Lemma discover_extends cols row : ∃ new, discover cols row = cols ++ new.
Proof.
  unfold discover. generalize (row.*1). intros ks. revert cols.
  induction ks as [|k ks IH]; intros cols; simpl.
  - exists []. by rewrite app_nil_r.
  - case_decide; [apply IH|].
    destruct (IH (cols ++ [k])) as [new ->]. exists (k :: new). by rewrite <- app_assoc.
Qed.

Lemma discovered_extends cols rows : ∃ new, foldl discover cols rows = cols ++ new.
Proof.
  revert cols. induction rows as [|row rows IH]; intros cols; simpl.
  - exists []. by rewrite app_nil_r.
  - destruct (discover_extends cols row) as [new1 ->].
    destruct (IH (cols ++ new1)) as [new2 ->].
    exists (new1 ++ new2). by rewrite app_assoc.
Qed.

Lemma NoDup_discover cols row : NoDup cols → NoDup (discover cols row).
Proof.
  unfold discover. generalize (row.*1). intros ks. revert cols.
  induction ks as [|k ks IH]; intros cols Hnd; simpl; [done|].
  apply IH. case_decide; [done|].
  apply NoDup_app. split_and!; [done|set_solver|apply NoDup_singleton].
Qed.

Lemma NoDup_discovered cols rows : NoDup cols → NoDup (foldl discover cols rows).
Proof.
  revert cols. induction rows as [|row rows IH]; intros cols Hnd; simpl; [done|].
  by apply IH, NoDup_discover.
Qed.

Lemma cell_absent (f : string → option json) cols c :
  c ∉ cols → cell ((λ c, (c, f c)) <$> cols) c = None.
Proof.
  induction cols as [|c0 cols IH]; simpl; [done|].
  rewrite not_elem_of_cons. intros [Hne Hnin].
  rewrite decide_False by done. by apply IH.
Qed.

(** X12. [pd.DataFrame] on a list of dicts: no column label is repeated, the
    labels are exactly the keys met in the rows, the keys of the first row
    come first in their own order, and every record has one cell per column,
    holding the row's value for that key and the missing cell where the row
    has no such key. *)
Theorem frame_columns_are_the_keys_met (row : dict) (rest : list dict) :
  NoDup row.*1 →
  NoDup (columns (frame_of_rows (row :: rest))) ∧
  row.*1 `prefix_of` columns (frame_of_rows (row :: rest)) ∧
  (∀ c, c ∈ columns (frame_of_rows (row :: rest)) ↔
        ∃ r, r ∈ row :: rest ∧ c ∈ r.*1) ∧
  Forall2 (λ r record,
             record.*1 = columns (frame_of_rows (row :: rest)) ∧
             ∀ c, cell record c = if decide (c ∈ columns (frame_of_rows (row :: rest)))
                                  then Dict.lookup r c else None)
          (row :: rest) (records (frame_of_rows (row :: rest))).
Proof.
  intros Hnd. unfold frame_of_rows. cbn [columns records].
  set (cols := foldl discover [] (row :: rest)). split_and!.
  - apply NoDup_discovered. constructor.
  - unfold cols. simpl. unfold discover at 2.
    rewrite discover_keys by done. simpl.
    destruct (discovered_extends row.*1 rest) as [new ->]. by exists new.
  - intros c. unfold cols. rewrite elem_of_discovered. set_solver.
  - apply Forall2_fmap_r, Forall_Forall2_diag, Forall_forall. intros r _.
    split; [apply fst_labelled|]. intros c. case_decide.
    + by apply cell_fmap.
    + by apply cell_absent.
Qed.

Lemma frame_columns_are_the_keys_met_witness :
  columns (frame_of_rows [Samples.station_S1; Samples.station_S2])
  = ["id"; "evcs_establishment_name"; "station_id"].
Proof.
  destruct (frame_columns_are_the_keys_met Samples.station_S1 [Samples.station_S2])
    as (_ & [new Hnew] & _).
  - apply (bool_decide_unpack _). by vm_compute.
  - rewrite Hnew. vm_compute in Hnew. by injection Hnew as <-.
Defined.

Lemma select_inv df labels df' :
  select df labels = inr df' →
  (∀ c, c ∈ labels → c ∈ columns df) ∧
  df' = Frame labels ((λ record, (λ c, (c, cell record c)) <$> labels) <$> records df).
Proof.
  unfold select. destruct (filter _ labels) as [|c0 missing] eqn:Hf; [|done].
  intros [= <-]. split; [|done]. intros c Hc.
  apply dec_stable. intros Hn. by apply (filter_nil_not_elem_of _ _ c Hf).
Qed.

Lemma NoDup_priority_cols : NoDup priority_cols.
Proof. apply (bool_decide_unpack _). by vm_compute. Qed.

(** X13. When the reordering succeeds it only permutes: the new labels are
    the old ones, each once, with the seven priority columns in front, and
    every record keeps, under each label, the cell it had. *)
Theorem reorder_columns_only_permutes (df df' : DataFrame) :
  NoDup (columns df) →
  reorder_columns df = inr df' →
  columns df' ≡ₚ columns df ∧
  take 7 (columns df') = priority_cols ∧
  Forall2 (λ record record',
             record'.*1 = columns df' ∧
             ∀ c, c ∈ columns df' → cell record' c = cell record c)
          (records df) (records df').
Proof.
  intros Hnd Hre. unfold reorder_columns in Hre.
  apply select_inv in Hre as [Hin ->]. cbn [columns records]. split_and!.
  - apply NoDup_Permutation; [|done|].
    + apply NoDup_app. split_and!.
      * apply NoDup_priority_cols.
      * intros c Hc. rewrite list_elem_of_filter. naive_solver.
      * by apply NoDup_filter.
    + intros c. split; [apply Hin|]. intros Hc.
      rewrite elem_of_app, list_elem_of_filter.
      destruct (decide (c ∈ priority_cols)); naive_solver.
  - done.
  - apply Forall2_fmap_r, Forall_Forall2_diag, Forall_forall. intros record _.
    split; [apply fst_labelled|]. intros c Hc. by apply cell_fmap.
Qed.

(** X14. The reordering raises exactly when a priority column is no column
    of the frame, and then it is a [KeyError] that names the missing
    priority columns in priority order. *)
Theorem reorder_columns_raises_on_missing_priority (df : DataFrame) (e : exn) :
  reorder_columns df = inl e ↔
  e = KeyError (filter (λ c, c ∉ columns df) priority_cols) ∧
  ∃ c, c ∈ priority_cols ∧ c ∉ columns df.
Proof.
  unfold reorder_columns, select. rewrite filter_app.
  assert (filter (λ c, c ∉ columns df)
                 (filter (λ col, col ∉ priority_cols) (columns df)) = []) as ->.
  { apply elem_of_nil_inv. intros c. rewrite !list_elem_of_filter. naive_solver. }
  rewrite app_nil_r.
  destruct (filter (λ c, c ∉ columns df) priority_cols) as [|c0 missing] eqn:Hf.
  - split; [done|]. intros (_ & c & Hc & Hn).
    destruct (filter_nil_not_elem_of _ _ c Hf Hn Hc).
  - split.
    + intros [= <-]. split; [done|]. exists c0.
      assert (c0 ∈ filter (λ c, c ∉ columns df) priority_cols) as Hin.
      { rewrite Hf. by left. }
      apply list_elem_of_filter in Hin. naive_solver.
    + by intros [-> _].
Qed.

Lemma reorder_columns_only_permutes_witness :
  ∃ df',
    reorder_columns MoreSamples.shuffled_frame = inr df' ∧
    columns df' =
      ["station_id"; "company_id"; "evcs_establishment_name";
       "Charging Protocol"; "Charging Equipment"; "EVCS mode"; "region"; "id"].
Proof.
  destruct (reorder_columns MoreSamples.shuffled_frame) as [e|df'] eqn:Hre.
  { by vm_compute in Hre. }
  exists df'. split; [done|].
  destruct (reorder_columns_only_permutes MoreSamples.shuffled_frame df') as (_ & _ & _).
  - apply (bool_decide_unpack _). by vm_compute.
  - done.
  - vm_compute in Hre. by injection Hre as <-.
Defined.

(** ** The run as a whole *)

Section run_outcomes.
Context `{Libs}.

Local Opaque extract_station_data enrich flat_rows reorder_columns frame_of_rows
  find_csrf_token String.append.

(** Walks the [try] block of [run] stage by stage: one goal per place where
    it can stop. *)
Ltac run_stages w :=
  unfold scrape_and_export, setup_driver, scrape_evcs_data, save_json_data,
    process_and_export_data, extract_station_data_m, write_file,
    mbind, method_bind, mret, method_ret, modify, raise, lift, new_scraper,
    add_output_files, log;
  destruct (driver_init w) eqn:Hdrv; simpl;
  [|destruct (nonempty (find_csrf_token w)) eqn:Hcsrf; simpl;
    [destruct (extract_station_data (requests w) [])
       as [[?e|all_stations] log1] eqn:Hex; simpl;
     [|repeat (match goal with
               | |- context [match fs_write w ?f with _ => _ end] =>
                   destruct (fs_write w f) eqn:?
               | |- context [match enrich ?x with _ => _ end] =>
                   destruct (enrich x) eqn:?
               | |- context [match flat_rows ?x with _ => _ end] =>
                   destruct (flat_rows x) eqn:?
               | |- context [match reorder_columns ?x with _ => _ end] =>
                   destruct (reorder_columns x) eqn:?
               end; simpl)]|]].

Lemma scrape_and_export_state w :
  ∃ n, n ∈ [0; 1; 3; 5]%nat ∧
       output_files (scrape_and_export w new_scraper).2 = take n (manifest w) ∧
       ((∃ counts, (scrape_and_export w new_scraper).1 = inr counts) ↔ n = 5%nat) ∧
       outbox (scrape_and_export w new_scraper).2 = [] ∧
       driver_quit (scrape_and_export w new_scraper).2 = false ∧
       driver (scrape_and_export w new_scraper).2 = bool_decide (driver_init w = None).
Proof.
  run_stages w;
    first
      [ exists 5%nat; split_and!; [set_solver|done|split; eauto|done..]
      | exists 3%nat; split_and!;
          [set_solver|done|split; [intros [? ?]; done|done]|done..]
      | exists 1%nat; split_and!;
          [set_solver|done|split; [intros [? ?]; done|done]|done..]
      | exists 0%nat; split_and!;
          [set_solver|done|split; [intros [? ?]; done|done]|done..] ].
Qed.

Lemma scrape_and_export_returns w n1 n2 s :
  scrape_and_export w new_scraper = (inr (n1, n2), s) →
  ∃ all_stations log1 stations_data rows,
    extract_station_data (requests w) [] = (inr all_stations, log1) ∧
    enrich all_stations = inr stations_data ∧
    flat_rows stations_data = inr rows ∧
    n1 = length stations_data ∧ n2 = length rows ∧ error_log s = log1 ∧
    Forall (λ name, fs_write w name = None) (manifest w).
Proof.
  run_stages w; intros Hrun; try done.
  injection Hrun as <- <- <-. eexists _, _, _, _. split_and!; try done.
  unfold manifest. by repeat constructor.
Qed.

Lemma scrape_and_export_no_token w :
  driver_init w = None → nonempty (find_csrf_token w) = false →
  scrape_and_export w new_scraper
  = (inl (Exception csrf_not_found), Scraper true [LogText csrf_not_found] [] [] false).
Proof. intros Hd Hc. run_stages w; congruence. Qed.

Lemma scrape_and_export_no_driver w e :
  driver_init w = Some e →
  scrape_and_export w new_scraper
  = (inl e, Scraper false [LogDriverError e] [] [] false).
Proof. intros Hd. run_stages w; congruence. Qed.

Local Transparent extract_station_data enrich flat_rows reorder_columns frame_of_rows
  find_csrf_token String.append.

Lemma send_email_notification_keeps w success n1 n2 details s :
  driver (send_email_notification w success n1 n2 details s) = driver s ∧
  output_files (send_email_notification w success n1 n2 details s) = output_files s ∧
  driver_quit (send_email_notification w success n1 n2 details s) = driver_quit s.
Proof.
  unfold send_email_notification. destruct (negb _); [done|].
  by destruct (email_dispatch w _) as [[]|].
Qed.

Lemma cleanup_keeps s :
  driver (cleanup s) = driver s ∧ output_files (cleanup s) = output_files s ∧
  error_log (cleanup s) = error_log s ∧
  driver_quit (cleanup s) = (driver s || driver_quit s).
Proof. unfold cleanup. by destruct s as [[] ? ? ? ?]. Qed.

(** The final state of [run], by way of the state the [try] block left. *)
Lemma run_final_state w :
  ∃ success n1 n2 details,
    (run w).2 = cleanup (send_email_notification w success n1 n2 details
                           (scrape_and_export w new_scraper).2) ∧
    success = bool_decide ((run w).1 = 0) ∧
    ((run w).1 = 0 ↔ ∃ counts, (scrape_and_export w new_scraper).1 = inr counts).
Proof.
  unfold run. destruct (scrape_and_export w new_scraper) as [[e|[n1 n2]] s]; simpl.
  - exists false, 0%nat, 0%nat, (Some e). split_and!; [done..|].
    split; [done|]. by intros [? ?].
  - exists true, n1, n2, None. split_and!; [done..|]. split; eauto.
Qed.

End run_outcomes.

(** X15. The output manifest of a run is always an initial part of the five
    file names in writing order (JSON, aggregated xlsx and csv, flattened
    xlsx and csv): nothing, the JSON file, the first three, or all five, the
    two files of a pair entering together.  The run returns 0 exactly when
    all five are there. *)
Theorem output_files_follow_the_manifest `{Libs} (w : world) :
  ∃ n, n ∈ [0; 1; 3; 5]%nat ∧
       output_files (run w).2 = take n (manifest w) ∧
       ((run w).1 = 0 ↔ n = 5%nat).
Proof.
  destruct (scrape_and_export_state w) as (n & Hn & Hfiles & Hok & _).
  destruct (run_final_state w) as (success & n1 & n2 & details & -> & _ & Hzero).
  exists n. split_and!; [done| |by rewrite Hzero].
  destruct (cleanup_keeps (send_email_notification w success n1 n2 details
                             (scrape_and_export w new_scraper).2)) as (_ & -> & _).
  by destruct (send_email_notification_keeps w success n1 n2 details
                 (scrape_and_export w new_scraper).2) as (_ & -> & _).
Qed.

(** X16. The browser session is closed on every path on which it was
    opened, and only then: after [run], [quit] has been called exactly when
    the driver had started. *)
Theorem driver_quit_iff_started `{Libs} (w : world) :
  driver_quit (run w).2 = true ↔ driver_init w = None.
Proof.
  destruct (scrape_and_export_state w) as (n & _ & _ & _ & _ & Hquit & Hdrv).
  destruct (run_final_state w) as (success & n1 & n2 & details & -> & _ & _).
  destruct (cleanup_keeps (send_email_notification w success n1 n2 details
                             (scrape_and_export w new_scraper).2)) as (_ & _ & _ & ->).
  destruct (send_email_notification_keeps w success n1 n2 details
              (scrape_and_export w new_scraper).2) as (-> & _ & ->).
  rewrite Hquit, Hdrv, orb_false_r. apply bool_decide_eq_true.
Qed.

(** X17. A run sends at most one message, and its success flag agrees with
    the exit code.  Without an API key or without the e-mail library nothing
    is sent and the error log stays as scraping left it; with both, the
    message leaves exactly when the dispatch does not raise. *)
Theorem at_most_one_notification `{Libs} (w : world) :
  (outbox (run w).2 = [] ∨
   ∃ msg, outbox (run w).2 = [msg] ∧ email_success msg = bool_decide ((run w).1 = 0)) ∧
  (email_configured w = false →
   outbox (run w).2 = [] ∧
   error_log (run w).2 = error_log (scrape_and_export w new_scraper).2) ∧
  (email_configured w = true →
   ∃ msg, email_success msg = bool_decide ((run w).1 = 0) ∧
          email_error_log msg = error_log (scrape_and_export w new_scraper).2 ∧
          (outbox (run w).2 = [msg] ↔ email_dispatch w msg = None)).
Proof.
  destruct (scrape_and_export_state w) as (n & _ & _ & _ & Hout & _).
  destruct (run_final_state w) as (success & n1 & n2 & details & -> & Hs & _).
  rewrite outbox_cleanup.
  destruct (cleanup_keeps (send_email_notification w success n1 n2 details
                             (scrape_and_export w new_scraper).2)) as (_ & _ & -> & _).
  set (s := (scrape_and_export w new_scraper).2) in *.
  unfold send_email_notification. split_and!.
  - destruct (negb (email_configured w)); [by left|].
    destruct (email_dispatch w _) as [[]|]; simpl; rewrite ?Hout; eauto.
  - intros ->. by simpl.
  - intros ->. simpl.
    exists (Email success n1 n2 details (error_log s) (output_files s)).
    split_and!; [exact Hs|done|].
    destruct (email_dispatch w _) as [[]|]; simpl; rewrite Hout; done.
Qed.

Lemma at_most_one_notification_witness :
  outbox (run (H := Samples.libs) MoreSamples.tokenless_world).2 = [].
Proof.
  destruct (at_most_one_notification (H := Samples.libs) MoreSamples.tokenless_world)
    as (_ & Hoff & _).
  by destruct Hoff as [-> _].
Defined.

Lemma extract_station_data_nonempty `{Libs} reqs log0 log1 all_stations :
  extract_station_data reqs log0 = (inr all_stations, log1) → all_stations ≠ [].
Proof.
  unfold extract_station_data.
  destruct (station_values _) as [|station stations]; [done|].
  by intros [= <- <-].
Qed.

Lemma enrich_rows_sum `{Libs} stations_raw stations_data :
  enrich stations_raw = inr stations_data →
  length stations_data = length stations_raw ∧
  sum_list ((λ station, Nat.max 1 (length (extract_chargepoints station)))
              <$> stations_data)
  = sum_list ((λ station, Nat.max 1 (length (extract_chargepoints station)))
                <$> stations_raw).
Proof.
  intros Hen. apply mapM_inr_inv in Hen.
  split; [symmetry; by eapply Forall2_length|].
  induction Hen as [|station station' l l' Hst _ IH]; [done|].
  rewrite !fmap_cons. cbn [sum_list_with]. rewrite IH. do 3 f_equal.
  unfold enrich_station in Hst.
  destruct (scan_chargepoints _ _) as [e|acc]; simpl in Hst; [done|].
  injection Hst as <-. by rewrite extract_chargepoints_write_summary.
Qed.

(** X18. The two counts a successful run reports: the first is the number
    of stations extracted, at least one; the second is the number of
    flattened rows, one per extracted charge-point and one for a station
    without any, hence never below the first.  All five files were written. *)
Theorem reported_counts `{Libs} (w : world) (n1 n2 : nat) (s : scraper) :
  scrape_and_export w new_scraper = (inr (n1, n2), s) →
  ∃ all_stations log1,
    extract_station_data (requests w) [] = (inr all_stations, log1) ∧
    n1 = length all_stations ∧
    n2 = sum_list ((λ station, Nat.max 1 (length (extract_chargepoints station)))
                     <$> all_stations) ∧
    (1 ≤ n1 ≤ n2)%nat ∧
    error_log s = log1 ∧
    Forall (λ name, fs_write w name = None) (manifest w).
Proof.
  intros Hrun.
  destruct (scrape_and_export_returns w n1 n2 s Hrun)
    as (all_stations & log1 & stations_data & rows
        & Hex & Hen & Hflat & -> & -> & Hlog & Hfs).
  destruct (enrich_rows_sum _ _ Hen) as [Hlen Hsums].
  destruct (flat_rows_dicts stations_data (enrich_extracted _ _ Hen))
    as (per_station & Hflat' & Hrows).
  rewrite Hflat in Hflat'. injection Hflat' as ->.
  rewrite (length_rows_of_stations _ _ Hrows), Hsums, Hlen.
  exists all_stations, log1. split_and!; try done.
  - apply extract_station_data_nonempty in Hex.
    destruct all_stations; simpl; [done|lia].
  - clear. induction all_stations as [|st l IH]; [done|].
    rewrite fmap_cons. cbn [sum_list_with length id]. lia.
Qed.

Lemma reported_counts_witness :
  ∃ s, scrape_and_export (H := Samples.libs) Samples.refusing_world new_scraper
       = (inr (1%nat, 1%nat), s).
Proof.
  destruct (scrape_and_export (H := Samples.libs) Samples.refusing_world new_scraper)
    as [[e|[n1 n2]] s] eqn:Hrun.
  { by vm_compute in Hrun. }
  destruct (reported_counts (H := Samples.libs) Samples.refusing_world n1 n2 s Hrun)
    as (all_stations & log1 & Hex & -> & -> & _).
  vm_compute in Hex. injection Hex as <- _. by exists s.
Defined.

(** X19. Without a CSRF token the run stops before it looks at any
    response: it returns 1 with "CSRF token not found!" as the only log
    entry of scraping, no file and the session closed, whatever the captured
    traffic holds.  No token means that the page gave none and that the
    first cookie named [XSRF-TOKEN], if there is one, unquotes to the empty
    string. *)
Theorem missing_csrf_token_stops_the_run `{Libs} (w : world) :
  driver_init w = None →
  nonempty (find_csrf_token w) = false →
  run w = (1, cleanup (send_email_notification w false 0 0
                         (Some (Exception csrf_not_found))
                         (Scraper true [LogText csrf_not_found] [] [] false))) ∧
  output_files (run w).2 = [] ∧
  driver_quit (run w).2 = true ∧
  nonempty (csrf_meta w) = false ∧
  (∀ i cookie,
     list_find (λ cookie, cookie.1 = "XSRF-TOKEN") (cookies w) = Some (i, cookie) →
     unquote cookie.2 = EmptyString).
Proof.
  intros Hdrv Htok.
  assert (run w = (1, cleanup (send_email_notification w false 0 0
                                 (Some (Exception csrf_not_found))
                                 (Scraper true [LogText csrf_not_found] [] [] false))))
    as Hrun.
  { unfold run. by rewrite scrape_and_export_no_token. }
  split_and!.
  - done.
  - rewrite Hrun. cbn [snd].
    match goal with |- output_files (cleanup ?s) = _ =>
      destruct (cleanup_keeps s) as (_ & -> & _) end.
    by destruct (send_email_notification_keeps w false 0 0
                   (Some (Exception csrf_not_found))
                   (Scraper true [LogText csrf_not_found] [] [] false)) as (_ & -> & _).
  - rewrite Hrun. cbn [snd].
    match goal with |- driver_quit (cleanup ?s) = _ =>
      destruct (cleanup_keeps s) as (_ & _ & _ & ->) end.
    by destruct (send_email_notification_keeps w false 0 0
                   (Some (Exception csrf_not_found))
                   (Scraper true [LogText csrf_not_found] [] [] false)) as (-> & _).
  - unfold find_csrf_token in Htok.
    destruct (nonempty (csrf_meta w)) eqn:Hmeta; [congruence|done].
  - intros i cookie Hfind. unfold find_csrf_token in Htok.
    destruct (nonempty (csrf_meta w)) eqn:Hmeta; [congruence|].
    rewrite Hfind in Htok. simpl in Htok.
    by apply negb_false_iff, bool_decide_eq_true in Htok.
Qed.

Lemma missing_csrf_token_stops_the_run_witness :
  (run (H := Samples.libs) MoreSamples.tokenless_world).1 = 1.
Proof.
  destruct (missing_csrf_token_stops_the_run (H := Samples.libs)
              MoreSamples.tokenless_world) as (-> & _); reflexivity.
Defined.

(** ** The scroll loop *)

Lemma scroll_loop_spec heights budget i :
  let n := scroll_loop heights budget i (heights i) in
  (i + Nat.min 1 budget ≤ n ≤ i + budget)%nat ∧
  (∀ j, (i ≤ j)%nat → (S j < n)%nat → heights (S j) ≠ heights j) ∧
  ((n < i + budget)%nat → heights n = heights (n - 1)%nat).
Proof.
  revert i. induction budget as [|budget IH]; intros i; simpl.
  { split_and!; lia. }
  case_bool_decide as Hsame.
  - split_and!; try lia. intros _. by replace (S i - 1)%nat with i by lia.
  - destruct (IH (S i)) as (Hn & Hdiff & Hstop). split_and!.
    + lia.
    + lia.
    + intros j Hj Hlt. destruct (decide (j = i)) as [->|Hne]; [done|].
      apply Hdiff; lia.
    + intros Hlt. apply Hstop. lia.
Qed.

(** X20. The scroll loop scrolls at least once and at most ten times.  It
    stops at the first scroll that leaves the page height as it was: every
    earlier scroll changed the height, and a loop that ends before the tenth
    scroll ends on a height equal to the one before. *)
Theorem scroll_loop_stops_at_first_stable_height (heights : nat → Z) :
  (1 ≤ scrolls heights ≤ 10)%nat ∧
  (∀ i, (S i < scrolls heights)%nat → heights (S i) ≠ heights i) ∧
  ((scrolls heights < 10)%nat →
   heights (scrolls heights) = heights (scrolls heights - 1)%nat).
Proof.
  destruct (scroll_loop_spec heights 10 0) as (Hn & Hdiff & Hstop).
  cbn [Nat.min Nat.add] in Hn. unfold scrolls. split_and!.
  - lia.
  - lia.
  - intros i. apply Hdiff. lia.
  - exact Hstop.
Qed.

Lemma scroll_loop_stops_at_first_stable_height_witness :
  (scrolls (λ i, Z.of_nat (Nat.min i 3)) < 10)%nat ∧
  Z.of_nat (Nat.min (scrolls (λ i, Z.of_nat (Nat.min i 3))) 3)
  = Z.of_nat (Nat.min (scrolls (λ i, Z.of_nat (Nat.min i 3)) - 1) 3).
Proof.
  destruct (scroll_loop_stops_at_first_stable_height (λ i, Z.of_nat (Nat.min i 3)))
    as (_ & _ & Hstop).
  assert (scrolls (λ i, Z.of_nat (Nat.min i 3)) < 10)%nat as Hlt by (vm_compute; lia).
  split; [exact Hlt|exact (Hstop Hlt)].
Defined.

(** ** The text operations of the simple scraper *)

Module SimpleFacts.
Import Simple.

Lemma prefix_app sub s : String.prefix sub s = true ↔ ∃ t, s = sub +:+ t.
Proof.
  revert s. induction sub as [|a sub IH]; intros s.
  - split; [intros _; by exists s|by destruct s].
  - destruct s as [|b s]; simpl.
    + split; [done|]. by intros [t ?].
    + destruct (Ascii.ascii_dec a b) as [->|Hne].
      * rewrite IH. split; intros [t Ht]; exists t; [by rewrite Ht|by injection Ht].
      * split; [done|]. intros [t Ht]. injection Ht as ? ?. congruence.
Qed.

Lemma prefix_take sub n s :
  String.prefix sub (str_take n s) = true → String.prefix sub s = true.
Proof.
  revert n s. induction sub as [|a sub IH]; intros n s; [by destruct s|].
  destruct n as [|n], s as [|b s]; simpl; try done.
  destruct (Ascii.ascii_dec a b); [apply IH|done].
Qed.

Lemma str_contains_take sub n s :
  str_contains sub (str_take n s) = true → str_contains sub s = true.
Proof.
  revert n. induction s as [|b s IH]; intros n.
  - by destruct n.
  - destruct n as [|n].
    + cbn [str_take str_contains]. rewrite orb_false_r. intros Hp.
      apply orb_true_iff. left. destruct sub; [done|done].
    + cbn [str_take str_contains]. rewrite !orb_true_iff. intros [Hp|Hc].
      * left. by apply (prefix_take sub (S n) (String b s)).
      * right. by eapply IH.
Qed.

Lemma first_index_contains sub s :
  str_contains sub s = true ↔ is_Some (first_index sub s).
Proof.
  induction s as [|b s IH]; cbn [str_contains first_index].
  - rewrite orb_false_r. destruct (String.prefix sub ""); [by split; eauto|].
    split; [done|]. by intros [? ?].
  - destruct (String.prefix sub (String b s)); simpl; [by split; eauto|].
    rewrite IH, fmap_is_Some. done.
Qed.

Lemma first_index_None sub s :
  first_index sub s = None ↔ str_contains sub s = false.
Proof.
  rewrite <- not_true_iff_false, first_index_contains, eq_None_not_Some. done.
Qed.

Lemma length_str_drop n s :
  String.length (str_drop n s) = (String.length s - n)%nat.
Proof.
  revert s. induction n as [|n IH]; intros [|b s]; simpl; done.
Qed.

Lemma length_append s t :
  String.length (s +:+ t) = (String.length s + String.length t)%nat.
Proof. induction s as [|a s IH]; simpl; [done|by rewrite IH]. Qed.

Lemma str_drop_app s t : str_drop (String.length s) (s +:+ t) = t.
Proof. induction s as [|a s IH]; simpl; [by destruct t|done]. Qed.

Lemma first_index_split sub s i :
  first_index sub s = Some i →
  s = str_take i s +:+ sub +:+ str_drop (i + String.length sub) s ∧
  String.length (str_take i s) = i.
Proof.
  revert i. induction s as [|b s IH]; intros i; cbn [first_index].
  - destruct (String.prefix sub "") eqn:Hp; [|done]. intros [= <-].
    destruct sub; [done|done].
  - destruct (String.prefix sub (String b s)) eqn:Hp.
    + intros [= <-]. apply prefix_app in Hp as [t Ht]. split; [|done].
      rewrite Ht. cbn [str_take Nat.add]. by rewrite str_drop_app.
    + destruct (first_index sub s) as [j|]; [|done]. intros [= <-].
      destruct (IH j eq_refl) as [Hs Hl]. split; [|by simpl; rewrite Hl].
      change (String b s
              = String b (str_take j s +:+ sub +:+ str_drop (j + String.length sub) s)).
      by rewrite <- Hs.
Qed.

Lemma first_index_take sub s i :
  sub ≠ EmptyString → first_index sub s = Some i →
  str_contains sub (str_take i s) = false.
Proof.
  intros Hsub. revert i. induction s as [|b s IH]; intros i; cbn [first_index].
  - destruct (String.prefix sub "") eqn:Hp; [|done]. intros [= <-]. by destruct sub.
  - destruct (String.prefix sub (String b s)) eqn:Hp.
    + intros [= <-]. by destruct sub.
    + destruct (first_index sub s) as [j|] eqn:Hj; [|done]. intros [= <-].
      cbn [str_take str_contains]. rewrite (IH j eq_refl), orb_false_r.
      apply not_true_iff_false. intros Hp'.
      apply (prefix_take sub (S j) (String b s)) in Hp'. congruence.
Qed.

Lemma find_from (s sub : string) (start : nat) :
  (start ≤ String.length s)%nat →
  find s sub (Z.of_nat start)
  = match first_index sub (str_drop start s) with
    | Some i => Z.of_nat (start + i)
    | None => -1
    end.
Proof.
  intros Hle. unfold find, clamp.
  rewrite (proj2 (Z.ltb_ge _ _)) by lia.
  rewrite (proj2 (Z.ltb_ge _ _)) by lia.
  rewrite Z.min_r by lia. rewrite Nat2Z.id.
  destruct (first_index _ _); [lia|done].
Qed.

Lemma slice_between (s : string) (start stop : nat) :
  (start ≤ stop ≤ String.length s)%nat →
  slice s (Z.of_nat start) (Z.of_nat stop) = str_take (stop - start) (str_drop start s).
Proof.
  intros Hle. unfold slice, clamp.
  rewrite !(proj2 (Z.ltb_ge _ _)) by lia.
  rewrite !Z.min_r by lia. rewrite Nat2Z.id. f_equal.
  rewrite <- Nat2Z.inj_sub by lia. apply Nat2Z.id.
Qed.

Lemma slice_but_last (s : string) (start : nat) :
  (start ≤ String.length s)%nat →
  slice s (Z.of_nat start) (-1)
  = str_take (String.length (str_drop start s) - 1) (str_drop start s).
Proof.
  intros Hle. unfold slice, clamp. rewrite length_str_drop.
  rewrite (proj2 (Z.ltb_ge (Z.of_nat start) 0)) by lia.
  rewrite (proj2 (Z.ltb_lt (-1) 0)) by lia.
  rewrite Z.min_r by lia. rewrite Nat2Z.id. f_equal. lia.
Qed.

End SimpleFacts.

(** X21. The text handed to [json.loads] starts right after the first
    occurrence of the marker and never holds a semicolon: it ends before the
    first semicolon that follows the marker, and when none follows it is the
    rest of the script without its last character. *)
Theorem json_str_stops_at_first_semicolon (script_content : string) :
  str_contains Simple.start_marker script_content = true →
  ∃ before rest,
    script_content = before +:+ Simple.start_marker +:+ rest ∧
    Simple.first_index Simple.start_marker script_content = Some (String.length before) ∧
    str_contains ";" (Simple.json_str script_content) = false ∧
    ((∃ tail, rest = Simple.json_str script_content +:+ ";" +:+ tail) ∨
     (str_contains ";" rest = false ∧
      Simple.json_str script_content
      = Simple.str_take (String.length rest - 1) rest)).
Proof.
  intros Hin. apply SimpleFacts.first_index_contains in Hin as [i Hi].
  destruct (SimpleFacts.first_index_split _ _ _ Hi) as [Hsplit Hlen].
  set (before := Simple.str_take i script_content) in *.
  set (rest := Simple.str_drop (i + String.length Simple.start_marker) script_content) in *.
  assert (i + String.length Simple.start_marker ≤ String.length script_content)%nat as Hle.
  { rewrite Hsplit, !SimpleFacts.length_append, Hlen. lia. }
  exists before, rest. split; [done|]. split; [by rewrite Hlen|].
  unfold Simple.json_str.
  replace (Simple.find script_content Simple.start_marker 0) with (Z.of_nat i).
  2:{ change 0 with (Z.of_nat 0).
      rewrite (SimpleFacts.find_from script_content Simple.start_marker 0) by lia.
      cbn [Simple.str_drop]. by rewrite Hi. }
  rewrite <- Nat2Z.inj_add, SimpleFacts.find_from by done. fold rest.
  destruct (Simple.first_index ";" rest) as [j|] eqn:Hj.
  - destruct (SimpleFacts.first_index_split _ _ _ Hj) as [Hrest Hlenj].
    assert (j + 1 ≤ String.length rest)%nat as Hjle.
    { rewrite Hrest, !SimpleFacts.length_append, Hlenj. simpl. lia. }
    unfold rest in Hjle. rewrite SimpleFacts.length_str_drop in Hjle.
    rewrite SimpleFacts.slice_between by lia. fold rest.
    replace (i + String.length Simple.start_marker + j
             - (i + String.length Simple.start_marker))%nat with j by lia.
    split; [by apply SimpleFacts.first_index_take|].
    left. eexists. exact Hrest.
  - rewrite SimpleFacts.slice_but_last by done. fold rest.
    apply SimpleFacts.first_index_None in Hj.
    split; [|by right].
    apply not_true_iff_false. intros Hc.
    apply SimpleFacts.str_contains_take in Hc. congruence.
Qed.

Lemma json_str_stops_at_first_semicolon_witness :
  str_contains ";" (Simple.json_str Simple.sample_script) = false ∧
  Simple.json_str Simple.sample_script = "{chargepoints: [a, b]}" ∧
  Simple.json_str Simple.bare_script = "{chargepoints: []".
Proof.
  destruct (json_str_stops_at_first_semicolon Simple.sample_script)
    as (before & rest & _ & _ & Hno & _); [reflexivity|].
  split; [exact Hno|]. split; reflexivity.
Defined.

(** ** The aggregator of the simple scraper *)

Lemma reachable_values m :
  reachable m →
  ∃ ks, NoDup ks ∧
        Forall2 (λ k station,
                   station_identity station = Some k ∧
                   ∃ l, chargepoints_of station = Some l ∧ l ≠ [] ∧
                        Forall (λ e, entry_identity e = Some k) l)
                ks (station_values m).
Proof.
  intros (es & _ & Hagg).
  pose proof (aggregated_values _ _ Hagg) as Hvals.
  exists (first_seen (omap entry_identity es)). split; [apply NoDup_first_seen|].
  apply Forall2_same_length_lookup. split; [by eapply Forall2_length|].
  intros i k st Hk Hi.
  destruct (Forall2_lookup_lr _ _ _ _ _ _ Hvals Hk Hi) as [Hid Hcps].
  split; [done|]. exists (referencing k es). split; [done|].
  apply referencing_known, elem_of_first_seen, list_elem_of_lookup. eauto.
Qed.

Lemma reachable_nil : reachable [].
Proof. exists []. split; [constructor|apply aggregated_nil]. Qed.

Lemma process_json_data_payload json_data :
  Simple.process_json_data json_data
  = match process_payload [] (JDict [("props", json_data)]) with
    | (m, None) => inr (station_values m)
    | (_, Some e) => inl e
    end.
Proof.
  unfold Simple.process_json_data, process_payload, payload_entries.
  cbn [Dict.lookup]. rewrite decide_True by done.
  destruct (py_contains "chargepoints" json_data) as [e|[]]; simpl; [done| |done].
  destruct (py_index json_data "chargepoints") as [e|cps]; simpl; [done|].
  destruct (py_iter cps) as [e|l]; simpl; done.
Qed.

Lemma payload_entries_props_list data es :
  Dict.lookup data "chargepoints" = Some (JList es) →
  payload_entries (JDict [("props", JDict data)]) = inr (Some es).
Proof.
  intros Hcps. unfold payload_entries. cbn [Dict.lookup].
  rewrite decide_True by done. cbn [py_contains]. unfold Dict.mem.
  rewrite Hcps, bool_decide_eq_true_2 by eauto. simpl. by rewrite Hcps.
Qed.

Lemma add_chargepoints_raises_at m m' good bad rest e :
  add_chargepoints m good = (m', None) →
  add_chargepoint m' bad = inl e →
  add_chargepoints m (good ++ bad :: rest) = (m', Some e).
Proof.
  revert m. induction good as [|cp good IH]; intros m; simpl.
  - intros [= ->] Hbad. by rewrite Hbad.
  - destruct (add_chargepoint m cp) as [e'|m1]; [done|]. apply IH.
Qed.

(** X22. What [process_json_data] returns is well formed in the way the
    stations of the main scraper are: one record per identity, all
    different, each with a non-empty list of entries that reference it.  The
    main scraper extracts the same stations from a response whose payload
    holds the same data under [props]. *)
Theorem simple_aggregator_agrees_with_main `{Libs}
    (json_data : json) (stations : list dict) :
  Simple.process_json_data json_data = inr stations →
  (∃ ks, NoDup ks ∧
         Forall2 (λ k station,
                    station_identity station = Some k ∧
                    ∃ l, chargepoints_of station = Some l ∧ l ≠ [] ∧
                         Forall (λ e, entry_identity e = Some k) l)
                 ks stations) ∧
  (∀ req resp log0,
     json_response req = Some resp →
     json_loads (decode_body (resp_body resp)) = inr (JDict [("props", json_data)]) →
     stations ≠ [] →
     extract_station_data [req] log0 = (inr stations, log0)).
Proof.
  rewrite process_json_data_payload.
  destruct (process_payload [] (JDict [("props", json_data)])) as [m [e|]] eqn:Hp; [done|].
  intros [= <-]. split.
  - apply reachable_values.
    pose proof (process_payload_reachable [] (JDict [("props", json_data)]) reachable_nil)
      as Hr.
    by rewrite Hp in Hr.
  - intros req resp log0 Hresp Hloads Hne.
    unfold extract_station_data. cbn [foldl]. unfold process_request.
    rewrite Hresp, Hloads. cbn [fst snd]. rewrite Hp. cbn [fst snd].
    by destruct (station_values m).
Qed.

Lemma simple_aggregator_agrees_with_main_witness :
  extract_station_data (H := Samples.libs) [json_request "page-1"] []
  = (Simple.process_json_data
       (JDict [("chargepoints", JList [Samples.cp_a; Samples.cp_b])]), []).
Proof.
  destruct (simple_aggregator_agrees_with_main (H := Samples.libs)
              (JDict [("chargepoints", JList [Samples.cp_a; Samples.cp_b])])
              (MoreSamples.stations_of [json_request "page-1"]))
    as [_ Hmain]; [reflexivity|].
  rewrite (Hmain (json_request "page-1")
             (Response (Some "application/json; charset=utf-8")
                       (String.list_byte_of_string "page-1")) []);
    [reflexivity|reflexivity|reflexivity|by vm_compute].
Defined.

(** X23. An entry that raises costs the simple scraper the whole script:
    [process_json_data] raises, the stations gathered from the entries
    before it are lost, and the loop over the scripts goes on as if the
    script were not there.  (The main scraper keeps them.) *)
Theorem simple_aggregator_loses_raising_payload `{Libs}
    (data : dict) (good rest : list json) (bad : json)
    (m : stations_dict) (e : exn) :
  Dict.lookup data "chargepoints" = Some (JList (good ++ bad :: rest)) →
  add_chargepoints [] good = (m, None) →
  add_chargepoint m bad = inl e →
  Simple.process_json_data (JDict data) = inl e ∧
  (∀ script_content later,
     json_loads (Simple.json_str script_content) = inr (JDict data) →
     Simple.scan_scripts (inr (Some script_content) :: later)
     = Simple.scan_scripts later) ∧
  (process_payload [] (JDict [("props", JDict data)])).1 = m.
Proof.
  intros Hcps Hgood Hbad.
  pose proof (add_chargepoints_raises_at _ _ _ _ rest _ Hgood Hbad) as Hwalk.
  assert (process_payload [] (JDict [("props", JDict data)]) = (m, Some e)) as Hpay.
  { unfold process_payload. by rewrite (payload_entries_props_list _ _ Hcps). }
  assert (Simple.process_json_data (JDict data) = inl e) as Hraise.
  { by rewrite process_json_data_payload, Hpay. }
  split_and!; [done| |by rewrite Hpay].
  intros script_content later Hloads. cbn [Simple.scan_scripts].
  destruct (Simple.mentions_chargepoints (Some script_content)); [|done].
  cbn [default from_option id]. unfold Simple.script_data.
  destruct (str_contains Simple.start_marker script_content); [|done].
  rewrite Hloads.
  destruct (Dict.mem data "chargepoints"); [|done]. by rewrite Hraise.
Qed.

Lemma simple_aggregator_loses_raising_payload_witness :
  Simple.process_json_data
    (JDict [("chargepoints", JList [Samples.cp_a; JNum 7; Samples.cp_b])])
  = inl TypeError.
Proof.
  apply (simple_aggregator_loses_raising_payload (H := Samples.libs)
           [("chargepoints", JList [Samples.cp_a; JNum 7; Samples.cp_b])]
           [Samples.cp_a] [Samples.cp_b] (JNum 7)
           (add_chargepoints [] [Samples.cp_a]).1 TypeError);
    reflexivity.
Defined.

(** ** The loop over the scripts *)

Lemma scan_scripts_passed_over `{Libs} before later :
  Forall Simple.passed_over before →
  Simple.scan_scripts (before ++ later) = Simple.scan_scripts later.
Proof.
  induction 1 as [|element before (script_content & -> & Hskip) _ IH]; [done|].
  cbn [app Simple.scan_scripts]. destruct Hskip as [->| ->].
  - done.
  - by destruct (Simple.mentions_chargepoints script_content).
Qed.

(** X24. The first script that yields stations decides: the scripts before
    it were passed over, and what comes after it is never read, also when
    it yields no station at all. *)
Theorem first_yielding_script_decides `{Libs} (w : Simple.world)
    (before later : list (exn + option string)) (script_content : string)
    (stations : list dict) :
  Simple.scripts w = inr (before ++ inr (Some script_content) :: later) →
  Forall Simple.passed_over before →
  Simple.mentions_chargepoints (Some script_content) = true →
  Simple.script_data script_content = Some stations →
  Simple.extract_data_from_page w = stations.
Proof.
  intros Hscripts Hbefore Hguard Hdata. unfold Simple.extract_data_from_page.
  rewrite Hscripts, scan_scripts_passed_over by done.
  cbn [Simple.scan_scripts]. rewrite Hguard. cbn [default from_option id].
  by rewrite Hdata.
Qed.

Lemma first_yielding_script_decides_witness :
  length (Simple.extract_data_from_page (H := Simple.sample_libs)
            (Simple.sample_world
               [inr None; inr (Some "var chargepoints = 0;");
                inr (Some Simple.sample_script); inl (Exception "stale element")]))
  = 2%nat.
Proof.
  rewrite (first_yielding_script_decides (H := Simple.sample_libs)
             (Simple.sample_world
                [inr None; inr (Some "var chargepoints = 0;");
                 inr (Some Simple.sample_script); inl (Exception "stale element")])
             [inr None; inr (Some "var chargepoints = 0;")]
             [inl (Exception "stale element")] Simple.sample_script
             (station_values (add_chargepoints [] [Samples.cp_a; Samples.cp_b]).1)).
  - reflexivity.
  - reflexivity.
  - repeat constructor.
    + exists None. split; [done|]. by left.
    + exists (Some "var chargepoints = 0;"). split; [done|]. by right.
  - reflexivity.
  - reflexivity.
Defined.

(** X25. Stations of the page always come out of [process_json_data]: when
    [extract_data_from_page] returns some, a script sits behind them whose
    text names [chargepoints] and holds the marker, whose slice parses to a
    dict with [chargepoints], and every script before it was passed over.
    An exception of the driver never yields stations. *)
Theorem page_stations_come_from_a_script `{Libs} (w : Simple.world) :
  Simple.extract_data_from_page w ≠ [] →
  ∃ before script_content later data,
    Simple.scripts w = inr (before ++ inr (Some script_content) :: later) ∧
    Forall Simple.passed_over before ∧
    str_contains "chargepoints" script_content = true ∧
    str_contains Simple.start_marker script_content = true ∧
    json_loads (Simple.json_str script_content) = inr (JDict data) ∧
    Dict.mem data "chargepoints" = true ∧
    Simple.process_json_data (JDict data) = inr (Simple.extract_data_from_page w).
Proof.
  unfold Simple.extract_data_from_page.
  destruct (Simple.scripts w) as [e|elements]; [done|].
  induction elements as [|[e|script_content] elements IH]; cbn [Simple.scan_scripts];
    [done|done|].
  destruct (Simple.mentions_chargepoints script_content) eqn:Hguard.
  - destruct (Simple.script_data (default "" script_content)) as [stations|] eqn:Hdata.
    + intros _. unfold Simple.mentions_chargepoints in Hguard.
      destruct script_content as [script_content|]; [|done].
      cbn [default from_option id] in *.
      apply andb_true_iff in Hguard as [_ Hnames].
      unfold Simple.script_data in Hdata.
      destruct (str_contains Simple.start_marker script_content) eqn:Hmarker; [|done].
      destruct (json_loads (Simple.json_str script_content)) as [e|[| | | | |data]]
        eqn:Hloads; try done.
      destruct (Dict.mem data "chargepoints") eqn:Hmem; [|done].
      destruct (Simple.process_json_data (JDict data)) as [e|stations'] eqn:Hp; [done|].
      injection Hdata as ->.
      exists [], script_content, elements, data. by split_and!.
    + intros Hne. destruct (IH Hne) as (before & c & later & data & [= ->] & Hskip & Hrest).
      exists (inr script_content :: before), c, later, data. split; [done|].
      split; [|done]. constructor; [|done]. exists script_content. eauto.
  - intros Hne. destruct (IH Hne) as (before & c & later & data & [= ->] & Hskip & Hrest).
    exists (inr script_content :: before), c, later, data. split; [done|].
    split; [|done]. constructor; [|done]. exists script_content. eauto.
Qed.

Lemma page_stations_come_from_a_script_witness :
  ∃ script_content,
    inr (Some script_content)
    ∈ [inr None; inr (Some Simple.sample_script)
       : exn + option string] ∧
    str_contains Simple.start_marker script_content = true.
Proof.
  destruct (page_stations_come_from_a_script (H := Simple.sample_libs)
              (Simple.sample_world [inr None; inr (Some Simple.sample_script)]))
    as (before & script_content & later & data & Hscripts & _ & _ & Hmarker & _).
  - by vm_compute.
  - exists script_content. split; [|done].
    injection Hscripts as ->. apply elem_of_app. right. left.
Defined.

(** ** The run of the simple scraper *)

Section simple_run.
Context `{Libs}.

Lemma scraped_or_mock_cases (w : Simple.world) :
  Simple.scraped_or_mock w ≠ [] ∧
  (Simple.page_get w = None → Simple.scroll w = None →
   Simple.extract_data_from_page w ≠ [] →
   Simple.scraped_or_mock w = Simple.extract_data_from_page w) ∧
  (Simple.page_get w ≠ None ∨ Simple.scroll w ≠ None ∨
   Simple.extract_data_from_page w = [] →
   Simple.scraped_or_mock w = Simple.create_mock_data).
Proof.
  unfold Simple.scraped_or_mock, Simple.scrape_evcs_data, Simple.try_api_call.
  destruct (Simple.page_get w); [by split_and!|].
  destruct (Simple.scroll w); [by split_and!|].
  destruct (Simple.extract_data_from_page w) as [|station stations];
    [by split_and!|].
  split_and!; [done|done|]. by intros [?|[?|?]].
Qed.

Local Opaque Simple.scraped_or_mock String.append.

Ltac simple_stages w :=
  unfold Simple.run, Simple.scrape_and_export, Simple.setup_driver,
    Simple.save_json_data, Simple.process_and_export_data, Simple.write_file,
    Simple.add_output_files, Simple.new_scraper, Simple.manifest;
  destruct (Simple.chrome_init w) as [chrome_error|] eqn:Hchrome;
  [destruct (Simple.edge_init w) as [edge_error|] eqn:Hedge|];
  cbn [Simple.driver Simple.error_log Simple.output_files Simple.disk Simple.outbox
       Simple.driver_quit fst snd];
  repeat (match goal with
          | |- context [match Simple.fs_write w ?f with _ => _ end] =>
              destruct (Simple.fs_write w f) eqn:?
          end;
          cbn [Simple.driver Simple.error_log Simple.output_files Simple.disk
               Simple.outbox Simple.driver_quit fst snd app]).

Ltac close_case n :=
  exists n; split_and!;
  [ lia | done | done
  | split; [first [done | by intros [? ?]] | first [done | intros _; eauto]]
  | split;
    [ first [done | intros _; split; [eauto | by repeat constructor]]
    | first [done | intros [Hd Hall]; rewrite ?Forall_cons in Hall;
                    first [ destruct Hd; congruence
                          | destruct Hall as (? & ? & ? & _); congruence ]] ]
  | eauto | done | done | done | done ].

Lemma simple_send_email_notification_keeps w success n1 n2 details s :
  Simple.driver (Simple.send_email_notification w success n1 n2 details s)
  = Simple.driver s ∧
  Simple.error_log (Simple.send_email_notification w success n1 n2 details s)
  = Simple.error_log s ∧
  Simple.output_files (Simple.send_email_notification w success n1 n2 details s)
  = Simple.output_files s ∧
  Simple.disk (Simple.send_email_notification w success n1 n2 details s)
  = Simple.disk s ∧
  Simple.driver_quit (Simple.send_email_notification w success n1 n2 details s)
  = Simple.driver_quit s.
Proof.
  unfold Simple.send_email_notification.
  destruct (_ || _); [done|]. by destruct (Simple.email_dispatch w _).
Qed.

Lemma simple_cleanup_keeps s :
  Simple.driver (Simple.cleanup s) = Simple.driver s ∧
  Simple.error_log (Simple.cleanup s) = Simple.error_log s ∧
  Simple.output_files (Simple.cleanup s) = Simple.output_files s ∧
  Simple.disk (Simple.cleanup s) = Simple.disk s ∧
  Simple.outbox (Simple.cleanup s) = Simple.outbox s ∧
  Simple.driver_quit (Simple.cleanup s)
  = (bool_decide (is_Some (Simple.driver s)) || Simple.driver_quit s).
Proof.
  unfold Simple.cleanup. destruct s as [[d|] ? ? ? ? q]; simpl; [done|].
  by destruct q.
Qed.

(** The state in which the [try] block of [run] ends. *)
Lemma simple_scrape_and_export_state w :
  ∃ n,
    (n ≤ 3)%nat ∧
    Simple.disk (Simple.scrape_and_export w Simple.new_scraper).2
    = (λ name, (name, Simple.scraped_or_mock w)) <$> take n (Simple.manifest w) ∧
    Simple.output_files (Simple.scrape_and_export w Simple.new_scraper).2
    = take (if decide (n = 2%nat) then 1%nat else n) (Simple.manifest w) ∧
    ((∃ counts, (Simple.scrape_and_export w Simple.new_scraper).1 = inr counts)
     ↔ n = 3%nat) ∧
    (n = 3%nat ↔
     (Simple.chrome_init w = None ∨ Simple.edge_init w = None) ∧
     Forall (λ name, Simple.fs_write w name = None) (Simple.manifest w)) ∧
    ((Simple.scrape_and_export w Simple.new_scraper).1
     = inr (length (Simple.scraped_or_mock w), length (Simple.scraped_or_mock w))
     ∨ ∃ e, (Simple.scrape_and_export w Simple.new_scraper).1 = inl e) ∧
    Simple.outbox (Simple.scrape_and_export w Simple.new_scraper).2 = [] ∧
    Simple.driver_quit (Simple.scrape_and_export w Simple.new_scraper).2 = false ∧
    Simple.driver (Simple.scrape_and_export w Simple.new_scraper).2
    = match Simple.chrome_init w, Simple.edge_init w with
      | None, _ => Some Simple.Chrome
      | Some _, None => Some Simple.Edge
      | Some _, Some _ => None
      end ∧
    Simple.error_log (Simple.scrape_and_export w Simple.new_scraper).2
    = match Simple.chrome_init w, Simple.edge_init w with
      | Some _, Some e => [e]
      | _, _ => []
      end.
Proof.
  simple_stages w.
  - close_case 0%nat.
  - close_case 0%nat.
  - close_case 1%nat.
  - close_case 2%nat.
  - close_case 3%nat.
  - close_case 0%nat.
  - close_case 1%nat.
  - close_case 2%nat.
  - close_case 3%nat.
Qed.

Lemma simple_run_final_state w :
  ∃ success n1 n2 details,
    (Simple.run w).2
    = Simple.cleanup (Simple.send_email_notification w success n1 n2 details
                        (Simple.scrape_and_export w Simple.new_scraper).2) ∧
    success = bool_decide ((Simple.run w).1 = 0) ∧
    ((Simple.run w).1 = 0
     ↔ ∃ counts, (Simple.scrape_and_export w Simple.new_scraper).1 = inr counts) ∧
    (∀ counts, (Simple.scrape_and_export w Simple.new_scraper).1 = inr counts →
               n1 = counts.1 ∧ details = None) ∧
    (∀ e, (Simple.scrape_and_export w Simple.new_scraper).1 = inl e →
          (Simple.run w).1 = 1 ∧ details = Some e).
Proof.
  unfold Simple.run.
  destruct (Simple.scrape_and_export w Simple.new_scraper) as [[e|[n1 n2]] s].
  - exists false, 0%nat, 0%nat, (Some e). split_and!; try done.
    + split; [done|]. by intros [? ?].
    + by intros e' [= ->].
  - exists true, n1, n2, None. split_and!; try done.
    + split; [eauto|done].
    + by intros counts [= <-].
Qed.

Local Transparent Simple.scraped_or_mock String.append.

End simple_run.

(** X26. The simple scraper never fails for lack of data.  The stations it
    goes on with are never empty: they are those of the page, when the page
    loaded, the scrolling went through and a script yielded some, and the
    two sample stations in every other case.  The run returns 0 exactly when
    a browser started and the three files could be written, and every file
    it wrote, registered or not, was written from those stations. *)
Theorem simple_run_never_lacks_data `{Libs} (w : Simple.world) :
  Simple.scraped_or_mock w ≠ [] ∧
  (Simple.page_get w = None → Simple.scroll w = None →
   Simple.extract_data_from_page w ≠ [] →
   Simple.scraped_or_mock w = Simple.extract_data_from_page w) ∧
  (Simple.page_get w ≠ None ∨ Simple.scroll w ≠ None ∨
   Simple.extract_data_from_page w = [] →
   Simple.scraped_or_mock w = Simple.create_mock_data) ∧
  ((Simple.run w).1 = 0 ↔
   (Simple.chrome_init w = None ∨ Simple.edge_init w = None) ∧
   Forall (λ name, Simple.fs_write w name = None) (Simple.manifest w)) ∧
  ∃ n, (n ≤ 3)%nat ∧
       Simple.disk (Simple.run w).2
       = (λ name, (name, Simple.scraped_or_mock w)) <$> take n (Simple.manifest w) ∧
       Simple.output_files (Simple.run w).2
       = take (if decide (n = 2%nat) then 1%nat else n) (Simple.manifest w).
Proof.
  destruct (scraped_or_mock_cases w) as (Hne & Hpage & Hmock).
  destruct (simple_scrape_and_export_state w)
    as (n & Hn & Hdisk & Hfiles & Hret & Hall & _).
  destruct (simple_run_final_state w)
    as (success & n1 & n2 & details & Hfinal & _ & Hzero & _).
  split_and!; [done|done|done|by rewrite Hzero, Hret|].
  exists n. rewrite Hfinal. split; [done|].
  destruct (simple_cleanup_keeps
              (Simple.send_email_notification w success n1 n2 details
                 (Simple.scrape_and_export w Simple.new_scraper).2))
    as (_ & _ & -> & -> & _).
  destruct (simple_send_email_notification_keeps w success n1 n2 details
              (Simple.scrape_and_export w Simple.new_scraper).2)
    as (_ & _ & -> & -> & _).
  done.
Qed.

(** X27. Edge is tried only when Chrome does not start.  The browser of
    the run is Chrome when Chrome starts, Edge when only Edge does, and it is
    closed at the end exactly when there is one.  When neither starts the
    run returns 1 having written nothing, the error log holds the exception
    of Edge alone, and that of Chrome is lost. *)
Theorem simple_driver_falls_back_to_edge `{Libs} (w : Simple.world) :
  Simple.driver (Simple.run w).2
  = match Simple.chrome_init w, Simple.edge_init w with
    | None, _ => Some Simple.Chrome
    | Some _, None => Some Simple.Edge
    | Some _, Some _ => None
    end ∧
  (Simple.driver_quit (Simple.run w).2 = true
   ↔ Simple.chrome_init w = None ∨ Simple.edge_init w = None) ∧
  Simple.error_log (Simple.run w).2
  = match Simple.chrome_init w, Simple.edge_init w with
    | Some _, Some e => [e]
    | _, _ => []
    end ∧
  (is_Some (Simple.chrome_init w) ∧ is_Some (Simple.edge_init w) →
   (Simple.run w).1 = 1 ∧ Simple.disk (Simple.run w).2 = []).
Proof.
  destruct (simple_scrape_and_export_state w)
    as (n & Hn & Hdisk & Hfiles & Hret & Hall & Hres & _ & Hquit & Hdriver & Hlog).
  destruct (simple_run_final_state w)
    as (success & n1 & n2 & details & Hfinal & _ & Hzero & _ & Hone).
  assert (Simple.disk (Simple.run w).2
          = Simple.disk (Simple.scrape_and_export w Simple.new_scraper).2) as Hd.
  { rewrite Hfinal.
    destruct (simple_cleanup_keeps
                (Simple.send_email_notification w success n1 n2 details
                   (Simple.scrape_and_export w Simple.new_scraper).2))
      as (_ & _ & _ & -> & _).
    by destruct (simple_send_email_notification_keeps w success n1 n2 details
                   (Simple.scrape_and_export w Simple.new_scraper).2)
      as (_ & _ & _ & -> & _). }
  rewrite Hd. clear Hd. rewrite Hfinal.
  destruct (simple_cleanup_keeps
              (Simple.send_email_notification w success n1 n2 details
                 (Simple.scrape_and_export w Simple.new_scraper).2))
    as (-> & -> & _ & _ & _ & ->).
  destruct (simple_send_email_notification_keeps w success n1 n2 details
              (Simple.scrape_and_export w Simple.new_scraper).2)
    as (-> & -> & _ & _ & ->).
  rewrite Hdriver, Hlog, Hquit, orb_false_r.
  split_and!; [done| |done|].
  - rewrite bool_decide_eq_true.
    destruct (Simple.chrome_init w), (Simple.edge_init w);
      (split; [intros [? [=]]|intros [[=]|[=]]]); eauto.
  - intros [[e1 He1] [e2 He2]].
    assert (n = 0%nat) as ->.
    { destruct (decide (n = 0%nat)) as [|Hn0]; [done|].
      assert (Simple.disk (Simple.scrape_and_export w Simple.new_scraper).2 = [])
        as Hnil.
      { unfold Simple.scrape_and_export, Simple.setup_driver. by rewrite He1, He2. }
      rewrite Hnil in Hdisk. destruct n; [done|]. done. }
    split; [|by rewrite Hdisk].
    destruct Hres as [Hres|[e Hres]].
    + assert (0%nat = 3%nat) as [=]. apply Hret. eauto.
    + by apply (Hone e).
Qed.

Lemma simple_run_never_lacks_data_witness :
  (Simple.run (H := Simple.sample_libs) (Simple.sample_world [])).1 = 0 ∧
  Simple.scraped_or_mock (H := Simple.sample_libs) (Simple.sample_world [])
  = Simple.create_mock_data.
Proof.
  destruct (simple_run_never_lacks_data (H := Simple.sample_libs) (Simple.sample_world []))
    as (_ & _ & Hmock & Hzero & _).
  split.
  - apply Hzero. split; [by right|]. by repeat constructor.
  - apply Hmock. right. by right.
Defined.

Lemma simple_driver_falls_back_to_edge_witness :
  (Simple.run (H := Simple.sample_libs)
     (Simple.World (Some (Exception "chrome not reachable"))
                   (Some (Exception "msedgedriver not found")) None None (inr [])
                   "July_27_2025_08_00" (λ _, None) (λ _, true) None false
                   (λ _, None))).1 = 1.
Proof.
  destruct (simple_driver_falls_back_to_edge (H := Simple.sample_libs)
              (Simple.World (Some (Exception "chrome not reachable"))
                            (Some (Exception "msedgedriver not found")) None None
                            (inr []) "July_27_2025_08_00" (λ _, None) (λ _, true)
                            None false (λ _, None)))
    as (_ & _ & _ & Hboth).
  apply Hboth. split; eexists; reflexivity.
Defined.

(** X28. A run of the simple scraper sends at most one message, whose
    success flag agrees with the exit code.  A success message reports the
    number of stations the run went on with, so two when nothing was
    scraped, carries no error, and attaches the files of the manifest that
    exist. *)
Theorem simple_success_message_counts_the_stations `{Libs} (w : Simple.world) :
  (Simple.outbox (Simple.run w).2 = [] ∨
   ∃ msg, Simple.outbox (Simple.run w).2 = [msg] ∧
          Simple.email_success msg = bool_decide ((Simple.run w).1 = 0)) ∧
  ((Simple.run w).1 = 0 →
   ∀ msg, msg ∈ Simple.outbox (Simple.run w).2 →
     msg = Simple.Email true (length (Simple.scraped_or_mock w)) None
             (filter (λ file_path, Simple.file_exists w file_path = true)
                     (Simple.manifest w))).
Proof.
  destruct (simple_scrape_and_export_state w)
    as (n & Hn & Hdisk & Hfiles & Hret & Hall & Hres & Hout & _).
  destruct (simple_run_final_state w)
    as (success & n1 & n2 & details & Hfinal & Hs & Hzero & Hcounts & Hone).
  rewrite Hfinal.
  destruct (simple_cleanup_keeps
              (Simple.send_email_notification w success n1 n2 details
                 (Simple.scrape_and_export w Simple.new_scraper).2))
    as (_ & _ & _ & _ & -> & _).
  unfold Simple.send_email_notification. split.
  - destruct (_ || _); [by left|].
    destruct (Simple.email_dispatch w _); [by left|].
    right. eexists. rewrite Hout. split; [done|]. exact Hs.
  - intros Hcode. apply Hzero in Hcode as Hreturns. apply Hret in Hreturns as ->.
    destruct Hres as [Hres|[e Hres]].
    2:{ apply Hzero in Hcode as [counts Hc]. congruence. }
    destruct (Hcounts _ Hres) as [-> ->].
    assert (success = true) as ->.
    { rewrite Hs. by apply bool_decide_eq_true. }
    intros msg. destruct (_ || _); [by rewrite Hout; intros ?%elem_of_nil|].
    destruct (Simple.email_dispatch w _); [by rewrite Hout; intros ?%elem_of_nil|].
    cbn [Simple.outbox]. rewrite Hout, Hfiles. intros ->%list_elem_of_singleton.
    done.
Qed.

Lemma simple_success_message_counts_the_stations_witness :
  Simple.outbox (Simple.run (H := Simple.sample_libs) (Simple.sample_world [])).2
  = [Simple.Email true 2 None
       ["evcs_data_July_27_2025_08_00.json"; "evcs_data_July_27_2025_08_00.xlsx";
        "evcs_data_July_27_2025_08_00.csv"]].
Proof.
  destruct (simple_success_message_counts_the_stations (H := Simple.sample_libs)
              (Simple.sample_world [])) as [_ Hmsg].
  assert (Simple.outbox
            (Simple.run (H := Simple.sample_libs) (Simple.sample_world [])).2 ≠ [])
    as Hne by (by vm_compute).
  destruct (Simple.outbox (Simple.run (H := Simple.sample_libs) (Simple.sample_world [])).2)
    as [|msg [|msg' rest]] eqn:Hout; [done| |by vm_compute in Hout].
  rewrite (Hmsg eq_refl msg) by left. reflexivity.
Defined.
